(** * posts-api: controllers for posts, tags and search

    A shallow embedding of the request handlers of the posts API
    (postsController.ts, searchController.ts, tagsController.ts), the
    Mongoose schemas they rely on (models/Post.ts, models/Tag.ts), the
    blob-store wrapper (services/cloudStorage.ts) and the seeding script
    (scripts/initDB.ts), followed by the properties of the
    natural-language specification that are settled on them and by
    further properties of the handlers: their outcomes, the invariants of
    the store, and how requests compose.

    Conventions of the embedding:
    - a string of a request is a [string]: a sequence of code units
      below U+0100.  The slug normalizer is also given on all strings of
      16-bit code units ([Utf16]), where lower-casing is neither
      characterwise nor length-preserving; on the strings of a request
      the two agree;
    - an ObjectId is a [nat]; the id of a route is a [RouteId]: an
      ObjectId, or a string that does not cast to one, on which the
      operations of the store throw a [CastError];
    - a number is a double ([Number.t]): an integer that a double holds,
      NaN or an infinity; [parseInt] rounds to the nearest double;
    - the tag collection is a list in insertion order ([findOne] returns
      the first match), the post collection a [gmap] from id to record;
    - the schema options are part of the store operations: the setters
      [trim] and [lowercase] run on documents, updates and query values,
      the validators [required] and [maxlength] run on creation and, as
      [runValidators] asks, on update, and the unique indexes reject
      duplicates;
    - the Cloudinary service is an oracle that fixes, for one request, the
      outcome of the upload call and of the destroy call;
    - every call to the blob store and every write to a collection is
      appended to a trace, so that orderings can be stated;
    - a [find] is answered or rejected by the store: a skip that is
      negative or NaN and a pattern that does not compile are rejected,
      a query of plain sort key, literal pattern and skip and limit
      between 0 and 2^53 is answered, and on the others the store is an
      oracle; a listing carries the query handed to the store and the
      number of matching documents, the page that the cursor of the
      store cuts out of them is not modelled;
    - of the pattern language of [$regex] the literal characters and the
      dot are given a meaning; of the patterns that do not compile, those
      that start with a quantifier and those of literals, dots and
      unbalanced parentheses are recognised. *)

From Stdlib Require Import ZArith Ascii String List Lia Bool Sorted.
From stdpp Require Import base option list gmap strings.

Local Open Scope Z_scope.

(** ** JavaScript string primitives *)

Module Js.

Definition code (c : ascii) : nat := nat_of_ascii c.

Definition between (lo hi : nat) (c : ascii) : bool :=
  (Nat.leb lo (code c)) && (Nat.leb (code c) hi).

(** Upper-case letters that have a lower-case form 32 code points
    higher: A-Z, and the Latin-1 letters U+00C0..U+00DE without the
    multiplication sign U+00D7. *)
Definition is_upper (c : ascii) : bool :=
  between 65 90 c || (between 192 222 c && negb (Nat.eqb (code c) 215)).

Definition char_toLowerCase (c : ascii) : ascii :=
  if is_upper c then ascii_of_nat (code c + 32) else c.

Fixpoint map_chars (f : ascii -> ascii) (s : string) : string :=
  match s with
  | EmptyString => EmptyString
  | String c r => String (f c) (map_chars f r)
  end.

(** [String.prototype.toLowerCase] *)
Definition toLowerCase (s : string) : string := map_chars char_toLowerCase s.

(** The character class [[a-z0-9]]. *)
Definition in_a_z_0_9 (c : ascii) : bool :=
  between 97 122 c || between 48 57 c.

(** [s.replace(/[^a-z0-9]/g, '-')] *)
Definition replace_non_alnum (s : string) : string :=
  map_chars (fun c => if in_a_z_0_9 c then c else "-"%char) s.

(** White space and line terminators of [trim] in the Latin-1 range. *)
Definition is_white (c : ascii) : bool :=
  between 9 13 c || Nat.eqb (code c) 32 || Nat.eqb (code c) 160.

Fixpoint trimStart (s : string) : string :=
  match s with
  | EmptyString => EmptyString
  | String c r => if is_white c then trimStart r else s
  end.

Fixpoint trimEnd (s : string) : string :=
  match s with
  | EmptyString => EmptyString
  | String c r =>
      match trimEnd r with
      | EmptyString => if is_white c then EmptyString else String c EmptyString
      | r' => String c r'
      end
  end.

(** [String.prototype.trim] *)
Definition trim (s : string) : string := trimEnd (trimStart s).

(** [s.split(sep)] for a one-character separator; the result is never
    empty: splitting the empty string gives one empty piece. *)
Fixpoint split (sep : ascii) (s : string) : list string :=
  match s with
  | EmptyString => [EmptyString]
  | String c r =>
      if Ascii.eqb c sep then EmptyString :: split sep r
      else match split sep r with
           | h :: t => String c h :: t
           | [] => [String c EmptyString]
           end
  end.

(** [s.startsWith(p)] *)
Definition startsWith (p s : string) : bool := String.prefix p s.

(** Truthiness of a string value: only the empty string is falsy. *)
Definition truthy (s : string) : bool :=
  match s with EmptyString => false | _ => true end.

(** Truthiness of a possibly undefined string value. *)
Definition truthy_opt (o : option string) : bool :=
  match o with Some s => truthy s | None => false end.

(** [a || b] where [a] is a possibly undefined string. *)
Definition or_else (a : option string) (b : string) : string :=
  match a with
  | Some s => if truthy s then s else b
  | None => b
  end.

End Js.

(** ** Slug normalizer

    [tagName.toLowerCase().replace(/[^a-z0-9]/g, '-')], the expression
    used by createPost, updatePost and createTag, on the strings of a
    request: code units below U+0100, where lower-casing works character
    by character.  The same expression on all strings of 16-bit code
    units is [Utf16.slugify] below. *)
Definition slugify (name : string) : string :=
  Js.replace_non_alnum (Js.toLowerCase name).

(** The characters of a slug: [[a-z0-9-]]. *)
Definition slug_char (c : ascii) : bool :=
  Js.in_a_z_0_9 c || Ascii.eqb c "-"%char.

Fixpoint all_chars (p : ascii -> bool) (s : string) : bool :=
  match s with
  | EmptyString => true
  | String c r => p c && all_chars p r
  end.

(** What slugify does to one character. *)
Definition slug_of_char (c : ascii) : ascii :=
  if Js.in_a_z_0_9 (Js.char_toLowerCase c) then Js.char_toLowerCase c else "-"%char.

(** ** The slug normalizer on strings of 16-bit code units

    A JavaScript string is a sequence of 16-bit code units, and a tag
    name can hold any of them.  The normalizer is modelled here on all
    such strings; [slugify] above is its restriction to the strings of
    code units below U+0100 that the handlers of this development take
    their requests from.

    [toLowerCase] follows the case conversion of Unicode.  Here it is
    exact on the code units below U+0100 and on the two code points
    above them whose lower case has a letter of [a-z]: U+0130, whose
    lower case is [i] followed by U+0307 and is the only one longer than
    its source, and U+212A, whose lower case is [k].  The lower case of
    any other code unit, which may depend on the code units around it
    (a surrogate pair, a final sigma), is one code unit outside ASCII;
    which one is left to the parameter [other]. *)
Module Utf16.

(** A code unit: its high and its low byte. *)
Record cu := CU { hi : ascii; lo : ascii }.

Definition t := list cu.

Definition code (u : cu) : N := 256 * N_of_ascii (hi u) + N_of_ascii (lo u).

Definition codes (s : t) : list N := map code s.

Definition of_ascii (c : ascii) : cu := CU zero c.

(** A string of code units below U+0100. *)
Definition of_latin1 (s : string) : t := map of_ascii (list_ascii_of_string s).

Definition eqb (u v : cu) : bool :=
  Ascii.eqb (hi u) (hi v) && Ascii.eqb (lo u) (lo v).

(** U+0130, U+0307 and U+212A. *)
Definition capital_I_with_dot : cu := CU "001" "048".
Definition combining_dot_above : cu := CU "003" "007".
Definition kelvin_sign : cu := CU "033" "042".

(** The lower case of the code unit [u] that stands between [before]
    (nearest first) and [after]. *)
Definition lower_unit (other : t -> cu -> t -> cu) (before : t) (u : cu) (after : t) : t :=
  if Ascii.eqb (hi u) zero then [of_ascii (Js.char_toLowerCase (lo u))]
  else if eqb u capital_I_with_dot then [of_ascii "i"; combining_dot_above]
  else if eqb u kelvin_sign then [of_ascii "k"]
  else [other before u after].

Fixpoint lower_from (other : t -> cu -> t -> cu) (before s : t) : t :=
  match s with
  | [] => []
  | u :: r => lower_unit other before u r ++ lower_from other (u :: before) r
  end.

(** [String.prototype.toLowerCase] *)
Definition toLowerCase (other : t -> cu -> t -> cu) (s : t) : t :=
  lower_from other [] s.

(** The character class [[a-z0-9]]. *)
Definition in_a_z_0_9 (u : cu) : bool :=
  Ascii.eqb (hi u) zero && Js.in_a_z_0_9 (lo u).

(** [s.replace(/[^a-z0-9]/g, '-')]: the pattern has no [u] flag, it is
    applied code unit by code unit. *)
Definition replace_non_alnum (s : t) : t :=
  map (fun u => if in_a_z_0_9 u then u else of_ascii "-") s.

(** [name.toLowerCase().replace(/[^a-z0-9]/g, '-')] *)
Definition slugify_with (other : t -> cu -> t -> cu) (name : t) : t :=
  replace_non_alnum (toLowerCase other name).

(** What Unicode guarantees of the lower case of the other code units. *)
Definition outside_ascii (u : cu) : bool :=
  negb (Ascii.eqb (hi u) zero && (N_of_ascii (lo u) <? 128)%N).

Definition unicode_table (other : t -> cu -> t -> cu) : Prop :=
  forall before u after, outside_ascii (other before u after) = true.

(** The normalizer with the other code units kept as they are; it is
    the normalizer for every table of Unicode. *)
Definition keep (before : t) (u : cu) (after : t) : cu := u.

Definition slugify (name : t) : t := slugify_with keep name.

(** What the normalizer makes of one code unit. *)
Definition unit_slug (u : cu) : t := slugify [u].

End Utf16.

(** The normalizer as the specification words it, on the codes of the
    code units: a capital letter of A-Z becomes the small one, a small
    letter or a digit stays, and anything else becomes a dash; of the
    code points above ASCII two have a lower case that holds a small
    letter, U+212A ([k]) and U+0130 ([i] and a combining dot, which
    becomes a dash). *)
Definition slug_of_code (n : N) : list N :=
  (if (65 <=? n) && (n <=? 90) then [n + 32]
   else if ((97 <=? n) && (n <=? 122)) || ((48 <=? n) && (n <=? 57)) then [n]
   else if n =? 8490 then [107]
   else if n =? 304 then [105; 45]
   else [45])%N.

(** The codes of [[a-z0-9-]]. *)
Definition slug_code (n : N) : bool :=
  ((n =? 45) || ((48 <=? n) && (n <=? 57)) || ((97 <=? n) && (n <=? 122)))%N.

(** ** Numbers

    The numbers of the handlers come from [parseInt] and from the
    arithmetic on its results: they are integers, NaN or an infinity.
    A number is a double: an integer of more than 53 significant bits is
    rounded to the nearest double, ties to even, and to an infinity from
    2^1024 - 2^970 on.  The sign of zero is not modelled ([-0] is falsy
    and is serialized like [0]). *)
Module Number.

Inductive t :=
| Fin (z : Z)
| NaN
| Infinity (negative : bool).

(** The double nearest to an integer. *)
Definition round_double (z : Z) : t :=
  let a := Z.abs z in
  if a <? 2 ^ 53 then Fin z
  else
    let sh := Z.log2 a - 52 in
    let q := Z.shiftr a sh in
    let r := a - Z.shiftl q sh in
    let half := Z.shiftl 1 (sh - 1) in
    let q' := if (half <? r) || ((r =? half) && Z.odd q) then q + 1 else q in
    let v := Z.shiftl q' sh in
    if 2 ^ 1024 <=? v then Infinity (z <? 0) else Fin (Z.sgn z * v).

(** [x - 1] *)
Definition pred (x : t) : t :=
  match x with
  | Fin z => round_double (z - 1)
  | NaN => NaN
  | Infinity n => Infinity n
  end.

(** [x * y] *)
Definition mul (x y : t) : t :=
  match x, y with
  | NaN, _ | _, NaN => NaN
  | Fin a, Fin b => round_double (a * b)
  | Fin a, Infinity n | Infinity n, Fin a =>
      if a =? 0 then NaN else Infinity (xorb n (a <? 0))
  | Infinity n, Infinity m => Infinity (xorb n m)
  end.

(** Truthiness: NaN and zero are falsy. *)
Definition truthy (x : t) : bool :=
  match x with
  | Fin z => negb (z =? 0)
  | NaN => false
  | Infinity _ => true
  end.

(** [x || d] *)
Definition or_default (x : t) (d : Z) : t :=
  if truthy x then x else Fin d.

End Number.

(** ** parseInt

    [parseInt(s, radix)]: NaN when no digit is read, and otherwise the
    double nearest to the integer read. *)
Module ParseInt.

Definition digit_value (c : ascii) : option Z :=
  if Js.between 48 57 c then Some (Z.of_nat (Js.code c) - 48)
  else if Js.between 97 122 c then Some (Z.of_nat (Js.code c) - 87)
  else if Js.between 65 90 c then Some (Z.of_nat (Js.code c) - 55)
  else None.

Definition digit_in (R : Z) (c : ascii) : option Z :=
  match digit_value c with
  | Some d => if d <? R then Some d else None
  | None => None
  end.

(** Value of the longest prefix of radix-[R] digits; [acc] is [None]
    as long as no digit was read. *)
Fixpoint read_digits (R : Z) (acc : option Z) (s : string) : option Z :=
  match s with
  | EmptyString => acc
  | String c r =>
      match digit_in R c with
      | Some d => read_digits R (Some (default 0 acc * R + d)) r
      | None => acc
      end
  end.

Definition strip_sign (s : string) : Z * string :=
  match s with
  | String c r =>
      if Ascii.eqb c "-"%char then (-1, r)
      else if Ascii.eqb c "+"%char then (1, r)
      else (1, s)
  | EmptyString => (1, s)
  end.

Definition strip_hex_prefix (s : string) : option string :=
  match s with
  | String c0 (String c1 r) =>
      if Ascii.eqb c0 "0"%char && (Ascii.eqb c1 "x"%char || Ascii.eqb c1 "X"%char)
      then Some r else None
  | _ => None
  end.

Definition parseInt (s : string) (radix : option Z) : Number.t :=
  let '(sign, body) := strip_sign (Js.trimStart s) in
  let R := default 0 radix in
  if negb (R =? 0) && ((R <? 2) || (36 <? R)) then Number.NaN
  else
    let stripPrefix := (R =? 0) || (R =? 16) in
    let R10 := if R =? 0 then 10 else R in
    let '(R', digits) :=
      match (if stripPrefix then strip_hex_prefix body else None) with
      | Some rest => (16, rest)
      | None => (R10, body)
      end in
    match read_digits R' None digits with
    | Some n => Number.round_double (sign * n)
    | None => Number.NaN
    end.

(** [ToString] of a query parameter that may be undefined. *)
Definition toString (o : option string) : string :=
  match o with Some s => s | None => "undefined" end.

End ParseInt.

(** ** Regular expressions of [$regex]

    The fragment of the pattern language whose matching is modelled: a
    sequence of literal characters and of dots ([compile] returns [None]
    for any other pattern).  Of the other patterns some are known to be
    rejected by the engine ([invalid]); what the engine makes of the rest
    is not modelled. *)
Module Regex.

Inductive atom := Lit (c : ascii) | AnyChar.

(** The metacharacters of the pattern language outside a class:
    [\ ^ $ . [ | ( ) ? * + {]. *)
Definition is_meta (c : ascii) : bool :=
  existsb (Ascii.eqb c)
    ["\"; "^"; "$"; "."; "["; "|"; "("; ")"; "?"; "*"; "+"; "{"]%char.

Fixpoint compile (pat : string) : option (list atom) :=
  match pat with
  | EmptyString => Some []
  | String c r =>
      match compile r with
      | None => None
      | Some atoms =>
          if Ascii.eqb c "."%char then Some (AnyChar :: atoms)
          else if is_meta c then None
          else Some (Lit c :: atoms)
      end
  end.

(** Patterns that the engine of the store is known to reject: a pattern
    that starts with a quantifier ([*], [+], [?]: nothing to repeat), and
    a pattern of literal characters, dots and parentheses in which the
    parentheses are not balanced. *)
Definition starts_with_quantifier (pat : string) : bool :=
  match pat with
  | String c _ => existsb (Ascii.eqb c) ["*"; "+"; "?"]%char
  | EmptyString => false
  end.

Definition is_paren (c : ascii) : bool :=
  Ascii.eqb c "("%char || Ascii.eqb c ")"%char.

Fixpoint only_plain_and_parens (pat : string) : bool :=
  match pat with
  | EmptyString => true
  | String c r =>
      (is_paren c || Ascii.eqb c "."%char || negb (is_meta c))
      && only_plain_and_parens r
  end.

(** Whether the parentheses are balanced, [depth] being open. *)
Fixpoint balanced (depth : nat) (pat : string) : bool :=
  match pat with
  | EmptyString => Nat.eqb depth 0
  | String c r =>
      if Ascii.eqb c "("%char then balanced (S depth) r
      else if Ascii.eqb c ")"%char then
        match depth with
        | O => false
        | S k => balanced k r
        end
      else balanced depth r
  end.

Definition invalid (pat : string) : bool :=
  starts_with_quantifier pat
  || (only_plain_and_parens pat && negb (balanced 0 pat)).

(** With option ['i'] a literal matches both cases of a letter; the dot
    matches every character but the line feed. *)
Definition atom_matches (caseless : bool) (a : atom) (d : ascii) : bool :=
  match a with
  | Lit c =>
      if caseless
      then Ascii.eqb (Js.char_toLowerCase c) (Js.char_toLowerCase d)
      else Ascii.eqb c d
  | AnyChar => negb (Nat.eqb (Js.code d) 10)
  end.

Fixpoint match_here (caseless : bool) (p : list atom) (s : string) : bool :=
  match p, s with
  | [], _ => true
  | a :: p', String d s' => atom_matches caseless a d && match_here caseless p' s'
  | _ :: _, EmptyString => false
  end.

(** An unanchored pattern matches when it matches at some position. *)
Fixpoint search (caseless : bool) (p : list atom) (s : string) : bool :=
  match_here caseless p s ||
  match s with
  | EmptyString => false
  | String _ s' => search caseless p s'
  end.

End Regex.



(** ** Data model (models/Post.ts, models/Tag.ts)

    The timestamps that the store manages are left out. *)

Definition ObjectId := nat.

(** The route parameter [:id] of a request, by what the cast to
    ObjectId of the store makes of it: a string that denotes an
    ObjectId, or a string that denotes none (["abc"]), with which every
    query by id fails with a CastError. *)
Inductive RouteId :=
| ValidId (id : ObjectId)
| InvalidId (raw : string).

Record Tag := mkTag {
  tag_id : ObjectId;
  tag_name : string;
  tag_slug : string
}.

Record Post := mkPost {
  post_id : ObjectId;
  post_title : string;
  post_description : string;
  post_imageUrl : string;
  post_tags : list ObjectId
}.

(** The two collections. *)
Record Db := mkDb {
  db_tags : list Tag;
  db_posts : gmap nat Post
}.

(** An uploaded file of express-fileupload: declared media type and size. *)
Record UploadedFile := mkFile {
  mimetype : string;
  size : Z
}.

(** Outcome, fixed per request, of the calls whose answer is not the
    program's: the two Cloudinary calls, [uploader.upload] (the secure
    URL, or [None] when it fails) and [uploader.destroy] (whether its
    result is ['ok']), and whether the store accepts a query that is
    outside the modelled range (see [query_verdict]). *)
Record Cloud := mkCloud {
  upload_result : option string;
  destroy_ok : bool;
  store_accepts : bool
}.

Inductive Event :=
| EvUpload (f : UploadedFile) (r : option string)
| EvDestroy (publicId : string) (ok : bool)
| EvTagInsert (t : Tag)
| EvPostInsert (p : Post)
| EvPostUpdate (p : Post)
| EvPostDelete (id : ObjectId).

(** What a handler can throw into its [catch]. *)
Inductive Exn :=
| UploadFailed
| DeleteFailed
| ValidatorError (path : string) (kind : string)
| DuplicateKey (path : string)
| CastError (path : string)
| MongoServerError.

(** ** The handler monad: oracle, state, trace and exceptions *)

Record World := mkWorld {
  w_db : Db;
  w_trace : list Event
}.

Inductive Result (A : Type) :=
| Ret (a : A)
| Throw (e : Exn).
Arguments Ret {A} a.
Arguments Throw {A} e.

Definition M (A : Type) : Type := Cloud -> World -> Result A * World.

Definition ret {A} (a : A) : M A := fun _ w => (Ret a, w).

Definition throw {A} (e : Exn) : M A := fun _ w => (Throw e, w).

Definition bind {A B} (m : M A) (k : A -> M B) : M B :=
  fun c w =>
    match m c w with
    | (Ret a, w') => k a c w'
    | (Throw e, w') => (Throw e, w')
    end.

Notation "'let*' x ':=' m 'in' k" := (bind m (fun x => k))
  (at level 10, x name, m at level 100, k at level 200).

Definition ask : M Cloud := fun c w => (Ret c, w).

Definition get_db : M Db := fun _ w => (Ret (w_db w), w).

Definition put_db (d : Db) : M unit :=
  fun _ w => (Ret tt, mkWorld d (w_trace w)).

Definition emit (e : Event) : M unit :=
  fun _ w => (Ret tt, mkWorld (w_db w) (w_trace w ++ [e])).

(** [for (const x of l) { ids.push(await f(x)) }] *)
Fixpoint for_each {A B} (f : A -> M B) (l : list A) : M (list B) :=
  match l with
  | [] => ret []
  | x :: l' =>
      let* y := f x in
      let* ys := for_each f l' in
      ret (y :: ys)
  end.

(** ** The stores *)

(** A new ObjectId: an id that no document of either collection has. *)
Definition new_id (d : Db) : ObjectId :=
  fresh (dom (db_posts d) ∪ list_to_set (tag_id <$> db_tags d) : gset nat).

Definition slug_is (slug : string) (t : Tag) : bool :=
  bool_decide (tag_slug t = slug).

Definition name_is (name : string) (t : Tag) : bool :=
  bool_decide (tag_name t = name).

(** [Tag.findOne({ slug })]; the query value is cast by the schema,
    which lower-cases it. *)
Definition Tag_findOne (slug : string) : M (option Tag) :=
  let* d := get_db in
  ret (List.find (slug_is (Js.toLowerCase slug)) (db_tags d)).

(** Validation of a tag document after the schema setters ran. *)
Definition Tag_validate (name slug : string) : option Exn :=
  if negb (Js.truthy name) then Some (ValidatorError "name" "required")
  else if (50 <? Z.of_nat (String.length name)) then Some (ValidatorError "name" "maxlength")
  else if negb (Js.truthy slug) then Some (ValidatorError "slug" "required")
  else None.

(** [Tag.create({ name, slug })]: the setters [trim] (name) and
    [lowercase] (slug), the validators, then the insertion under the two
    unique indexes. *)
Definition Tag_create (name slug : string) : M Tag :=
  let name' := Js.trim name in
  let slug' := Js.toLowerCase slug in
  match Tag_validate name' slug' with
  | Some e => throw e
  | None =>
      let* d := get_db in
      if existsb (name_is name') (db_tags d) then throw (DuplicateKey "name")
      else if existsb (slug_is slug') (db_tags d) then throw (DuplicateKey "slug")
      else
        let t := mkTag (new_id d) name' slug' in
        let* _ := put_db (mkDb (db_tags d ++ [t]) (db_posts d)) in
        let* _ := emit (EvTagInsert t) in
        ret t
  end.

(** [Tag.find({ slug: { $in: slugs } }).select('_id')]; the query values
    are cast by the schema, which lower-cases them. *)
Definition tag_ids_with_slug_in (slugs : list string) (d : Db) : list ObjectId :=
  let wanted := Js.toLowerCase <$> slugs in
  tag_id <$> List.filter (fun t => bool_decide (tag_slug t ∈ wanted)) (db_tags d).

Definition Tag_find_slug_in (slugs : list string) : M (list ObjectId) :=
  let* d := get_db in
  ret (tag_ids_with_slug_in slugs d).

(** Validation of the four paths of a post after the setters ran. *)
Definition Post_validate (title description imageUrl : string) : option Exn :=
  if negb (Js.truthy title) then Some (ValidatorError "title" "required")
  else if (200 <? Z.of_nat (String.length title)) then Some (ValidatorError "title" "maxlength")
  else if negb (Js.truthy description) then Some (ValidatorError "description" "required")
  else if (5000 <? Z.of_nat (String.length description))
       then Some (ValidatorError "description" "maxlength")
  else if negb (Js.truthy imageUrl) then Some (ValidatorError "imageUrl" "required")
  else None.

(** [Post.create({ title, description, imageUrl, tags })] *)
Definition Post_create (title description imageUrl : string) (tags : list ObjectId)
  : M Post :=
  let title' := Js.trim title in
  match Post_validate title' description imageUrl with
  | Some e => throw e
  | None =>
      let* d := get_db in
      let p := mkPost (new_id d) title' description imageUrl tags in
      let* _ := put_db (mkDb (db_tags d) (<[post_id p := p]> (db_posts d))) in
      let* _ := emit (EvPostInsert p) in
      ret p
  end.

(** The cast of the [_id] of a query. *)
Definition castObjectId (id : RouteId) : M ObjectId :=
  match id with
  | ValidId oid => ret oid
  | InvalidId _ => throw (CastError "_id")
  end.

(** [Post.findById(id)] *)
Definition Post_findById (id : RouteId) : M (option Post) :=
  let* oid := castObjectId id in
  let* d := get_db in
  ret (db_posts d !! oid).

(** [Post.findByIdAndUpdate(id, { title, description, imageUrl, tags },
    { new: true, runValidators: true })] *)
Definition Post_findByIdAndUpdate (id : RouteId)
    (title description imageUrl : string) (tags : list ObjectId)
  : M (option Post) :=
  let* oid := castObjectId id in
  let title' := Js.trim title in
  match Post_validate title' description imageUrl with
  | Some e => throw e
  | None =>
      let* d := get_db in
      match db_posts d !! oid with
      | None => ret None
      | Some old =>
          let p := mkPost (post_id old) title' description imageUrl tags in
          let* _ := put_db (mkDb (db_tags d) (<[oid := p]> (db_posts d))) in
          let* _ := emit (EvPostUpdate p) in
          ret (Some p)
      end
  end.

(** [Post.findByIdAndDelete(id)] *)
Definition Post_findByIdAndDelete (id : RouteId) : M (option Post) :=
  let* oid := castObjectId id in
  let* d := get_db in
  match db_posts d !! oid with
  | None => ret None
  | Some old =>
      let* _ := put_db (mkDb (db_tags d) (delete oid (db_posts d))) in
      let* _ := emit (EvPostDelete oid) in
      ret (Some old)
  end.

(** A post with its tag references replaced by the tag documents
    ([populate('tags', 'name slug')]); a reference to no tag is dropped. *)
Record PopulatedPost := mkPopulated {
  pp_post : Post;
  pp_tags : list Tag
}.

Definition populated (d : Db) (p : Post) : PopulatedPost :=
  mkPopulated p
    (omap (fun i => List.find (fun t => bool_decide (tag_id t = i)) (db_tags d))
          (post_tags p)).

Definition populate (p : Post) : M PopulatedPost :=
  let* d := get_db in
  ret (populated d p).

(** ** Blob store (services/cloudStorage.ts) *)

Definition last_piece (l : list string) : string :=
  List.last l EmptyString.

Definition first_piece (l : list string) : string :=
  match l with
  | h :: _ => h
  | [] => EmptyString
  end.

(** The public id that [deleteFromCloud] extracts from an image URL. *)
Definition fullPublicId (imageUrl : string) : string :=
  let publicIdWithExtension := last_piece (Js.split "/" imageUrl) in
  let publicId := first_piece (Js.split "." publicIdWithExtension) in
  ("posts-api/" +:+ publicId)%string.

(** [uploadToCloud(file)]: every failure inside is rethrown as an upload
    failure; the Cloudinary call is made only for an image. *)
Definition uploadToCloud (file : UploadedFile) : M string :=
  if negb (Js.startsWith "image/" (mimetype file)) then throw UploadFailed
  else
    let* c := ask in
    let* _ := emit (EvUpload file (upload_result c)) in
    match upload_result c with
    | Some secure_url => ret secure_url
    | None => throw UploadFailed
    end.

(** [deleteFromCloud(imageUrl)] *)
Definition deleteFromCloud (imageUrl : string) : M unit :=
  let* c := ask in
  let* _ := emit (EvDestroy (fullPublicId imageUrl) (destroy_ok c)) in
  if destroy_ok c then ret tt else throw DeleteFailed.

(** ** Requests and responses *)

(** The [tags] field of a request body when it is truthy: an array of
    names, a non-empty string is [TagsString], any other truthy value is
    [TagsOther].  An absent or otherwise falsy field is [None]. *)
Inductive RawTags :=
| TagsArray (l : list string)
| TagsString (s : string)
| TagsOther.

Definition tags_truthy (t : option RawTags) : bool :=
  match t with
  | None => false
  | Some (TagsArray _) => true
  | Some (TagsString s) => Js.truthy s
  | Some TagsOther => true
  end.

Record PostBody := mkBody {
  b_title : option string;
  b_description : option string;
  b_tags : option RawTags;
  b_image : option UploadedFile
}.

(** Filters handed to [Post.find] and [Post.countDocuments]. *)
Inductive Filter :=
| FilterAll                             (* {} *)
| FilterTagsIn (ids : list ObjectId)    (* { tags: { $in: ids } } *)
| FilterSearch (query : string).        (* $or of two $regex, option i *)

Record Query := mkQuery {
  q_filter : Filter;
  q_sort : option (string * Z);
  q_skip : Number.t;
  q_limit : Number.t
}.

(** The predicate of a filter; [None] when a pattern is outside the
    modelled fragment. *)
Definition filter_pred (f : Filter) : option (Post -> bool) :=
  match f with
  | FilterAll => Some (fun _ => true)
  | FilterTagsIn ids =>
      Some (fun p => existsb (fun i => bool_decide (i ∈ ids)) (post_tags p))
  | FilterSearch q =>
      match Regex.compile q with
      | Some pat =>
          Some (fun p => Regex.search true pat (post_title p)
                         || Regex.search true pat (post_description p))
      | None => None
      end
  end.

(** The documents of the post collection (in no particular order). *)
Definition all_posts (d : Db) : list Post := (map_to_list (db_posts d)).*2.

(** The documents that a filter selects.  The cursor of the store then
    sorts them and cuts a page out of them; that part is the store's. *)
Definition Post_matching (f : Filter) (d : Db) : option (list Post) :=
  match filter_pred f with
  | Some pred => Some (List.filter pred (all_posts d))
  | None => None
  end.

(** [Post.countDocuments(filter)]; [None] when the matching of the
    pattern is not modelled. *)
Definition Post_countDocuments (f : Filter) (d : Db) : option nat :=
  length <$> Post_matching f d.

(** What the store makes of a part of a query: it accepts it, it
    rejects it, or the part is outside the modelled range. *)
Inductive Verdict := Accepted | Rejected | Unmodelled.

(** A rejection of one part rejects the query; otherwise a part outside
    the modelled range leaves the answer open. *)
Definition both (v1 v2 : Verdict) : Verdict :=
  match v1, v2 with
  | Rejected, _ | _, Rejected => Rejected
  | Accepted, Accepted => Accepted
  | _, _ => Unmodelled
  end.

Definition filter_verdict (f : Filter) : Verdict :=
  match f with
  | FilterAll | FilterTagsIn _ => Accepted
  | FilterSearch q =>
      match Regex.compile q with
      | Some _ => Accepted
      | None => if Regex.invalid q then Rejected else Unmodelled
      end
  end.

(** A sort key that is a plain field name: letters, digits and
    underscores. *)
Definition plain_field (key : string) : bool :=
  Js.truthy key
  && all_chars (fun c => Js.between 97 122 c || Js.between 65 90 c
                         || Js.between 48 57 c || Ascii.eqb c "_"%char) key.

Definition sort_verdict (s : option (string * Z)) : Verdict :=
  match s with
  | None => Accepted
  | Some (key, _) => if plain_field key then Accepted else Unmodelled
  end.

(** The store rejects a skip that is negative or NaN. *)
Definition skip_verdict (n : Number.t) : Verdict :=
  match n with
  | Number.Fin z =>
      if z <? 0 then Rejected else if z <=? 2 ^ 53 then Accepted else Unmodelled
  | Number.NaN => Rejected
  | Number.Infinity true => Rejected
  | Number.Infinity false => Unmodelled
  end.

Definition limit_verdict (n : Number.t) : Verdict :=
  match n with
  | Number.Fin z => if (0 <=? z) && (z <=? 2 ^ 53) then Accepted else Unmodelled
  | _ => Unmodelled
  end.

Definition query_verdict (q : Query) : Verdict :=
  both (filter_verdict (q_filter q))
    (both (sort_verdict (q_sort q))
       (both (skip_verdict (q_skip q)) (limit_verdict (q_limit q)))).

(** Whether the store answers a query, under the oracle of the request. *)
Definition store_answers (c : Cloud) (q : Query) : bool :=
  match query_verdict q with
  | Accepted => true
  | Rejected => false
  | Unmodelled => store_accepts c
  end.

(** [await Post.find(filter).sort(sort).skip(skip).limit(limit)]: the
    store answers the query or rejects it; the page that its cursor
    returns is not modelled. *)
Definition Post_find (q : Query) : M unit :=
  let* c := ask in
  if store_answers c q then ret tt else throw MongoServerError.

(** The pagination block of a listing, without [pages]. *)
Record Pagination := mkPagination {
  pg_page : Number.t;
  pg_limit : Number.t;
  pg_total : option nat
}.

Inductive Payload :=
| NoData
| DataPost (p : option PopulatedPost)
| DataPage (q : Query) (pg : Pagination)
| DataTag (t : Tag)
| DataTags (l : list Tag).

Record Response := mkResp {
  status : nat;
  success : bool;
  message : option string;
  data : Payload;
  error : option Exn
}.

Definition fail_with (st : nat) (msg : string) : Response :=
  mkResp st false (Some msg) NoData None.

(** The response of a [catch] block that reports [error.message]. *)
Definition server_error (e : Exn) : Response :=
  mkResp 500 false None NoData (Some e).

(** [try { body } catch (error) { handler }] *)
Definition try_catch (body : M Response) (handler : Exn -> Response) : M Response :=
  fun c w =>
    match body c w with
    | (Ret r, w') => (Ret r, w')
    | (Throw e, w') => (Ret (handler e), w')
    end.

(** ** Tag resolver (the loop shared by createPost and updatePost) *)

Definition resolveTag (tagName : string) : M ObjectId :=
  let slug := slugify tagName in
  let* found := Tag_findOne slug in
  let* tag := match found with
              | Some t => ret t
              | None => Tag_create tagName slug
              end in
  ret (tag_id tag).

Definition resolveTags (tagArray : list string) : M (list ObjectId) :=
  for_each resolveTag tagArray.

(** [tags.split(',').map(tag => tag.trim())] *)
Definition split_names (s : string) : list string :=
  Js.trim <$> Js.split "," s.

(** The [tagArray] of a truthy [tags] field; createPost and updatePost
    agree on it. *)
Definition tagArray_of (t : RawTags) : list string :=
  match t with
  | TagsArray l => l
  | TagsString s => split_names s
  | TagsOther => []
  end.

Definition process_tags (tags : option RawTags) : M (list ObjectId) :=
  if tags_truthy tags then
    match tags with
    | Some t => resolveTags (tagArray_of t)
    | None => ret []
    end
  else ret [].

Definition max_image_size : Z := 5 * 1024 * 1024.

(** ** postsController.ts *)

Record ListParams := mkListParams {
  lp_page : option string;
  lp_limit : option string;
  lp_sortBy : option string;
  lp_sortOrder : option string;
  lp_tags : option string
}.

(** [getPosts] *)
Definition getPosts (r : ListParams) : M Response :=
  try_catch
    (let page := Number.or_default (ParseInt.parseInt (ParseInt.toString (lp_page r)) None) 1 in
     let limit := Number.or_default (ParseInt.parseInt (ParseInt.toString (lp_limit r)) None) 10 in
     let sortBy := Js.or_else (lp_sortBy r) "createdAt" in
     let sortOrder := if bool_decide (lp_sortOrder r = Some "asc") then 1 else -1 in
     let* filter :=
       match lp_tags r with
       | Some tagFilter =>
           if Js.truthy tagFilter then
             let* tagIds := Tag_find_slug_in (split_names tagFilter) in
             ret (FilterTagsIn tagIds)
           else ret FilterAll
       | None => ret FilterAll
       end in
     let skip := Number.mul (Number.pred page) limit in
     let find := mkQuery filter (Some (sortBy, sortOrder)) skip limit in
     let* _ := Post_find find in
     let* d := get_db in
     let total := Post_countDocuments filter d in
     ret (mkResp 200 true None (DataPage find (mkPagination page limit total)) None))
    (fun _ => fail_with 500 "Server error while fetching posts").

(** [createPost] *)
Definition createPost (b : PostBody) : M Response :=
  try_catch
    (match b_title b, b_description b with
     | Some title, Some description =>
         if negb (Js.truthy title) || negb (Js.truthy description) then
           ret (fail_with 400 "Title and description are required")
         else
           match b_image b with
           | None => ret (fail_with 400 "Image is required")
           | Some imageFile =>
               if negb (Js.startsWith "image/" (mimetype imageFile)) then
                 ret (fail_with 400 "Only image files are allowed")
               else if size imageFile >? max_image_size then
                 ret (fail_with 400 "Image size must be less than 5MB")
               else
                 let* imageUrl := uploadToCloud imageFile in
                 let* tagIds := process_tags (b_tags b) in
                 let* post := Post_create title description imageUrl tagIds in
                 let* populated := populate post in
                 ret (mkResp 201 true (Some "Post created successfully")
                        (DataPost (Some populated)) None)
           end
     | _, _ => ret (fail_with 400 "Title and description are required")
     end)
    server_error.

(** [getPost] *)
Definition getPost (id : RouteId) : M Response :=
  try_catch
    (let* found := Post_findById id in
     match found with
     | None => ret (fail_with 404 "Post not found")
     | Some post =>
         let* populated := populate post in
         ret (mkResp 200 true None (DataPost (Some populated)) None)
     end)
    (fun _ => fail_with 500 "Server error while fetching post").

(** [deletePost] *)
Definition deletePost (postId : RouteId) : M Response :=
  try_catch
    (let* found := Post_findById postId in
     match found with
     | None => ret (fail_with 404 "Post not found")
     | Some post =>
         let* _ := deleteFromCloud (post_imageUrl post) in
         let* _ := Post_findByIdAndDelete postId in
         ret (mkResp 200 true (Some "Post deleted successfully") NoData None)
     end)
    server_error.

(** The image step of updatePost: the URL to store, or the response of
    an early return. *)
Definition update_image (post : Post) (image : option UploadedFile)
  : M (Response + string) :=
  match image with
  | None => ret (inr (post_imageUrl post))
  | Some imageFile =>
      if negb (Js.startsWith "image/" (mimetype imageFile)) then
        ret (inl (fail_with 400 "Only image files are allowed"))
      else if size imageFile >? max_image_size then
        ret (inl (fail_with 400 "Image size must be less than 5MB"))
      else
        let* secure_url := uploadToCloud imageFile in
        let* _ := deleteFromCloud (post_imageUrl post) in
        ret (inr secure_url)
  end.

(** [updatePost] *)
Definition updatePost (postId : RouteId) (b : PostBody) : M Response :=
  try_catch
    (let* found := Post_findById postId in
     match found with
     | None => ret (fail_with 404 "Post not found")
     | Some post =>
         let* step := update_image post (b_image b) in
         match step with
         | inl early => ret early
         | inr imageUrl =>
             let* tagIds := process_tags (b_tags b) in
             let* updatedPost :=
               Post_findByIdAndUpdate postId
                 (Js.or_else (b_title b) (post_title post))
                 (Js.or_else (b_description b) (post_description post))
                 imageUrl
                 (if (0 <? Z.of_nat (length tagIds)) then tagIds else post_tags post) in
             let* populated :=
               match updatedPost with
               | Some p => let* pp := populate p in ret (Some pp)
               | None => ret None
               end in
             ret (mkResp 200 true (Some "Post updated successfully")
                    (DataPost populated) None)
         end
     end)
    server_error.

(** ** searchController.ts *)

Record SearchParams := mkSearchParams {
  sp_q : option string;
  sp_page : option string;
  sp_limit : option string
}.

(** [searchPosts] *)
Definition searchPosts (r : SearchParams) : M Response :=
  try_catch
    (let page := default "1" (sp_page r) in
     let limit := default "10" (sp_limit r) in
     match sp_q r with
     | None => ret (fail_with 400 "Search query is required")
     | Some query =>
         if negb (Js.truthy query) then ret (fail_with 400 "Search query is required")
         else
           let pageNum := ParseInt.parseInt page (Some 10) in
           let limitNum := ParseInt.parseInt limit (Some 10) in
           let skip := Number.mul (Number.pred pageNum) limitNum in
           let searchFilter := FilterSearch query in
           let find := mkQuery searchFilter None skip limitNum in
           let* _ := Post_find find in
           let* d := get_db in
           let total := Post_countDocuments searchFilter d in
           ret (mkResp 200 true None
                  (DataPage find (mkPagination pageNum limitNum total)) None)
     end)
    (fun _ => fail_with 500 "Server error while searching posts").

(** ** tagsController.ts *)

Fixpoint insert_by_name (t : Tag) (l : list Tag) : list Tag :=
  match l with
  | [] => [t]
  | u :: l' =>
      if String.leb (tag_name t) (tag_name u) then t :: l
      else u :: insert_by_name t l'
  end.

(** [Tag.find().sort({ name: 1 })] *)
Definition Tag_find_sorted (d : Db) : list Tag :=
  foldr insert_by_name [] (db_tags d).

(** [getTags] *)
Definition getTags : M Response :=
  try_catch
    (let* d := get_db in
     ret (mkResp 200 true None (DataTags (Tag_find_sorted d)) None))
    (fun _ => fail_with 500 "Server error while fetching tags").

(** [createTag] *)
Definition createTag (name : option string) : M Response :=
  try_catch
    (match name with
     | None => ret (fail_with 400 "Tag name is required")
     | Some name =>
         if negb (Js.truthy name) then ret (fail_with 400 "Tag name is required")
         else
           let slug := slugify name in
           let* existingTag := Tag_findOne slug in
           match existingTag with
           | Some _ => ret (fail_with 409 "Tag already exists")
           | None =>
               let* tag := Tag_create name slug in
               ret (mkResp 201 true None (DataTag tag) None)
           end
     end)
    (fun _ => fail_with 500 "Server error while creating tag").

(** ** The service: requests served one after the other *)

Inductive Request :=
| GET_posts (r : ListParams)
| POST_posts (b : PostBody)
| GET_post (id : RouteId)
| PUT_post (id : RouteId) (b : PostBody)
| DELETE_post (id : RouteId)
| GET_search (r : SearchParams)
| GET_tags
| POST_tags (name : option string).

Definition route (r : Request) : M Response :=
  match r with
  | GET_posts q => getPosts q
  | POST_posts b => createPost b
  | GET_post id => getPost id
  | PUT_post id b => updatePost id b
  | DELETE_post id => deletePost id
  | GET_search q => searchPosts q
  | GET_tags => getTags
  | POST_tags name => createTag name
  end.

(** One request on a store: the response, the store afterwards and the
    trace of blob-store calls and collection writes.  An exception that
    escapes a handler would reach the error middleware of the app. *)
Definition exec (h : M Response) (c : Cloud) (d : Db) : Response * Db * list Event :=
  match h c (mkWorld d []) with
  | (Ret r, w) => (r, w_db w, w_trace w)
  | (Throw _, w) => (fail_with 500 "Something went wrong!", w_db w, w_trace w)
  end.

Definition response_of (x : Response * Db * list Event) : Response := x.1.1.
Definition db_of (x : Response * Db * list Event) : Db := x.1.2.
Definition trace_of (x : Response * Db * list Event) : list Event := x.2.

Fixpoint serve (reqs : list (Request * Cloud)) (d : Db) : Db :=
  match reqs with
  | [] => d
  | (r, c) :: rest => serve rest (db_of (exec (route r) c d))
  end.

Definition empty_db : Db := mkDb [] ∅.

Definition unique_slugs (d : Db) : Prop := NoDup (tag_slug <$> db_tags d).

(** ** Vocabulary of the properties *)

(** A computation run on a store, without its trace. *)
Definition run {A} (m : M A) (c : Cloud) (d : Db) : Result A * Db :=
  let '(r, w) := m c (mkWorld d []) in (r, w_db w).

(** Every step of [m] takes a world to one related to it by [R]. *)
Definition respects (R : World -> World -> Prop) {A} (m : M A) : Prop :=
  forall c w, R w (m c w).2.

(** [m] only appends to the trace and never reads it. *)
Definition framed {A} (m : M A) : Prop :=
  forall c d tr,
    m c (mkWorld d tr) =
    let '(r, w) := m c (mkWorld d []) in
    (r, mkWorld (w_db w) (tr ++ w_trace w)).

Definition same_db (w w' : World) : Prop := w_db w' = w_db w.

Definition same_posts (w w' : World) : Prop :=
  db_posts (w_db w') = db_posts (w_db w).

Definition tags_grow (w w' : World) : Prop :=
  exists l, db_tags (w_db w') = db_tags (w_db w) ++ l.

Definition same_tags (w w' : World) : Prop :=
  db_tags (w_db w') = db_tags (w_db w).

Definition keeps_unique_slugs (w w' : World) : Prop :=
  unique_slugs (w_db w) -> unique_slugs (w_db w').

(** Every stored title is in the trimmed form the schema writes. *)
Definition titles_trimmed (d : Db) : Prop :=
  forall id p, db_posts d !! id = Some p -> Js.trim (post_title p) = post_title p.

Definition keeps_titles_trimmed (w w' : World) : Prop :=
  titles_trimmed (w_db w) -> titles_trimmed (w_db w').

Definition is_tag_insert (e : Event) : bool :=
  match e with EvTagInsert _ => true | _ => false end.

(** From [w] to [w'] the trace only gained tag insertions. *)
Definition only_tag_inserts (w w' : World) : Prop :=
  exists l, w_trace w' = w_trace w ++ l /\ Forall (fun e => is_tag_insert e = true) l.

(** The names that a [tags] field resolves to. *)
Definition names_of (tags : option RawTags) : list string :=
  if tags_truthy tags then
    match tags with
    | Some t => tagArray_of t
    | None => []
    end
  else [].

(** The validations of post creation, as the specification lists them:
    title and description present, image present, media type beginning
    with the image marker, byte size at most 5 * 1024 * 1024. *)
Definition passes_create_validation (b : PostBody) : bool :=
  Js.truthy_opt (b_title b) && Js.truthy_opt (b_description b) &&
  match b_image b with
  | Some f => Js.startsWith "image/" (mimetype f) && (size f <=? 5 * 1024 * 1024)
  | None => false
  end.

(** The validations of a replacement image. *)
Definition valid_image (f : UploadedFile) : bool :=
  Js.startsWith "image/" (mimetype f) && (size f <=? 5 * 1024 * 1024).

Definition is_upload (e : Event) : bool :=
  match e with EvUpload _ _ => true | _ => false end.

Definition is_destroy (e : Event) : bool :=
  match e with EvDestroy _ _ => true | _ => false end.

Definition is_blob_call (e : Event) : bool := is_upload e || is_destroy e.

Definition page_query (r : Response) : option Query :=
  match data r with DataPage q _ => Some q | _ => None end.

Definition page_pagination (r : Response) : option Pagination :=
  match data r with DataPage _ pg => Some pg | _ => None end.


(** ** Sample data for the examples *)

Definition sample_tag : Tag := mkTag 7%nat "X" "x".

Definition sample_post : Post :=
  mkPost 1%nat "T" "D" "https://cdn.example/posts-api/old.png" [7%nat].

Definition sample_db : Db := mkDb [sample_tag] {[ 1%nat := sample_post ]}.

Definition sample_file : UploadedFile := mkFile "image/png" (1024 * 1024).

Definition new_url : string := "https://cdn.example/posts-api/new.png".

Definition cloud_ok : Cloud := mkCloud (Some new_url) true true.

Definition cloud_destroy_fails : Cloud := mkCloud (Some new_url) false true.

Definition cloud_down : Cloud := mkCloud None false false.

(** A request body that retitles a post and replaces its image. *)
Definition retitle_with_image : PostBody :=
  mkBody (Some "New title") None None (Some sample_file).

(** A request body that only sets tags. *)
Definition retag : PostBody :=
  mkBody None None (Some (TagsString "a, b")) None.

(** A request body that sends an empty title and an empty description. *)
Definition blank_fields : PostBody :=
  mkBody (Some "") (Some "") None None.

(** A listing request that only sets [page]. *)
Definition list_page (page : string) : ListParams :=
  mkListParams (Some page) None None None None.

(** A listing request that only sets [tags]. *)
Definition list_tags (tags : string) : ListParams :=
  mkListParams None None None None (Some tags).

(** A search request that only sets [q]. *)
Definition search_for (q : string) : SearchParams :=
  mkSearchParams (Some q) None None.

(** A creation request whose image is one byte over the limit. *)
Definition oversized_create : PostBody :=
  mkBody (Some "T") (Some "D") None (Some (mkFile "image/png" (5 * 1024 * 1024 + 1))).

(** ** scripts/initDB.ts *)

(** The sample tags of the seeding script: name and slug. *)
Definition sampleTags : list (string * string) :=
  [("Technology", "technology"); ("Programming", "programming");
   ("Design", "design"); ("Travel", "travel"); ("Food", "food");
   ("Lifestyle", "lifestyle")].

(** The body of the loop of [initDatabase]. *)
Definition seed_tag (tagData : string * string) : M unit :=
  let* existingTag := Tag_findOne tagData.2 in
  match existingTag with
  | Some _ => ret tt
  | None =>
      let* _ := Tag_create tagData.1 tagData.2 in
      ret tt
  end.

(** [initDatabase]; an exception ends the script ([process.exit(1)]). *)
Definition initDatabase : M unit :=
  let* _ := for_each seed_tag sampleTags in
  ret tt.

(** ** Vocabulary of the further properties *)

(** Every post is stored under its own identifier. *)
Definition posts_keyed (d : Db) : Prop :=
  forall id p, db_posts d !! id = Some p -> post_id p = id.

(** No two tags share an identifier. *)
Definition tag_ids_distinct (d : Db) : Prop := NoDup (tag_id <$> db_tags d).

(** No two tags share a name. *)
Definition unique_names (d : Db) : Prop := NoDup (tag_name <$> db_tags d).

(** A tag document that passed the setters and validators of its schema. *)
Definition tag_ok (t : Tag) : Prop :=
  tag_name t <> "" /\ (String.length (tag_name t) <= 50)%nat
  /\ Js.trim (tag_name t) = tag_name t
  /\ tag_slug t <> "" /\ Js.toLowerCase (tag_slug t) = tag_slug t.

(** A post document that passed the setters and validators of its schema. *)
Definition post_ok (p : Post) : Prop :=
  post_title p <> "" /\ (String.length (post_title p) <= 200)%nat
  /\ Js.trim (post_title p) = post_title p
  /\ post_description p <> "" /\ (String.length (post_description p) <= 5000)%nat
  /\ post_imageUrl p <> "".

Definition schema_valid (d : Db) : Prop :=
  (forall t, t ∈ db_tags d -> tag_ok t)
  /\ (forall id p, db_posts d !! id = Some p -> post_ok p).

(** Every tag reference of a post is the identifier of a stored tag. *)
Definition references_resolve (d : Db) : Prop :=
  forall id p i, db_posts d !! id = Some p -> i ∈ post_tags p ->
                 exists t, t ∈ db_tags d /\ tag_id t = i.

(** The tag that a name resolves to in a store: the first of its slug. *)
Definition tag_of_name (d : Db) (name : string) : option Tag :=
  List.find (slug_is (slugify name)) (db_tags d).

Definition name_le (t u : Tag) : Prop := String.leb (tag_name t) (tag_name u) = true.

Definition has_no (c : ascii) (s : string) : bool :=
  all_chars (fun x => negb (Ascii.eqb x c)) s.

(** A creation request with a title of blanks only. *)
Definition blank_title_create : PostBody :=
  mkBody (Some "  ") (Some "D") None (Some sample_file).

(** A creation request with two tags. *)
Definition tagged_create : PostBody :=
  mkBody (Some "T") (Some "D") (Some (TagsString "A, B")) (Some sample_file).

(** The number of stored posts. *)
Definition post_count (d : Db) : nat := base.size (db_posts d).

(** A creation request whose tags string ends in a comma. *)
Definition trailing_comma_create : PostBody :=
  mkBody (Some "T") (Some "D") (Some (TagsString "a,")) (Some sample_file).

(** A step that keeps an invariant of the store. *)
Definition keeps (I : Db -> Prop) (w w' : World) : Prop :=
  I (w_db w) -> I (w_db w').

(** * Properties *)

(** ** Slug normalizer *)

Section Slug.

Ltac by_cases_on_char c :=
  destruct c as [[] [] [] [] [] [] [] []]; vm_compute; reflexivity.

Lemma slug_of_char_in_class (c : ascii) : slug_char (slug_of_char c) = true.
Proof. by_cases_on_char c. Qed.

Lemma slug_of_char_fixed (c : ascii) : slug_of_char (slug_of_char c) = slug_of_char c.
Proof. by_cases_on_char c. Qed.

Lemma map_chars_compose (f g : ascii -> ascii) (s : string) :
  Js.map_chars g (Js.map_chars f s) = Js.map_chars (fun c => g (f c)) s.
Proof. induction s as [|c s IH]; simpl; [reflexivity | by rewrite IH]. Qed.

Lemma map_chars_ext (f g : ascii -> ascii) (s : string) :
  (forall c, f c = g c) -> Js.map_chars f s = Js.map_chars g s.
Proof. intros E. induction s as [|c s IH]; simpl; [reflexivity | by rewrite E, IH]. Qed.

Lemma map_chars_length (f : ascii -> ascii) (s : string) :
  String.length (Js.map_chars f s) = String.length s.
Proof. induction s as [|c s IH]; simpl; [reflexivity | by rewrite IH]. Qed.

Lemma map_chars_get (f : ascii -> ascii) (s : string) (i : nat) :
  String.get i (Js.map_chars f s) = f <$> String.get i s.
Proof.
  revert i. induction s as [|c s IH]; intros i; simpl; [reflexivity|].
  destruct i; simpl; [reflexivity | apply IH].
Qed.

Lemma slugify_pointwise (x : string) : slugify x = Js.map_chars slug_of_char x.
Proof.
  unfold slugify, Js.replace_non_alnum, Js.toLowerCase.
  rewrite map_chars_compose. apply map_chars_ext. reflexivity.
Qed.

Lemma slugify_all_slug_chars (x : string) : all_chars slug_char (slugify x) = true.
Proof.
  rewrite slugify_pointwise.
  induction x as [|c x IH]; simpl; [reflexivity|].
  by rewrite slug_of_char_in_class, IH.
Qed.

Lemma slugify_idempotent (x : string) : slugify (slugify x) = slugify x.
Proof.
  rewrite !slugify_pointwise, map_chars_compose.
  apply map_chars_ext, slug_of_char_fixed.
Qed.

Lemma toLowerCase_slugify (x : string) : Js.toLowerCase (slugify x) = slugify x.
Proof.
  rewrite slugify_pointwise. unfold Js.toLowerCase. rewrite map_chars_compose.
  apply map_chars_ext. intros c. by_cases_on_char c.
Qed.

(** On the strings of code units below U+0100: the normalizer is
    characterwise and keeps the length. *)
Lemma slugify_characterwise (x : string) :
  String.length (slugify x) = String.length x
  /\ (forall i, String.get i (slugify x) = slug_of_char <$> String.get i x)
  /\ all_chars slug_char (slugify x) = true.
Proof.
  split; [|split].
  - rewrite slugify_pointwise. apply map_chars_length.
  - intros i. rewrite slugify_pointwise. apply map_chars_get.
  - apply slugify_all_slug_chars.
Qed.

(** *** On all strings of 16-bit code units *)

Lemma N_of_ascii_zero (a : ascii) : N_of_ascii a = 0%N -> a = zero.
Proof. intros H. rewrite <- (ascii_N_embedding a), H. reflexivity. Qed.

Lemma code_inj (u : Utf16.cu) (h l : N) :
  (h < 256)%N -> (l < 256)%N -> Utf16.code u = (256 * h + l)%N ->
  u = Utf16.CU (ascii_of_N h) (ascii_of_N l).
Proof.
  destruct u as [a b]. unfold Utf16.code. simpl. intros Hh Hl H.
  pose proof (N_ascii_bounded a). pose proof (N_ascii_bounded b).
  assert (N_of_ascii a = h /\ N_of_ascii b = l) as [<- <-] by lia.
  by rewrite !ascii_N_embedding.
Qed.

Lemma eqb_eq (u v : Utf16.cu) : Utf16.eqb u v = true <-> u = v.
Proof.
  destruct u as [a b], v as [a' b']. unfold Utf16.eqb. simpl.
  rewrite andb_true_iff, !Ascii.eqb_eq. split; [by intros [-> ->] | by intros [= -> ->]].
Qed.

Lemma in_a_z_0_9_ascii (c : ascii) : Js.in_a_z_0_9 c = true -> (N_of_ascii c <? 128)%N = true.
Proof. destruct c as [[] [] [] [] [] [] [] []]; vm_compute; congruence. Qed.

(** The code units that [other] is asked about end as a dash. *)
Lemma replace_outside_ascii (u : Utf16.cu) :
  Utf16.outside_ascii u = true ->
  Utf16.replace_non_alnum [u] = [Utf16.of_ascii "-"].
Proof.
  unfold Utf16.outside_ascii, Utf16.replace_non_alnum, Utf16.in_a_z_0_9. simpl.
  destruct (Ascii.eqb (Utf16.hi u) zero); [|reflexivity]. simpl.
  destruct (Js.in_a_z_0_9 (Utf16.lo u)) eqn:E; [|reflexivity].
  by rewrite (in_a_z_0_9_ascii _ E).
Qed.

Lemma outside_ascii_keep (u : Utf16.cu) :
  Ascii.eqb (Utf16.hi u) zero = false -> Utf16.outside_ascii u = true.
Proof. unfold Utf16.outside_ascii. by intros ->. Qed.

Lemma replace_app (s s' : Utf16.t) :
  Utf16.replace_non_alnum (s ++ s')
  = Utf16.replace_non_alnum s ++ Utf16.replace_non_alnum s'.
Proof. apply map_app. Qed.

(** One code unit, under any table. *)
Lemma slug_of_unit (other : Utf16.t -> Utf16.cu -> Utf16.t -> Utf16.cu)
    (before : Utf16.t) (u : Utf16.cu) (after : Utf16.t) :
  Utf16.unicode_table other ->
  Utf16.replace_non_alnum (Utf16.lower_unit other before u after) = Utf16.unit_slug u.
Proof.
  intros Ht. unfold Utf16.unit_slug, Utf16.slugify, Utf16.slugify_with, Utf16.toLowerCase.
  simpl. rewrite app_nil_r. unfold Utf16.lower_unit.
  destruct (Ascii.eqb (Utf16.hi u) zero) eqn:Hh; [reflexivity|].
  destruct (Utf16.eqb u Utf16.capital_I_with_dot); [reflexivity|].
  destruct (Utf16.eqb u Utf16.kelvin_sign); [reflexivity|].
  unfold Utf16.keep.
  by rewrite (replace_outside_ascii _ (Ht before u after)),
    (replace_outside_ascii _ (outside_ascii_keep u Hh)).
Qed.

Lemma slugify_with_flat_map (other : Utf16.t -> Utf16.cu -> Utf16.t -> Utf16.cu)
    (x : Utf16.t) :
  Utf16.unicode_table other ->
  Utf16.slugify_with other x = flat_map Utf16.unit_slug x.
Proof.
  intros Ht. unfold Utf16.slugify_with, Utf16.toLowerCase. generalize (@nil Utf16.cu).
  induction x as [|u x IH]; intros before; simpl; [reflexivity|].
  by rewrite replace_app, (slug_of_unit other before u x Ht), IH.
Qed.

(** The table [keep] is asked only about code units outside ASCII. *)
Lemma slugify_flat_map (x : Utf16.t) : Utf16.slugify x = flat_map Utf16.unit_slug x.
Proof.
  unfold Utf16.slugify, Utf16.slugify_with, Utf16.toLowerCase. generalize (@nil Utf16.cu).
  induction x as [|u x IH]; intros before; simpl; [reflexivity|].
  rewrite replace_app, IH. f_equal.
  unfold Utf16.unit_slug, Utf16.slugify, Utf16.slugify_with, Utf16.toLowerCase.
  simpl. by rewrite app_nil_r.
Qed.

Lemma unit_slug_latin1 (c : ascii) :
  Utf16.unit_slug (Utf16.of_ascii c) = [Utf16.of_ascii (slug_of_char c)].
Proof. destruct c as [[] [] [] [] [] [] [] []]; vm_compute; reflexivity. Qed.

(** A code unit from U+0100 on: the two special ones apart, a dash. *)
Lemma unit_slug_high (u : Utf16.cu) :
  Ascii.eqb (Utf16.hi u) zero = false ->
  Utf16.unit_slug u =
  if Utf16.eqb u Utf16.capital_I_with_dot then [Utf16.of_ascii "i"; Utf16.of_ascii "-"]
  else if Utf16.eqb u Utf16.kelvin_sign then [Utf16.of_ascii "k"]
  else [Utf16.of_ascii "-"].
Proof.
  intros Hh. unfold Utf16.unit_slug, Utf16.slugify, Utf16.slugify_with, Utf16.toLowerCase.
  simpl. rewrite app_nil_r. unfold Utf16.lower_unit. rewrite Hh.
  destruct (Utf16.eqb u Utf16.capital_I_with_dot); [reflexivity|].
  destruct (Utf16.eqb u Utf16.kelvin_sign); [reflexivity|].
  apply replace_outside_ascii, outside_ascii_keep, Hh.
Qed.

Lemma unit_slug_codes (u : Utf16.cu) :
  Utf16.codes (Utf16.unit_slug u) = slug_of_code (Utf16.code u).
Proof.
  destruct (Ascii.eqb (Utf16.hi u) zero) eqn:Hh.
  - apply Ascii.eqb_eq in Hh. destruct u as [h l]. simpl in Hh. subst h.
    destruct l as [[] [] [] [] [] [] [] []]; vm_compute; reflexivity.
  - rewrite (unit_slug_high u Hh).
    assert (Hbig : (256 <= Utf16.code u)%N).
    { unfold Utf16.code. apply Ascii.eqb_neq in Hh.
      assert (N_of_ascii (Utf16.hi u) <> 0%N) by (intros E; by apply Hh, N_of_ascii_zero).
      lia. }
    unfold slug_of_code.
    rewrite (proj2 (N.leb_gt (Utf16.code u) 90)) by lia. rewrite andb_false_r.
    rewrite (proj2 (N.leb_gt (Utf16.code u) 122)) by lia.
    rewrite (proj2 (N.leb_gt (Utf16.code u) 57)) by lia. rewrite !andb_false_r. simpl orb.
    cbv iota.
    destruct (Utf16.eqb u Utf16.capital_I_with_dot) eqn:E1.
    { apply eqb_eq in E1. subst u. vm_compute. reflexivity. }
    destruct (Utf16.eqb u Utf16.kelvin_sign) eqn:E2.
    { apply eqb_eq in E2. subst u. vm_compute. reflexivity. }
    destruct (N.eqb_spec (Utf16.code u) 8490) as [E|_].
    { apply (code_inj u 33 42) in E; [|lia|lia]. rewrite E in E2. discriminate. }
    destruct (N.eqb_spec (Utf16.code u) 304) as [E|_]; [|reflexivity].
    apply (code_inj u 1 48) in E; [|lia|lia]. rewrite E in E1. discriminate.
Qed.

Lemma unit_slug_in_class (u : Utf16.cu) :
  forallb slug_code (Utf16.codes (Utf16.unit_slug u)) = true.
Proof.
  destruct (Ascii.eqb (Utf16.hi u) zero) eqn:Hh.
  - apply Ascii.eqb_eq in Hh. destruct u as [h l]. simpl in Hh. subst h.
    destruct l as [[] [] [] [] [] [] [] []]; vm_compute; reflexivity.
  - rewrite (unit_slug_high u Hh).
    by destruct (Utf16.eqb u Utf16.capital_I_with_dot), (Utf16.eqb u Utf16.kelvin_sign).
Qed.

Lemma unit_slug_fixed (u : Utf16.cu) :
  flat_map Utf16.unit_slug (Utf16.unit_slug u) = Utf16.unit_slug u.
Proof.
  destruct (Ascii.eqb (Utf16.hi u) zero) eqn:Hh.
  - apply Ascii.eqb_eq in Hh. destruct u as [h l]. simpl in Hh. subst h.
    destruct l as [[] [] [] [] [] [] [] []]; vm_compute; reflexivity.
  - rewrite (unit_slug_high u Hh).
    by destruct (Utf16.eqb u Utf16.capital_I_with_dot), (Utf16.eqb u Utf16.kelvin_sign).
Qed.

(** C9. The slug normalizer is a function of its argument, defined on
    every string of 16-bit code units.  It lower-cases and replaces by
    a dash every code unit outside [a-z0-9]: code unit by code unit, a
    capital letter A-Z gives the small letter, a small letter or a digit
    gives itself, U+212A gives [k], U+0130 gives [i] and a dash, and
    every other code unit gives a dash.  Its output has only the code
    units of [a-z0-9-], and it is idempotent.  It is the same function
    whatever Unicode's table of the other lower cases is, and its
    restriction to the strings of code units below U+0100 is [slugify]. *)
Theorem slugify_normalizer (x : Utf16.t) :
  Utf16.codes (Utf16.slugify x) = flat_map slug_of_code (Utf16.codes x)
  /\ forallb slug_code (Utf16.codes (Utf16.slugify x)) = true
  /\ Utf16.slugify (Utf16.slugify x) = Utf16.slugify x
  /\ (forall other, Utf16.unicode_table other ->
        Utf16.replace_non_alnum (Utf16.toLowerCase other x) = Utf16.slugify x)
  /\ (forall s : string,
        Utf16.of_latin1 s = x -> Utf16.slugify x = Utf16.of_latin1 (slugify s)).
Proof.
  split; [|split; [|split; [|split]]].
  - rewrite slugify_flat_map. unfold Utf16.codes.
    induction x as [|u x IH]; simpl; [reflexivity|].
    rewrite map_app, IH. f_equal. apply unit_slug_codes.
  - rewrite slugify_flat_map. unfold Utf16.codes.
    induction x as [|u x IH]; simpl; [reflexivity|].
    rewrite map_app, forallb_app, IH, andb_true_r. apply unit_slug_in_class.
  - rewrite !slugify_flat_map.
    induction x as [|u x IH]; simpl; [reflexivity|].
    by rewrite flat_map_app, IH, unit_slug_fixed.
  - intros other Ht. rewrite slugify_flat_map. by apply slugify_with_flat_map.
  - intros s <-. rewrite slugify_flat_map, slugify_pointwise. unfold Utf16.of_latin1.
    induction s as [|c s IH]; [reflexivity|].
    cbn [list_ascii_of_string map flat_map Js.map_chars].
    rewrite unit_slug_latin1, IH. reflexivity.
Qed.

(** C9 at work: "N" gives "n"; the Kelvin sign gives "k" and the capital
    I with a dot gives "i-", so that a name of two code units has a slug
    of three. *)
Lemma slugify_normalizer_example :
  Utf16.codes (Utf16.slugify (Utf16.of_latin1 "News")) = [110; 101; 119; 115]%N
  /\ Utf16.codes [Utf16.kelvin_sign; Utf16.capital_I_with_dot] = [8490; 304]%N
  /\ Utf16.codes (Utf16.slugify [Utf16.kelvin_sign; Utf16.capital_I_with_dot])
     = [107; 105; 45]%N.
Proof.
  destruct (slugify_normalizer (Utf16.of_latin1 "News")) as [H1 _].
  destruct (slugify_normalizer [Utf16.kelvin_sign; Utf16.capital_I_with_dot]) as [H2 _].
  rewrite H1, H2. by repeat split.
Defined.

End Slug.

(** ** Reasoning about handlers *)

Section Respects.

Context (R : World -> World -> Prop) `{!PreOrder R}.

Lemma respects_ret {A} (a : A) : respects R (ret a).
Proof. intros c w. simpl. reflexivity. Qed.

Lemma respects_throw {A} (e : Exn) : respects R (@throw A e).
Proof. intros c w. simpl. reflexivity. Qed.

Lemma respects_ask : respects R ask.
Proof. intros c w. simpl. reflexivity. Qed.

Lemma respects_get_db : respects R get_db.
Proof. intros c w. simpl. reflexivity. Qed.

Lemma respects_bind {A B} (m : M A) (k : A -> M B) :
  respects R m -> (forall a, respects R (k a)) -> respects R (bind m k).
Proof.
  intros Hm Hk c w. unfold bind.
  specialize (Hm c w). destruct (m c w) as [[a|e] w1]; simpl in *.
  - etrans; [exact Hm | apply Hk].
  - exact Hm.
Qed.

Lemma respects_for_each {A B} (f : A -> M B) (l : list A) :
  (forall x, respects R (f x)) -> respects R (for_each f l).
Proof.
  intros Hf. induction l as [|x l IH]; simpl.
  - apply respects_ret.
  - apply respects_bind; [apply Hf | intros y].
    apply respects_bind; [apply IH | intros ys]. apply respects_ret.
Qed.

Lemma respects_try_catch (body : M Response) (h : Exn -> Response) :
  respects R body -> respects R (try_catch body h).
Proof.
  intros Hb c w. unfold try_catch. specialize (Hb c w).
  destruct (body c w) as [[r|e] w1]; exact Hb.
Qed.

End Respects.

(** A relation on worlds that only looks at the store is respected by
    whatever only writes the trace. *)
Lemma respects_emit (R : World -> World -> Prop) (e : Event) :
  (forall d tr tr', R (mkWorld d tr) (mkWorld d tr')) -> respects R (emit e).
Proof. intros H c [d tr]. simpl. apply H. Qed.

Global Instance same_db_preorder : PreOrder same_db.
Proof. split; [intros w; reflexivity | intros a b c H1 H2; unfold same_db in *; congruence]. Qed.

Global Instance same_posts_preorder : PreOrder same_posts.
Proof. split; [intros w; reflexivity | intros a b c H1 H2; unfold same_posts in *; congruence]. Qed.

Global Instance tags_grow_preorder : PreOrder tags_grow.
Proof.
  split.
  - intros w. exists []. by rewrite app_nil_r.
  - intros a b c [l1 H1] [l2 H2]. exists (l1 ++ l2). by rewrite H2, H1, app_assoc.
Qed.

Global Instance keeps_unique_slugs_preorder : PreOrder keeps_unique_slugs.
Proof. split; [intros w H; exact H | intros a b c H1 H2 H; auto]. Qed.

Section Framed.

Lemma framed_ret {A} (a : A) : framed (ret a).
Proof. intros c d tr. simpl. by rewrite app_nil_r. Qed.

Lemma framed_throw {A} (e : Exn) : framed (@throw A e).
Proof. intros c d tr. simpl. by rewrite app_nil_r. Qed.

Lemma framed_ask : framed ask.
Proof. intros c d tr. simpl. by rewrite app_nil_r. Qed.

Lemma framed_get_db : framed get_db.
Proof. intros c d tr. simpl. by rewrite app_nil_r. Qed.

Lemma framed_put_db (d' : Db) : framed (put_db d').
Proof. intros c d tr. simpl. by rewrite app_nil_r. Qed.

Lemma framed_emit (e : Event) : framed (emit e).
Proof. intros c d tr. reflexivity. Qed.

Lemma framed_bind {A B} (m : M A) (k : A -> M B) :
  framed m -> (forall a, framed (k a)) -> framed (bind m k).
Proof.
  intros Hm Hk c d tr. unfold bind.
  rewrite (Hm c d tr). destruct (m c (mkWorld d [])) as [[a|e] [d1 t1]]; simpl.
  - rewrite (Hk a c d1 (tr ++ t1)), (Hk a c d1 t1).
    destruct (k a c (mkWorld d1 [])) as [r [d2 t2]]; simpl.
    by rewrite app_assoc.
  - reflexivity.
Qed.

Lemma framed_for_each {A B} (f : A -> M B) (l : list A) :
  (forall x, framed (f x)) -> framed (for_each f l).
Proof.
  intros Hf. induction l as [|x l IH]; simpl.
  - apply framed_ret.
  - apply framed_bind; [apply Hf | intros y].
    apply framed_bind; [apply IH | intros ys]. apply framed_ret.
Qed.

Lemma framed_try_catch (body : M Response) (h : Exn -> Response) :
  framed body -> framed (try_catch body h).
Proof.
  intros Hb c d tr. unfold try_catch. rewrite (Hb c d tr).
  destruct (body c (mkWorld d [])) as [[r|e] [d1 t1]]; reflexivity.
Qed.

End Framed.

Global Instance same_tags_preorder : PreOrder same_tags.
Proof. split; [intros w; reflexivity | intros a b c H1 H2; unfold same_tags in *; congruence]. Qed.

Create HintDb respects.

Ltac respects_tac :=
  repeat first
    [ apply respects_ret; try apply _
    | apply respects_throw; try apply _
    | apply respects_ask; try apply _
    | apply respects_get_db; try apply _
    | apply respects_try_catch; try apply _
    | apply respects_bind; [try apply _ ..|intros ?]
    | apply respects_for_each; [try apply _ ..|intros ?]
    | solve [eauto with respects]
    | match goal with
      | |- respects _ (match ?x with _ => _ end) => destruct x
      | |- respects _ (let _ := _ in _) => cbv zeta
      end ].

Section StoreOps.

(** *** Computations that leave the store alone *)

Lemma emit_same_db (e : Event) : respects same_db (emit e).
Proof. apply respects_emit. reflexivity. Qed.

#[local] Hint Resolve emit_same_db : respects.

Lemma Tag_findOne_same_db (slug : string) : respects same_db (Tag_findOne slug).
Proof. unfold Tag_findOne. respects_tac. Qed.

Lemma Tag_find_slug_in_same_db (slugs : list string) :
  respects same_db (Tag_find_slug_in slugs).
Proof. unfold Tag_find_slug_in. respects_tac. Qed.

Lemma castObjectId_same_db (id : RouteId) : respects same_db (castObjectId id).
Proof. unfold castObjectId. respects_tac. Qed.

Lemma Post_findById_same_db (id : RouteId) : respects same_db (Post_findById id).
Proof. unfold Post_findById, castObjectId. respects_tac. Qed.

Lemma populate_same_db (p : Post) : respects same_db (populate p).
Proof. unfold populate. respects_tac. Qed.

Lemma uploadToCloud_same_db (f : UploadedFile) : respects same_db (uploadToCloud f).
Proof. unfold uploadToCloud. respects_tac. Qed.

Lemma deleteFromCloud_same_db (url : string) : respects same_db (deleteFromCloud url).
Proof. unfold deleteFromCloud. respects_tac. Qed.

Lemma respects_weaken (R R' : World -> World -> Prop) {A} (m : M A) :
  (forall w w', R w w' -> R' w w') -> respects R m -> respects R' m.
Proof. intros H Hm c w. apply H, Hm. Qed.

Lemma same_db_same_posts w w' : same_db w w' -> same_posts w w'.
Proof. unfold same_db, same_posts. by intros ->. Qed.

Lemma same_db_same_tags w w' : same_db w w' -> same_tags w w'.
Proof. unfold same_db, same_tags. by intros ->. Qed.

Lemma same_tags_tags_grow w w' : same_tags w w' -> tags_grow w w'.
Proof. unfold same_tags, tags_grow. intros ->. exists []. by rewrite app_nil_r. Qed.

Lemma same_tags_keeps_unique_slugs w w' : same_tags w w' -> keeps_unique_slugs w w'.
Proof. unfold same_tags, keeps_unique_slugs, unique_slugs. by intros ->. Qed.

(** *** Writes to the post collection leave the tags alone *)

Lemma Post_create_same_tags t ds u tags : respects same_tags (Post_create t ds u tags).
Proof.
  intros c [d tr]. unfold Post_create.
  destruct (Post_validate _ _ _); reflexivity.
Qed.

Lemma Post_findByIdAndUpdate_same_tags id t ds u tags :
  respects same_tags (Post_findByIdAndUpdate id t ds u tags).
Proof.
  intros c [d tr]. destruct id as [id|raw]; [|reflexivity].
  unfold Post_findByIdAndUpdate, castObjectId. unfold bind at 1. simpl.
  destruct (Post_validate _ _ _); [reflexivity|].
  unfold bind, get_db; simpl. destruct (db_posts d !! id); reflexivity.
Qed.

Lemma Post_findByIdAndDelete_same_tags id : respects same_tags (Post_findByIdAndDelete id).
Proof.
  intros c [d tr]. destruct id as [id|raw]; [|reflexivity].
  unfold Post_findByIdAndDelete, castObjectId.
  unfold bind, get_db; simpl. destruct (db_posts d !! id); reflexivity.
Qed.

(** *** Tag creation *)

Lemma Tag_create_same_posts name slug : respects same_posts (Tag_create name slug).
Proof.
  intros c [d tr]. unfold Tag_create.
  destruct (Tag_validate _ _); [reflexivity|].
  unfold bind, get_db; simpl.
  destruct (existsb _ _); [reflexivity|]. destruct (existsb _ _); reflexivity.
Qed.

Lemma Tag_create_tags_grow name slug : respects tags_grow (Tag_create name slug).
Proof.
  intros c [d tr]. unfold Tag_create.
  destruct (Tag_validate _ _); [reflexivity|].
  unfold bind, get_db; simpl.
  destruct (existsb _ _); [reflexivity|]. destruct (existsb _ _); [reflexivity|].
  simpl. by eexists.
Qed.

Lemma existsb_slug_is_false (slug : string) (l : list Tag) :
  existsb (slug_is slug) l = false -> slug ∉ tag_slug <$> l.
Proof.
  induction l as [|t l IH]; simpl; intros H; [apply not_elem_of_nil|].
  apply orb_false_iff in H as [Ht Hl]. rewrite not_elem_of_cons. split; [|auto].
  unfold slug_is in Ht. apply bool_decide_eq_false in Ht. congruence.
Qed.

Lemma Tag_create_keeps_unique_slugs name slug :
  respects keeps_unique_slugs (Tag_create name slug).
Proof.
  intros c [d tr]. unfold Tag_create.
  destruct (Tag_validate _ _); [reflexivity|].
  unfold bind, get_db; simpl.
  destruct (existsb _ _); [reflexivity|].
  destruct (existsb (slug_is _) _) eqn:Hs; [reflexivity|].
  simpl. unfold keeps_unique_slugs, unique_slugs; simpl. intros Hu.
  rewrite fmap_app. apply NoDup_app. split; [exact Hu|]. split.
  - intros x Hx Hx'. apply list_elem_of_singleton in Hx'. subst x.
    by apply existsb_slug_is_false in Hs.
  - apply NoDup_singleton.
Qed.

End StoreOps.

Lemma same_db_tags_grow w w' : same_db w w' -> tags_grow w w'.
Proof. intros H. by apply same_tags_tags_grow, same_db_same_tags. Qed.

Lemma same_db_keeps_unique_slugs w w' : same_db w w' -> keeps_unique_slugs w w'.
Proof. intros H. by apply same_tags_keeps_unique_slugs, same_db_same_tags. Qed.

#[global] Hint Resolve emit_same_db Tag_findOne_same_db Tag_find_slug_in_same_db
  Post_findById_same_db populate_same_db uploadToCloud_same_db
  deleteFromCloud_same_db Post_create_same_tags Post_findByIdAndUpdate_same_tags
  Post_findByIdAndDelete_same_tags Tag_create_same_posts Tag_create_tags_grow
  Tag_create_keeps_unique_slugs same_db_same_posts same_db_same_tags
  same_tags_tags_grow same_tags_keeps_unique_slugs same_db_tags_grow
  same_db_keeps_unique_slugs : respects.

(** Closes [respects R m] for a handler [m]: first by the lemmas of the
    store operations, weakened where [R] is coarser, then by structure. *)
Ltac respects_auto :=
  repeat first
    [ solve [eauto with respects]
    | solve [eapply (respects_weaken same_db); [intros ? ?; eauto with respects
                                                | eauto with respects]]
    | solve [eapply (respects_weaken same_tags); [intros ? ?; eauto with respects
                                                  | eauto with respects]]
    | apply respects_ret; try apply _
    | apply respects_throw; try apply _
    | apply respects_ask; try apply _
    | apply respects_get_db; try apply _
    | apply respects_try_catch; try apply _
    | apply respects_bind; [try apply _ ..|intros ?]
    | apply respects_for_each; [try apply _ ..|intros ?]
    | match goal with
      | |- respects _ (match ?x with _ => _ end) => destruct x
      | |- respects _ (let _ := _ in _) => cbv zeta
      end ].

Section Handlers.

Lemma resolveTag_same_posts name : respects same_posts (resolveTag name).
Proof. unfold resolveTag. respects_auto. Qed.

Lemma resolveTag_tags_grow name : respects tags_grow (resolveTag name).
Proof. unfold resolveTag. respects_auto. Qed.

Lemma resolveTag_keeps_unique_slugs name : respects keeps_unique_slugs (resolveTag name).
Proof. unfold resolveTag. respects_auto. Qed.

Lemma process_tags_same_posts tags : respects same_posts (process_tags tags).
Proof.
  unfold process_tags, resolveTags. respects_auto; apply resolveTag_same_posts.
Qed.

Lemma process_tags_tags_grow tags : respects tags_grow (process_tags tags).
Proof.
  unfold process_tags, resolveTags. respects_auto; apply resolveTag_tags_grow.
Qed.

Lemma process_tags_keeps_unique_slugs tags :
  respects keeps_unique_slugs (process_tags tags).
Proof.
  unfold process_tags, resolveTags. respects_auto; apply resolveTag_keeps_unique_slugs.
Qed.

Lemma update_image_same_db post image : respects same_db (update_image post image).
Proof. unfold update_image. respects_auto. Qed.

End Handlers.

#[global] Hint Resolve process_tags_same_posts process_tags_tags_grow
  process_tags_keeps_unique_slugs update_image_same_db : respects.

Lemma route_tags_grow (r : Request) : respects tags_grow (route r).
Proof.
  destruct r; simpl;
    unfold getPosts, createPost, getPost, updatePost, deletePost, searchPosts,
      getTags, createTag;
    respects_auto.
Qed.

Lemma route_keeps_unique_slugs (r : Request) : respects keeps_unique_slugs (route r).
Proof.
  destruct r; simpl;
    unfold getPosts, createPost, getPost, updatePost, deletePost, searchPosts,
      getTags, createTag;
    respects_auto.
Qed.

(** ** Tag resolver *)

Section TagResolver.

Lemma exec_db_of (h : M Response) (c : Cloud) (d : Db) :
  db_of (exec h c d) = w_db (h c (mkWorld d [])).2.
Proof. unfold db_of, exec. by destruct (h c (mkWorld d [])) as [[r|e] w]. Qed.

Lemma serve_tags_grow (reqs : list (Request * Cloud)) (d : Db) :
  exists l, db_tags (serve reqs d) = db_tags d ++ l.
Proof.
  revert d. induction reqs as [|[r c] reqs IH]; intros d; simpl.
  - exists []. by rewrite app_nil_r.
  - destruct (IH (db_of (exec (route r) c d))) as [l2 H2].
    destruct (route_tags_grow r c (mkWorld d [])) as [l1 H1]. simpl in H1.
    rewrite exec_db_of in *. exists (l1 ++ l2). by rewrite H2, H1, app_assoc.
Qed.

Lemma serve_unique_slugs (reqs : list (Request * Cloud)) (d : Db) :
  unique_slugs d -> unique_slugs (serve reqs d).
Proof.
  revert d. induction reqs as [|[r c] reqs IH]; intros d Hu; simpl; [exact Hu|].
  apply IH. rewrite exec_db_of.
  by apply (route_keeps_unique_slugs r c (mkWorld d [])).
Qed.

Lemma resolveTag_eval (name : string) (c : Cloud) (w : World) :
  resolveTag name c w =
  match List.find (slug_is (slugify name)) (db_tags (w_db w)) with
  | Some t => (Ret (tag_id t), w)
  | None =>
      match Tag_create name (slugify name) c w with
      | (Ret t, w') => (Ret (tag_id t), w')
      | (Throw e, w') => (Throw e, w')
      end
  end.
Proof.
  unfold resolveTag, Tag_findOne, bind, get_db, ret. rewrite toLowerCase_slugify.
  destruct (List.find _ _); [reflexivity|].
  by destruct (Tag_create _ _ c w) as [[t|e] w'].
Qed.

Lemma Tag_create_eval (name slug : string) (c : Cloud) (w : World) t w' :
  Tag_create name slug c w = (Ret t, w') ->
  tag_slug t = Js.toLowerCase slug
  /\ w_db w' = mkDb (db_tags (w_db w) ++ [t]) (db_posts (w_db w)).
Proof.
  unfold Tag_create. destruct (Tag_validate _ _); [discriminate|].
  unfold bind, get_db; simpl.
  destruct (existsb _ _); [discriminate|]. destruct (existsb _ _); [discriminate|].
  simpl. intros [= <- <-]. by split.
Qed.

Lemma find_app_Some {A} (f : A -> bool) (l l' : list A) (x : A) :
  List.find f l = Some x -> List.find f (l ++ l') = Some x.
Proof.
  induction l as [|y l IH]; simpl; [discriminate|].
  destruct (f y); [done | exact IH].
Qed.

Lemma find_snoc_None {A} (f : A -> bool) (l : list A) (x : A) :
  List.find f l = None -> f x = true -> List.find f (l ++ [x]) = Some x.
Proof.
  induction l as [|y l IH]; simpl; intros Hn Hx; [by rewrite Hx|].
  destruct (f y); [discriminate | auto].
Qed.

(** After a successful resolution the store holds, as the first tag of
    that slug, the tag whose id was returned; the store is the one
    before, or the one before with that tag appended. *)
Lemma resolveTag_run (name : string) (c : Cloud) (d d1 : Db) (i : ObjectId) :
  run (resolveTag name) c d = (Ret i, d1) ->
  exists t, List.find (slug_is (slugify name)) (db_tags d1) = Some t
            /\ tag_id t = i
            /\ (d1 = d \/ d1 = mkDb (db_tags d ++ [t]) (db_posts d)).
Proof.
  unfold run. rewrite resolveTag_eval. simpl.
  destruct (List.find _ (db_tags d)) as [t|] eqn:Hf.
  - intros [= <- <-]. exists t. auto.
  - destruct (Tag_create _ _ c _) as [[t|e] w'] eqn:Hc; [|discriminate].
    intros [= <- <-]. apply Tag_create_eval in Hc as [Hs Hd]. simpl in Hd.
    exists t. rewrite Hd. simpl. split; [|auto].
    apply find_snoc_None; [exact Hf|].
    unfold slug_is. apply bool_decide_eq_true. by rewrite Hs, toLowerCase_slugify.
Qed.

Lemma resolveTag_found (name : string) (c : Cloud) (d : Db) (t : Tag) :
  List.find (slug_is (slugify name)) (db_tags d) = Some t ->
  run (resolveTag name) c d = (Ret (tag_id t), d).
Proof. intros Hf. unfold run. rewrite resolveTag_eval. simpl. by rewrite Hf. Qed.

Lemma Tag_create_fails_cleanly (name slug : string) (c : Cloud) (w : World) e w' :
  Tag_create name slug c w = (Throw e, w') -> w' = w.
Proof.
  unfold Tag_create. destruct (Tag_validate _ _); [by intros [= _ <-]|].
  unfold bind, get_db; simpl.
  destruct (existsb _ _); [by intros [= _ <-]|].
  destruct (existsb _ _); [by intros [= _ <-]|]. discriminate.
Qed.

Lemma resolveTag_fails_cleanly (name : string) (c : Cloud) (d : Db) (e : Exn) (d1 : Db) :
  run (resolveTag name) c d = (Throw e, d1) -> d1 = d.
Proof.
  unfold run. rewrite resolveTag_eval. simpl.
  destruct (List.find _ (db_tags d)) as [t|]; [discriminate|].
  destruct (Tag_create _ _ c _) as [[t|e'] w'] eqn:Hc; [discriminate|].
  apply Tag_create_fails_cleanly in Hc as ->. by intros [= _ <-].
Qed.

(** C8. If resolving a tag name succeeds with identifier [i], starting
    from any store, then it created at most one tag, and resolving the
    same name again returns [i] and creates nothing: right away, in any
    later store that only gained tags, and in particular after any
    sequence of requests.  A resolution that fails creates nothing.
    Serving requests keeps the slugs of the tag collection pairwise
    distinct, and they are so in the empty store. *)
Theorem tag_resolution_is_idempotent :
  (forall name c d i d1,
      run (resolveTag name) c d = (Ret i, d1) ->
      (length (db_tags d1) <= S (length (db_tags d)))%nat
      /\ (forall c', run (resolveTag name) c' d1 = (Ret i, d1))
      /\ (forall c' d2, (exists l, db_tags d2 = db_tags d1 ++ l) ->
                        run (resolveTag name) c' d2 = (Ret i, d2))
      /\ (forall c' reqs,
             run (resolveTag name) c' (serve reqs d1) = (Ret i, serve reqs d1)))
  /\ (forall name c d e d1, run (resolveTag name) c d = (Throw e, d1) -> d1 = d)
  /\ (forall reqs d, unique_slugs d -> unique_slugs (serve reqs d))
  /\ unique_slugs empty_db.
Proof.
  split; [|split; [apply resolveTag_fails_cleanly|
                   split; [intros reqs d; apply serve_unique_slugs | apply NoDup_nil_2]]].
  intros name c d i d1 H.
  destruct (resolveTag_run _ _ _ _ _ H) as (t & Hf & <- & Hd).
  assert (Hlater : forall c' d2, (exists l, db_tags d2 = db_tags d1 ++ l) ->
                                 run (resolveTag name) c' d2 = (Ret (tag_id t), d2)).
  { intros c' d2 [l Hl]. apply resolveTag_found. rewrite Hl. by apply find_app_Some. }
  split; [|split; [|split]].
  - destruct Hd as [-> | ->]; simpl; [lia|]. rewrite length_app. simpl. lia.
  - intros c'. apply Hlater. exists []. by rewrite app_nil_r.
  - exact Hlater.
  - intros c' reqs. apply Hlater, serve_tags_grow.
Qed.

End TagResolver.

(** ** What tag resolution writes to the trace *)

Global Instance only_tag_inserts_preorder : PreOrder only_tag_inserts.
Proof.
  split.
  - intros w. exists []. by rewrite app_nil_r.
  - intros a b c (l1 & H1 & F1) (l2 & H2 & F2). exists (l1 ++ l2).
    split; [by rewrite H2, H1, app_assoc | by apply Forall_app].
Qed.

Lemma Tag_findOne_only_tag_inserts slug : respects only_tag_inserts (Tag_findOne slug).
Proof. unfold Tag_findOne. respects_auto. Qed.

Lemma Tag_create_only_tag_inserts name slug :
  respects only_tag_inserts (Tag_create name slug).
Proof.
  intros c [d tr]. unfold Tag_create.
  destruct (Tag_validate _ _); [reflexivity|].
  unfold bind, get_db; simpl.
  destruct (existsb _ _); [reflexivity|]. destruct (existsb _ _); [reflexivity|].
  simpl. eexists. split; [reflexivity|]. by repeat constructor.
Qed.

Lemma process_tags_only_tag_inserts tags : respects only_tag_inserts (process_tags tags).
Proof.
  unfold process_tags, resolveTags, resolveTag.
  respects_auto;
    first [apply Tag_findOne_only_tag_inserts | apply Tag_create_only_tag_inserts].
Qed.

(** ** The trace is write-only *)

Ltac framed_auto :=
  repeat first
    [ apply framed_ret
    | apply framed_throw
    | apply framed_ask
    | apply framed_get_db
    | apply framed_put_db
    | apply framed_emit
    | apply framed_try_catch
    | apply framed_bind; [|intros ?]
    | apply framed_for_each; intros ?
    | match goal with
      | |- framed (match ?x with _ => _ end) => destruct x
      | |- framed (let _ := _ in _) => cbv zeta
      end ].

Lemma framed_resolveTags (names : list string) : framed (resolveTags names).
Proof.
  unfold resolveTags. apply framed_for_each. intros name.
  unfold resolveTag, Tag_findOne, Tag_create. framed_auto.
Qed.

Lemma process_tags_names_of (tags : option RawTags) :
  process_tags tags = resolveTags (names_of tags).
Proof.
  unfold process_tags, names_of.
  destruct (tags_truthy tags); [|reflexivity]. by destruct tags.
Qed.

Lemma framed_run {A} (m : M A) (c : Cloud) (d : Db) (tr : list Event) r w :
  framed m -> m c (mkWorld d tr) = (r, w) -> run m c d = (r, w_db w).
Proof.
  intros Hm. rewrite (Hm c d tr). unfold run.
  destruct (m c (mkWorld d [])) as [r' w']. by intros [= <- <-].
Qed.

(** ** Post update *)

Section UpdatePost.

Lemma update_image_eval (post : Post) (image : option UploadedFile) (c : Cloud) (d : Db) :
  update_image post image c (mkWorld d []) =
  match image with
  | None => (Ret (inr (post_imageUrl post)), mkWorld d [])
  | Some f =>
      if negb (Js.startsWith "image/" (mimetype f)) then
        (Ret (inl (fail_with 400 "Only image files are allowed")), mkWorld d [])
      else if size f >? max_image_size then
        (Ret (inl (fail_with 400 "Image size must be less than 5MB")), mkWorld d [])
      else
        match upload_result c with
        | None => (Throw UploadFailed, mkWorld d [EvUpload f None])
        | Some url =>
            let destroy := EvDestroy (fullPublicId (post_imageUrl post)) (destroy_ok c) in
            if destroy_ok c
            then (Ret (inr url), mkWorld d [EvUpload f (Some url); destroy])
            else (Throw DeleteFailed, mkWorld d [EvUpload f (Some url); destroy])
        end
  end.
Proof.
  unfold update_image. destruct image as [f|]; [|reflexivity].
  destruct (negb (Js.startsWith "image/" (mimetype f))) eqn:Hm; [reflexivity|].
  destruct (size f >? max_image_size); [reflexivity|].
  unfold uploadToCloud, deleteFromCloud, bind, ask, emit, ret, throw. rewrite Hm. simpl.
  destruct (upload_result c); [|reflexivity]. simpl.
  destruct (destroy_ok c); reflexivity.
Qed.

(** What updatePost does to an existing post, step by step. *)
Lemma updatePost_eval (id : ObjectId) (b : PostBody) (c : Cloud) (d : Db) (post : Post) :
  db_posts d !! id = Some post ->
  exec (updatePost (ValidId id) b) c d =
  match update_image post (b_image b) c (mkWorld d []) with
  | (Throw e, w1) => (server_error e, w_db w1, w_trace w1)
  | (Ret (inl early), w1) => (early, w_db w1, w_trace w1)
  | (Ret (inr imageUrl), w1) =>
      match process_tags (b_tags b) c w1 with
      | (Throw e, w2) => (server_error e, w_db w2, w_trace w2)
      | (Ret tagIds, w2) =>
          let title := Js.trim (Js.or_else (b_title b) (post_title post)) in
          let description := Js.or_else (b_description b) (post_description post) in
          let tags := if 0 <? Z.of_nat (length tagIds) then tagIds else post_tags post in
          match Post_validate title description imageUrl with
          | Some e => (server_error e, w_db w2, w_trace w2)
          | None =>
              let p := mkPost (post_id post) title description imageUrl tags in
              let d' := mkDb (db_tags (w_db w2)) (<[id := p]> (db_posts d)) in
              (mkResp 200 true (Some "Post updated successfully")
                 (DataPost (Some (populated d' p))) None,
               d', w_trace w2 ++ [EvPostUpdate p])
          end
      end
  end.
Proof.
  intros Hl. unfold exec, updatePost, try_catch.
  unfold bind at 1. unfold Post_findById at 1. unfold bind at 1. simpl. rewrite Hl.
  unfold bind at 1.
  pose proof (update_image_same_db post (b_image b) c (mkWorld d [])) as H1.
  destruct (update_image post (b_image b) c (mkWorld d [])) as [[[early|url]|e] w1];
    [reflexivity| |reflexivity].
  unfold bind at 1.
  pose proof (process_tags_same_posts (b_tags b) c w1) as H2.
  destruct (process_tags (b_tags b) c w1) as [[ids|e] w2]; [|reflexivity].
  simpl in H1, H2. unfold same_db in H1. unfold same_posts in H2.
  rewrite H1 in H2. simpl in H2.
  unfold bind at 1. unfold Post_findByIdAndUpdate.
  destruct (Post_validate _ _ _); [reflexivity|].
  destruct w2 as [d2 t2]. simpl in H2.
  unfold bind, get_db, put_db, emit, ret, populate. simpl. rewrite H2, Hl. simpl.
  reflexivity.
Qed.

Lemma update_image_early_status post image c d early w1 :
  update_image post image c (mkWorld d []) = (Ret (inl early), w1) ->
  status early = 400%nat /\ w1 = mkWorld d [].
Proof.
  rewrite update_image_eval. destruct image as [f|]; [|discriminate].
  destruct (negb _); [by intros [= <- <-]|].
  destruct (size f >? max_image_size); [by intros [= <- <-]|].
  destruct (upload_result c); [|discriminate]. simpl.
  destruct (destroy_ok c); discriminate.
Qed.

(** An update of an existing post either fails and leaves the post
    collection as it was, or goes through its three steps and stores
    the new record. *)
Lemma updatePost_outcome (id : ObjectId) (b : PostBody) (c : Cloud) (d : Db) (post : Post) :
  db_posts d !! id = Some post ->
  let out := exec (updatePost (ValidId id) b) c d in
  (status (response_of out) <> 200%nat /\ db_posts (db_of out) = db_posts d)
  \/ (exists imageUrl w1 tagIds w2,
        update_image post (b_image b) c (mkWorld d []) = (Ret (inr imageUrl), w1)
        /\ w_db w1 = d
        /\ process_tags (b_tags b) c w1 = (Ret tagIds, w2)
        /\ let p := mkPost (post_id post)
                      (Js.trim (Js.or_else (b_title b) (post_title post)))
                      (Js.or_else (b_description b) (post_description post))
                      imageUrl
                      (if 0 <? Z.of_nat (length tagIds) then tagIds else post_tags post) in
           Post_validate (post_title p) (post_description p) (post_imageUrl p) = None
           /\ status (response_of out) = 200%nat
           /\ db_of out = mkDb (db_tags (w_db w2)) (<[id := p]> (db_posts d))
           /\ trace_of out = w_trace w2 ++ [EvPostUpdate p]).
Proof.
  intros Hl out. subst out. rewrite (updatePost_eval _ _ _ _ _ Hl).
  pose proof (update_image_same_db post (b_image b) c (mkWorld d [])) as H1.
  destruct (update_image post (b_image b) c (mkWorld d [])) as [[[early|url]|e] w1] eqn:Hi;
    unfold same_db in H1; simpl in H1.
  - left. apply update_image_early_status in Hi as [Hs ->]. simpl.
    unfold response_of; simpl. rewrite Hs. split; [lia | reflexivity].
  - pose proof (process_tags_same_posts (b_tags b) c w1) as H2.
    destruct (process_tags (b_tags b) c w1) as [[ids|e] w2] eqn:Hp;
      unfold same_posts in H2; simpl in H2; rewrite H1 in H2.
    + cbv zeta. destruct (Post_validate _ _ url) eqn:Hv.
      * left. split; [unfold response_of; simpl; lia | exact H2].
      * right. exists url, w1, ids, w2. simpl.
        repeat split; first [reflexivity | assumption].
    + left. split; [unfold response_of; simpl; lia | exact H2].
  - left. split; [unfold response_of; simpl; lia | by rewrite <- H1].
Qed.

Lemma for_each_length {A B} (f : A -> M B) (l : list A) c w ys w' :
  for_each f l c w = (Ret ys, w') -> length ys = length l.
Proof.
  revert w ys w'. induction l as [|x l IH]; intros w ys w'; simpl.
  - by intros [= <- _].
  - unfold bind at 1. destruct (f x c w) as [[y|e] w1]; [|discriminate].
    unfold bind at 1. destruct (for_each f l c w1) as [[ys1|e] w2] eqn:Hr; [|discriminate].
    intros [= <- _]. simpl. f_equal. eapply IH, Hr.
Qed.

Lemma length_pos_nonempty {A} (l : list A) :
  (0 <? Z.of_nat (length l)) = match l with [] => false | _ => true end.
Proof. by destruct l. Qed.

(** An update without a new image is applied when the tags resolve and
    the resulting record passes the validators of the schema; the record
    stored has the resolved identifiers for tags when there are names,
    and the tags it had otherwise. *)
Lemma updatePost_applied (id : ObjectId) (b : PostBody) (c : Cloud) (d : Db) (post : Post)
    (ids : list ObjectId) (d2 : Db) :
  db_posts d !! id = Some post ->
  b_image b = None ->
  run (resolveTags (names_of (b_tags b))) c d = (Ret ids, d2) ->
  let title := Js.trim (Js.or_else (b_title b) (post_title post)) in
  let description := Js.or_else (b_description b) (post_description post) in
  Post_validate title description (post_imageUrl post) = None ->
  let out := exec (updatePost (ValidId id) b) c d in
  status (response_of out) = 200%nat
  /\ db_posts (db_of out) !! id
     = Some (mkPost (post_id post) title description (post_imageUrl post)
               match names_of (b_tags b) with
               | [] => post_tags post
               | _ :: _ => ids
               end).
Proof.
  intros Hl Hb Hrun title description Hv out. subst out.
  rewrite (updatePost_eval _ _ _ _ _ Hl), update_image_eval, Hb, process_tags_names_of.
  unfold run in Hrun.
  destruct (resolveTags (names_of (b_tags b)) c (mkWorld d [])) as [r w2] eqn:Hr.
  injection Hrun as -> <-. cbv zeta. fold title description. rewrite Hv.
  assert (Hlen : length ids = length (names_of (b_tags b)))
    by (eapply for_each_length, Hr).
  unfold response_of, db_of. simpl. split; [reflexivity|].
  rewrite lookup_insert_eq, length_pos_nonempty. do 2 f_equal.
  destruct ids, (names_of (b_tags b)); try reflexivity; discriminate.
Qed.

(** C1. For every update of an existing post: when the update is
    applied (status 200), the stored tag list is the one before if the
    tags field is absent, empty or resolves to no name, and is otherwise
    the list of identifiers that the tag resolver returns for the names,
    one per name; when the update is not applied the post collection is
    as before.  So no update turns a non-empty tag list into an empty
    one.  An update without a new image is applied whenever the names
    resolve and the record to store passes the validators of the schema,
    and then the tag list stored is the resolved one, in place of the
    former, when there are names. *)
Theorem updatePost_tag_rule (id : ObjectId) (b : PostBody) (c : Cloud) (d : Db) (post : Post) :
  db_posts d !! id = Some post ->
  let out := exec (updatePost (ValidId id) b) c d in
  let names := names_of (b_tags b) in
  (names_of None = [] /\ names_of (Some (TagsString "")) = [])
  /\ (status (response_of out) = 200%nat ->
      exists p', db_posts (db_of out) !! id = Some p'
        /\ (names = [] -> post_tags p' = post_tags post)
        /\ (names <> [] ->
              post_tags p' <> []
              /\ length (post_tags p') = length names
              /\ exists d2, run (resolveTags names) c d = (Ret (post_tags p'), d2)))
  /\ (status (response_of out) <> 200%nat -> db_posts (db_of out) = db_posts d)
  /\ (post_tags post <> [] ->
      forall p', db_posts (db_of out) !! id = Some p' -> post_tags p' <> [])
  /\ (forall ids d2,
        b_image b = None ->
        run (resolveTags names) c d = (Ret ids, d2) ->
        Post_validate (Js.trim (Js.or_else (b_title b) (post_title post)))
          (Js.or_else (b_description b) (post_description post))
          (post_imageUrl post) = None ->
        status (response_of out) = 200%nat
        /\ exists p', db_posts (db_of out) !! id = Some p'
             /\ post_tags p' = match names with [] => post_tags post | _ :: _ => ids end).
Proof.
  intros Hl out names. split; [by split|].
  assert (Happlied : forall ids d2,
             b_image b = None ->
             run (resolveTags names) c d = (Ret ids, d2) ->
             Post_validate (Js.trim (Js.or_else (b_title b) (post_title post)))
               (Js.or_else (b_description b) (post_description post))
               (post_imageUrl post) = None ->
             status (response_of out) = 200%nat
             /\ exists p', db_posts (db_of out) !! id = Some p'
                  /\ post_tags p'
                     = match names with [] => post_tags post | _ :: _ => ids end).
  { intros ids d2 Hb Hrun Hv.
    destruct (updatePost_applied id b c d post ids d2 Hl Hb Hrun Hv) as [Hs Hp].
    split; [exact Hs|]. eexists. split; [exact Hp | reflexivity]. }
  destruct (updatePost_outcome id b c d post Hl)
    as [[Hs Hd] | (url & [d1 t1] & ids & w2 & Hi & Hd1 & Hp & Hv & Hs & Hd & Ht)];
    fold out in Hs, Hd.
  - split; [intros; contradiction|]. split; [done|]. split; [|exact Happlied].
    intros Hne p' Hp'. rewrite Hd, Hl in Hp'. by injection Hp' as <-.
  - simpl in Hd1. subst d1. rewrite process_tags_names_of in Hp. fold names in Hp.
    assert (Hlen : length ids = length names) by (eapply for_each_length, Hp).
    pose proof (framed_run _ _ _ _ _ _ (framed_resolveTags names) Hp) as Hrun.
    clear Happlied. assert (Happlied := I).
    split; [|split; [intros; contradiction|]]; [|split].
    + intros _. rewrite Hd. simpl. rewrite lookup_insert_eq, length_pos_nonempty.
      eexists. split; [reflexivity|]. simpl. split.
      * intros Hn. rewrite Hn in Hlen. by destruct ids.
      * intros Hn. destruct ids as [|i ids]; [by destruct names|].
        split; [done|]. split; [done|]. by eexists.
    + intros Hne p'. rewrite Hd. simpl. rewrite lookup_insert_eq, length_pos_nonempty.
      intros [= <-]. simpl. by destruct ids.
    + intros ids' d2 Hb Hrun' Hv'.
      destruct (updatePost_applied id b c d post ids' d2 Hl Hb Hrun' Hv') as [Hs' Hp'].
      split; [exact Hs'|]. eexists. split; [exact Hp' | reflexivity].
Qed.

Lemma Post_validate_None (title description imageUrl : string) :
  Post_validate title description imageUrl = None ->
  title <> "" /\ description <> "" /\ imageUrl <> "".
Proof.
  unfold Post_validate.
  destruct title; [discriminate|]. simpl. destruct (_ <? _); [discriminate|].
  destruct description; [discriminate|]. simpl. destruct (_ <? _); [discriminate|].
  destruct imageUrl; [discriminate|]. done.
Qed.

(** C10. In an update of an existing post an empty title is treated
    exactly like an omitted one, and an empty description like an
    omitted one: the whole outcome is the same.  With an empty title
    the stored title stays as it is (given that it is stored in the
    trimmed form in which the schema writes titles, which
    [serve_titles_trimmed] shows of every store served from one that has
    it), with an empty description the stored description stays as it
    is, and no update leaves an empty title or an empty description in
    a record that did not have one. *)
Theorem updatePost_empty_field_is_omitted
    (id : ObjectId) (b : PostBody) (c : Cloud) (d : Db) (post : Post) :
  db_posts d !! id = Some post ->
  let out := exec (updatePost (ValidId id) b) c d in
  exec (updatePost (ValidId id) (mkBody (Some "") (b_description b) (b_tags b) (b_image b))) c d
  = exec (updatePost (ValidId id) (mkBody None (b_description b) (b_tags b) (b_image b))) c d
  /\ exec (updatePost (ValidId id) (mkBody (b_title b) (Some "") (b_tags b) (b_image b))) c d
     = exec (updatePost (ValidId id) (mkBody (b_title b) None (b_tags b) (b_image b))) c d
  /\ (b_title b = Some "" -> Js.trim (post_title post) = post_title post ->
      forall p', db_posts (db_of out) !! id = Some p' -> post_title p' = post_title post)
  /\ (b_description b = Some "" ->
      forall p', db_posts (db_of out) !! id = Some p' ->
                 post_description p' = post_description post)
  /\ (forall p', db_posts (db_of out) !! id = Some p' ->
                 (post_title p' = "" -> post_title post = "")
                 /\ (post_description p' = "" -> post_description post = "")).
Proof.
  intros Hl out. split; [reflexivity|]. split; [reflexivity|].
  destruct (updatePost_outcome id b c d post Hl)
    as [[Hs Hd] | (url & w1 & ids & w2 & Hi & Hd1 & Hp & Hv & Hs & Hd & Ht)];
    fold out in Hs, Hd.
  - rewrite Hd, Hl. repeat split; intros; simplify_eq; done.
  - rewrite Hd. simpl. rewrite lookup_insert_eq. simpl in Hv.
    apply Post_validate_None in Hv as (Ht1 & Ht2 & _).
    split; [|split; [|intros p' [= <-]; simpl; split; intros; contradiction]].
    + intros Hb Htrim p' [= <-]. simpl. rewrite Hb. simpl. exact Htrim.
    + intros Hb p' [= <-]. simpl. rewrite Hb. reflexivity.
Qed.

Lemma tag_inserts_no_blob_call (l : list Event) :
  Forall (fun e => is_tag_insert e = true) l ->
  Forall (fun e => is_blob_call e = false) l.
Proof. intros H. eapply Forall_impl; [exact H|]. by intros []. Qed.

(** C2, as the code has it.  For every update of an existing post that
    supplies a new valid image: the upload is the first call; when it
    fails nothing else happens and the store is untouched; when it
    succeeds, the deletion of the previous image is the next call and
    the only other blob-store call, and it precedes the update of the
    record.  A failure of that deletion makes the whole update fail
    with a server error, the store left as it was (the record is not
    updated); when the deletion succeeds and the update is applied, the
    record holds the URL of the new image. *)
Theorem updatePost_replaces_image_before_record
    (id : ObjectId) (b : PostBody) (c : Cloud) (d : Db) (post : Post) (f : UploadedFile) :
  db_posts d !! id = Some post ->
  b_image b = Some f ->
  valid_image f = true ->
  let out := exec (updatePost (ValidId id) b) c d in
  let upload := EvUpload f (upload_result c) in
  let destroy := EvDestroy (fullPublicId (post_imageUrl post)) (destroy_ok c) in
  (upload_result c = None ->
     trace_of out = [upload] /\ db_of out = d
     /\ response_of out = server_error UploadFailed)
  /\ (forall url, upload_result c = Some url ->
        (exists rest, trace_of out = upload :: destroy :: rest
                      /\ Forall (fun e => is_blob_call e = false) rest)
        /\ (destroy_ok c = false ->
              trace_of out = [upload; destroy] /\ db_of out = d
              /\ response_of out = server_error DeleteFailed)
        /\ (destroy_ok c = true -> status (response_of out) = 200%nat ->
              exists p', db_posts (db_of out) !! id = Some p'
                         /\ post_imageUrl p' = url
                         /\ last (trace_of out) = Some (EvPostUpdate p'))).
Proof.
  intros Hl Hb Hv out upload destroy. subst out.
  rewrite (updatePost_eval _ _ _ _ _ Hl), update_image_eval, Hb.
  unfold valid_image in Hv. apply andb_true_iff in Hv as [Hm Hz].
  rewrite Hm. simpl.
  assert (Hs : (size f >? max_image_size) = false).
  { unfold max_image_size. apply Z.leb_le in Hz. rewrite Z.gtb_ltb. apply Z.ltb_ge. lia. }
  rewrite Hs. clear Hs.
  split.
  - intros Hu. subst upload. rewrite Hu. by repeat split.
  - intros url Hu. subst upload destroy. rewrite Hu. simpl.
    destruct (destroy_ok c); [|split; [|split]].
    + set (w1 := mkWorld d _).
      destruct (process_tags_only_tag_inserts (b_tags b) c w1) as (l & Hl2 & Fl).
      destruct (process_tags (b_tags b) c w1) as [[ids|e] w2]; simpl in Hl2.
      * cbv zeta. destruct (Post_validate _ _ url).
        -- unfold trace_of, response_of; simpl. rewrite Hl2.
           split; [|split; [discriminate | intros _; discriminate]].
           exists l. split; [reflexivity | by apply tag_inserts_no_blob_call].
        -- unfold trace_of, response_of, db_of; simpl. rewrite Hl2. simpl.
           split; [|split; [discriminate|]].
           ++ eexists. split; [reflexivity|].
              apply Forall_app. split; [by apply tag_inserts_no_blob_call|].
              by repeat constructor.
           ++ intros _ _. eexists. rewrite lookup_insert_eq.
              split; [reflexivity|]. split; [reflexivity|].
              by rewrite !app_comm_cons, last_snoc.
      * unfold trace_of, response_of; simpl. rewrite Hl2.
        split; [|split; [discriminate | intros _; discriminate]].
        exists l. split; [reflexivity | by apply tag_inserts_no_blob_call].
    + exists []. by split.
    + intros _. by repeat split.
    + discriminate.
Qed.

End UpdatePost.

(** ** Examples on the sample store *)

(** C8 at work: "News" is created in the empty store with identifier 0
    and resolves to 0 afterwards; the slugs stay distinct. *)
Lemma tag_resolution_example :
  let d1 := mkDb [mkTag 0%nat "News" "news"] ∅ in
  run (resolveTag "News") cloud_ok empty_db = (Ret 0%nat, d1)
  /\ run (resolveTag "News") cloud_down d1 = (Ret 0%nat, d1)
  /\ unique_slugs (serve [(POST_tags (Some "News"), cloud_ok)] empty_db).
Proof.
  intros d1.
  assert (H : run (resolveTag "News") cloud_ok empty_db = (Ret 0%nat, d1)) by reflexivity.
  destruct tag_resolution_is_idempotent as (Hres & _ & Hinv & Hempty).
  split; [exact H|]. split.
  - destruct (Hres _ _ _ _ _ H) as (_ & Hagain & _). apply Hagain.
  - apply Hinv, Hempty.
Defined.

(** C1 at work: retagging the sample post with "a, b" is applied and
    replaces its tag list [7] by the two identifiers that the resolver
    returns. *)
Lemma updatePost_tag_rule_example :
  let out := exec (updatePost (ValidId 1%nat) retag) cloud_ok sample_db in
  db_posts sample_db !! 1%nat = Some sample_post
  /\ post_tags sample_post = [7%nat]
  /\ names_of (b_tags retag) = ["a"; "b"]
  /\ status (response_of out) = 200%nat
  /\ exists p', db_posts (db_of out) !! 1%nat = Some p' /\ post_tags p' = [8%nat; 9%nat].
Proof.
  intros out.
  assert (H : db_posts sample_db !! 1%nat = Some sample_post) by reflexivity.
  assert (Hrun : run (resolveTags (names_of (b_tags retag))) cloud_ok sample_db
                 = (Ret [8%nat; 9%nat],
                    (run (resolveTags (names_of (b_tags retag))) cloud_ok sample_db).2))
    by reflexivity.
  split; [exact H|]. split; [reflexivity|]. split; [reflexivity|].
  pose proof (updatePost_tag_rule 1%nat retag cloud_ok sample_db sample_post H) as Hc.
  cbv zeta in Hc. destruct Hc as (_ & _ & _ & _ & Happlied).
  exact (Happlied _ _ eq_refl Hrun eq_refl).
Defined.

(** C10 at work: blank fields leave title and description of the sample
    post as they are. *)
Lemma updatePost_empty_field_example :
  db_posts sample_db !! 1%nat = Some sample_post
  /\ Js.trim (post_title sample_post) = post_title sample_post
  /\ forall p',
       db_posts (db_of (exec (updatePost (ValidId 1%nat) blank_fields) cloud_ok sample_db)) !! 1%nat
       = Some p' ->
       post_title p' = post_title sample_post
       /\ post_description p' = post_description sample_post.
Proof.
  assert (H : db_posts sample_db !! 1%nat = Some sample_post) by reflexivity.
  split; [exact H|]. split; [reflexivity|].
  destruct (updatePost_empty_field_is_omitted 1%nat blank_fields cloud_ok sample_db
              sample_post H) as (_ & _ & Ht & Hd & _).
  intros p' Hp'. split; [apply Ht | apply Hd]; solve [reflexivity | exact Hp'].
Defined.

(** C2 as stated fails: the sample post is given a new title and a new
    valid image, the upload succeeds and the deletion of the old image
    fails; the request ends in a server error and the stored record is
    the old one, title included. *)
Lemma updatePost_failed_deletion_leaves_old_record :
  let out := exec (updatePost (ValidId 1%nat) retitle_with_image) cloud_destroy_fails sample_db in
  db_posts sample_db !! 1%nat = Some sample_post
  /\ b_image retitle_with_image = Some sample_file
  /\ valid_image sample_file = true
  /\ trace_of out = [EvUpload sample_file (Some new_url); EvDestroy "posts-api/old" false]
  /\ status (response_of out) = 500%nat
  /\ db_posts (db_of out) !! 1%nat = Some sample_post
  /\ b_title retitle_with_image = Some "New title"
  /\ post_title sample_post <> "New title".
Proof. vm_compute. repeat split; discriminate. Qed.

(** C2 as amended, at work on the same request. *)
Lemma updatePost_replaces_image_example :
  let out := exec (updatePost (ValidId 1%nat) retitle_with_image) cloud_destroy_fails sample_db in
  db_posts sample_db !! 1%nat = Some sample_post
  /\ b_image retitle_with_image = Some sample_file
  /\ valid_image sample_file = true
  /\ db_of out = sample_db.
Proof.
  intros out.
  assert (H : db_posts sample_db !! 1%nat = Some sample_post) by reflexivity.
  assert (Hb : b_image retitle_with_image = Some sample_file) by reflexivity.
  assert (Hv : valid_image sample_file = true) by reflexivity.
  split; [exact H|]. split; [exact Hb|]. split; [exact Hv|].
  destruct (updatePost_replaces_image_before_record 1%nat retitle_with_image
              cloud_destroy_fails sample_db sample_post sample_file H Hb Hv)
    as (_ & Hu).
  destruct (Hu new_url eq_refl) as (_ & Hfail & _).
  by destruct (Hfail eq_refl) as (_ & Hd & _).
Defined.

(** ** Post deletion *)

Lemma deletePost_invalid (raw : string) (c : Cloud) (d : Db) :
  exec (deletePost (InvalidId raw)) c d = (server_error (CastError "_id"), d, []).
Proof. reflexivity. Qed.

Lemma deletePost_eval (id : ObjectId) (c : Cloud) (d : Db) :
  exec (deletePost (ValidId id)) c d =
  match db_posts d !! id with
  | None => (fail_with 404 "Post not found", d, [])
  | Some post =>
      let destroy := EvDestroy (fullPublicId (post_imageUrl post)) (destroy_ok c) in
      if destroy_ok c then
        (mkResp 200 true (Some "Post deleted successfully") NoData None,
         mkDb (db_tags d) (delete id (db_posts d)),
         [destroy; EvPostDelete id])
      else (server_error DeleteFailed, d, [destroy])
  end.
Proof.
  unfold exec, deletePost, try_catch, Post_findById, deleteFromCloud,
    Post_findByIdAndDelete, bind, ask, emit, get_db, put_db, ret, throw.
  simpl. destruct (db_posts d !! id) as [post|] eqn:Hl; [|reflexivity].
  destruct (destroy_ok c); simpl; rewrite ?Hl; reflexivity.
Qed.

(** C6, as the code has it.  For every delete request: when the route
    id denotes no ObjectId the query by id fails and the response is the
    500 of the catch block; when it denotes an ObjectId that no post has
    the response is 404; in both cases no call is made (the trace is
    empty) and the store is untouched.  When the post exists the
    deletion of its blob is the first event; if that deletion fails the
    request fails with a server error and the store, the post record
    included, is as before; if it succeeds the record is deleted next. *)
Theorem deletePost_blob_then_record (rid : RouteId) (c : Cloud) (d : Db) :
  let out := exec (deletePost rid) c d in
  match rid with
  | InvalidId _ =>
      response_of out = server_error (CastError "_id")
      /\ status (response_of out) = 500%nat /\ trace_of out = [] /\ db_of out = d
  | ValidId id =>
      match db_posts d !! id with
      | None =>
          status (response_of out) = 404%nat /\ trace_of out = [] /\ db_of out = d
      | Some post =>
          let destroy := EvDestroy (fullPublicId (post_imageUrl post)) (destroy_ok c) in
          if destroy_ok c then
            trace_of out = [destroy; EvPostDelete id]
            /\ status (response_of out) = 200%nat
            /\ db_of out = mkDb (db_tags d) (delete id (db_posts d))
          else
            trace_of out = [destroy]
            /\ response_of out = server_error DeleteFailed
            /\ db_of out = d
            /\ db_posts (db_of out) !! id = Some post
      end
  end.
Proof.
  intros out. subst out.
  destruct rid as [id|raw]; [|rewrite deletePost_invalid; by repeat split].
  rewrite deletePost_eval.
  destruct (db_posts d !! id) as [post|] eqn:Hl; [|by repeat split].
  simpl. destruct (destroy_ok c); by repeat split.
Qed.

(** C6 as stated fails: no post has the id "abc", and the deletion is
    answered 500, not 404. *)
Lemma deletePost_malformed_id_is_server_error :
  let out := exec (deletePost (InvalidId "abc")) cloud_ok sample_db in
  status (response_of out) = 500%nat
  /\ status (response_of out) <> 404%nat
  /\ trace_of out = []
  /\ db_of out = sample_db.
Proof. vm_compute. repeat split; discriminate. Qed.

(** ** Post creation *)

Section CreatePost.

Lemma passes_create_validation_true (b : PostBody) :
  passes_create_validation b = true ->
  exists title description f,
    b_title b = Some title /\ b_description b = Some description /\ b_image b = Some f
    /\ Js.truthy title = true /\ Js.truthy description = true
    /\ Js.startsWith "image/" (mimetype f) = true
    /\ (size f >? max_image_size) = false.
Proof.
  unfold passes_create_validation, Js.truthy_opt.
  destruct (b_title b) as [t|]; [|discriminate].
  destruct (b_description b) as [ds|]; [|by rewrite andb_false_r].
  destruct (b_image b) as [f|]; [|by rewrite andb_false_r].
  rewrite !andb_true_iff. intros [[Ht Hd] [Hm Hz]].
  exists t, ds, f. repeat split; try done.
  unfold max_image_size. apply Z.leb_le in Hz. rewrite Z.gtb_ltb. apply Z.ltb_ge. lia.
Qed.

(** What createPost does once the request passed the validations. *)
Lemma createPost_eval (b : PostBody) (c : Cloud) (d : Db) title description f :
  b_title b = Some title -> b_description b = Some description -> b_image b = Some f ->
  Js.truthy title = true -> Js.truthy description = true ->
  Js.startsWith "image/" (mimetype f) = true ->
  (size f >? max_image_size) = false ->
  exec (createPost b) c d =
  match upload_result c with
  | None => (server_error UploadFailed, d, [EvUpload f None])
  | Some imageUrl =>
      match process_tags (b_tags b) c (mkWorld d [EvUpload f (Some imageUrl)]) with
      | (Throw e, w2) => (server_error e, w_db w2, w_trace w2)
      | (Ret tagIds, w2) =>
          match Post_validate (Js.trim title) description imageUrl with
          | Some e => (server_error e, w_db w2, w_trace w2)
          | None =>
              let p := mkPost (new_id (w_db w2)) (Js.trim title) description imageUrl tagIds in
              let d' := mkDb (db_tags (w_db w2)) (<[post_id p := p]> (db_posts (w_db w2))) in
              (mkResp 201 true (Some "Post created successfully")
                 (DataPost (Some (populated d' p))) None,
               d', w_trace w2 ++ [EvPostInsert p])
          end
      end
  end.
Proof.
  intros Ht Hd Hf Htt Htd Hm Hz. unfold exec, createPost, try_catch.
  rewrite Ht, Hd, Hf, Htt, Htd, Hm, Hz. simpl.
  unfold bind at 1. unfold uploadToCloud. rewrite Hm. simpl.
  unfold bind at 1. unfold ask at 1. unfold bind at 1. unfold emit at 1. simpl.
  destruct (upload_result c) as [url|]; [|reflexivity]. simpl.
  unfold bind at 1.
  destruct (process_tags (b_tags b) c _) as [[ids|e] [d2 t2]]; [|reflexivity].
  unfold bind at 1. unfold Post_create.
  destruct (Post_validate _ _ _); [reflexivity|]. reflexivity.
Qed.

Lemma createPost_invalid (b : PostBody) (c : Cloud) (d : Db) :
  passes_create_validation b = false ->
  exists msg, exec (createPost b) c d = (fail_with 400 msg, d, []).
Proof.
  unfold passes_create_validation, exec, createPost, try_catch, Js.truthy_opt.
  destruct (b_title b) as [t|]; [|by eexists].
  destruct (b_description b) as [ds|]; [|by eexists].
  destruct (Js.truthy t); [|by eexists].
  destruct (Js.truthy ds); [|by eexists].
  destruct (b_image b) as [f|]; [|by eexists]. simpl.
  destruct (Js.startsWith "image/" (mimetype f)); [|by eexists]. simpl.
  intros Hz. apply Z.leb_gt in Hz. unfold max_image_size.
  destruct (Z.gtb_spec (size f) (5 * 1024 * 1024)); [by eexists | lia].
Qed.

Lemma post_insert_not_among_tag_inserts (p : Post) (e : Event) (l : list Event) :
  Forall (fun e => is_tag_insert e = true) l ->
  EvPostInsert p ∈ e :: l -> e = EvPostInsert p.
Proof.
  intros Fl Hin. apply elem_of_cons in Hin as [->|Hin]; [reflexivity|].
  rewrite Forall_forall in Fl. by apply Fl in Hin.
Qed.

(** C5. In every execution of post creation: a request that fails one
    of the validations (title, description, image, media type, size at
    most 5 MiB) is answered 400 without any call or write; a request
    that passes them starts with the upload, the only upload of the
    request, and when that upload fails nothing is written.  A post is
    inserted only as the last step, after the successful upload whose
    URL it carries, and without an insertion the post collection is as
    before. *)
Theorem createPost_validates_uploads_then_persists (b : PostBody) (c : Cloud) (d : Db) :
  let out := exec (createPost b) c d in
  (passes_create_validation b = false ->
     status (response_of out) = 400%nat /\ trace_of out = [] /\ db_of out = d)
  /\ (forall f, b_image b = Some f -> size f > 5 * 1024 * 1024 ->
        status (response_of out) = 400%nat /\ trace_of out = [])
  /\ (passes_create_validation b = true ->
        exists f rest,
          b_image b = Some f
          /\ trace_of out = EvUpload f (upload_result c) :: rest
          /\ Forall (fun e => is_upload e = false) rest
          /\ (upload_result c = None ->
                rest = [] /\ db_of out = d
                /\ response_of out = server_error UploadFailed))
  /\ (forall p, EvPostInsert p ∈ trace_of out ->
        exists f rest,
          trace_of out = EvUpload f (Some (post_imageUrl p)) :: rest ++ [EvPostInsert p]
          /\ Forall (fun e => is_tag_insert e = true) rest
          /\ db_posts (db_of out) !! post_id p = Some p)
  /\ ((forall p, EvPostInsert p ∉ trace_of out) -> db_posts (db_of out) = db_posts d).
Proof.
  intros out. subst out.
  destruct (passes_create_validation b) eqn:Hv.
  - destruct (passes_create_validation_true b Hv)
      as (t & ds & f & Ht & Hd & Hf & Htt & Htd & Hm & Hz).
    rewrite (createPost_eval b c d t ds f Ht Hd Hf Htt Htd Hm Hz).
    split; [discriminate|]. split.
    { intros f' Hf' Hbig. rewrite Hf in Hf'. injection Hf' as <-.
      unfold max_image_size in Hz. rewrite Z.gtb_ltb in Hz. apply Z.ltb_ge in Hz. lia. }
    destruct (upload_result c) as [url|] eqn:Hu.
    + destruct (process_tags_only_tag_inserts (b_tags b) c
                  (mkWorld d [EvUpload f (Some url)])) as (l & Hl & Fl).
      pose proof (process_tags_same_posts (b_tags b) c
                    (mkWorld d [EvUpload f (Some url)])) as Hsp.
      unfold same_posts in Hsp.
      assert (Fu : Forall (fun e => is_upload e = false) l).
      { eapply Forall_impl; [exact Fl|]. by intros []. }
      destruct (process_tags (b_tags b) c _) as [[ids|e] w2]; simpl in Hl, Hsp.
      * destruct (Post_validate _ _ url).
        -- unfold trace_of, db_of; simpl. rewrite Hl. split; [|split].
           ++ intros _. exists f, l.
              split; [done|]. split; [reflexivity|]. split; [exact Fu | discriminate].
           ++ intros p Hp. simpl in Hp.
              by pose proof (post_insert_not_among_tag_inserts _ _ _ Fl Hp).
           ++ intros _. exact Hsp.
        -- unfold trace_of, db_of; simpl. rewrite Hl. simpl. split; [|split].
           ++ intros _. exists f. eexists. split; [done|]. split; [reflexivity|].
              split; [|discriminate]. apply Forall_app. split; [exact Fu|].
              by repeat constructor.
           ++ intros p Hp. apply elem_of_cons in Hp as [Hp|Hp]; [discriminate|].
              apply elem_of_app in Hp as [Hp|Hp].
              { rewrite Forall_forall in Fl. by apply Fl in Hp. }
              apply list_elem_of_singleton in Hp. injection Hp as ->. simpl.
              exists f, l. split; [reflexivity|]. split; [exact Fl|].
              apply lookup_insert_eq.
           ++ intros Hno. exfalso. eapply Hno. apply elem_of_cons. right.
              apply elem_of_app. right. apply list_elem_of_singleton. reflexivity.
      * unfold trace_of, db_of; simpl. rewrite Hl. split; [|split].
        -- intros _. exists f, l.
              split; [done|]. split; [reflexivity|]. split; [exact Fu | discriminate].
        -- intros p Hp. simpl in Hp.
           by pose proof (post_insert_not_among_tag_inserts _ _ _ Fl Hp).
        -- intros _. exact Hsp.
    + unfold trace_of, db_of, response_of; simpl. split; [|split].
      * intros _. exists f, []. by repeat split.
      * intros p Hp. apply list_elem_of_singleton in Hp. discriminate.
      * done.
  - destruct (createPost_invalid b c d Hv) as [msg ->].
    unfold trace_of, db_of, response_of; simpl.
    split; [done|]. split; [done|]. split; [discriminate|]. split; [|done].
    intros p Hp. by apply elem_of_nil in Hp.
Qed.

End CreatePost.

(** ** Listing and search *)

Section Listing.

Lemma both_rejected_r (v : Verdict) : both v Rejected = Rejected.
Proof. by destruct v. Qed.

Lemma skip_rejected (f : Filter) (s : option (string * Z)) (skip limit : Number.t) (c : Cloud) :
  skip_verdict skip = Rejected ->
  store_answers c (mkQuery f s skip limit) = false.
Proof.
  intros H. unfold store_answers, query_verdict. simpl. rewrite H.
  by destruct (filter_verdict f), (sort_verdict s), (limit_verdict limit).
Qed.

Lemma negative_skip_rejected (z : Z) : z < 0 -> skip_verdict (Number.Fin z) = Rejected.
Proof. intros H. simpl. by rewrite (proj2 (Z.ltb_lt z 0) H). Qed.

Lemma getPosts_eval (r : ListParams) (c : Cloud) (d : Db) :
  exec (getPosts r) c d =
  let page := Number.or_default (ParseInt.parseInt (ParseInt.toString (lp_page r)) None) 1 in
  let limit := Number.or_default (ParseInt.parseInt (ParseInt.toString (lp_limit r)) None) 10 in
  let sortBy := Js.or_else (lp_sortBy r) "createdAt" in
  let sortOrder := if bool_decide (lp_sortOrder r = Some "asc") then 1 else -1 in
  let filter :=
    match lp_tags r with
    | Some tagFilter =>
        if Js.truthy tagFilter
        then FilterTagsIn (tag_ids_with_slug_in (split_names tagFilter) d)
        else FilterAll
    | None => FilterAll
    end in
  let query :=
    mkQuery filter (Some (sortBy, sortOrder)) (Number.mul (Number.pred page) limit) limit in
  if store_answers c query
  then (mkResp 200 true None
          (DataPage query (mkPagination page limit (Post_countDocuments filter d)))
          None, d, [])
  else (fail_with 500 "Server error while fetching posts", d, []).
Proof.
  unfold exec, getPosts, try_catch, Tag_find_slug_in, Post_find, bind, ask, get_db, ret,
    throw. simpl.
  destruct (lp_tags r) as [s|]; [destruct (Js.truthy s)|];
    destruct (store_answers c _); reflexivity.
Qed.

(** With page, limit and sortBy absent the query is in the range that
    the store answers. *)
Lemma default_listing_answered (f : Filter) (order : Z) (c : Cloud) :
  filter_verdict f = Accepted ->
  store_answers c
    (mkQuery f (Some (Js.or_else None "createdAt", order))
       (Number.mul (Number.pred (Number.Fin 1)) (Number.Fin 10)) (Number.Fin 10)) = true.
Proof. intros H. unfold store_answers, query_verdict. simpl. by rewrite H. Qed.

Lemma no_id_in_nil (l : list ObjectId) :
  existsb (fun i => bool_decide (i ∈ @nil ObjectId)) l = false.
Proof.
  induction l as [|i l IH]; [reflexivity|]. cbn [existsb]. rewrite IH, orb_false_r.
  apply bool_decide_eq_false, not_elem_of_nil.
Qed.

Lemma filter_none {A} (f : A -> bool) (l : list A) :
  (forall x, f x = false) -> List.filter f l = [].
Proof. intros H. induction l as [|x l IH]; simpl; [reflexivity|]. by rewrite H. Qed.

(** The lookup of the given slugs returns no tag exactly when no stored
    tag has one of them (as cast by the schema) for slug. *)
Lemma tag_ids_with_slug_in_nil (slugs : list string) (d : Db) :
  tag_ids_with_slug_in slugs d = [] <->
  (forall t, t ∈ db_tags d -> tag_slug t ∉ Js.toLowerCase <$> slugs).
Proof.
  unfold tag_ids_with_slug_in. split.
  - intros H t Ht Hin. apply fmap_nil_inv in H.
    assert (Hf : t ∈ List.filter (fun t => bool_decide (tag_slug t ∈ Js.toLowerCase <$> slugs))
                       (db_tags d)).
    { apply list_elem_of_In, filter_In. split; [by apply list_elem_of_In|].
      by apply bool_decide_eq_true. }
    rewrite H in Hf. by apply elem_of_nil in Hf.
  - intros H. induction (db_tags d) as [|t l IH]; [reflexivity|]. simpl.
    rewrite bool_decide_eq_false_2 by (apply H; left).
    apply IH. intros u Hu. apply H. by right.
Qed.

(** C7, as the code has it.  For every listing request whose tags
    parameter is present and non-empty and whose lookup of the given
    slugs returns no tag, the filter built is [{ tags: { $in: [] } }]:
    its predicate holds of no post, so no post of the store matches,
    whatever the store holds, and nothing is written.  The request is
    answered 200 or with the 500 of the catch block; a 200 carries that
    filter and the total 0; it is a 200 when page, limit and sortBy are
    absent; it is a 500, an error, when the skip that page and limit give
    is one that the store rejects (negative, as for page=-5). *)
Theorem listing_by_unmatched_tags_is_empty
    (r : ListParams) (c : Cloud) (d : Db) (tagFilter : string) :
  lp_tags r = Some tagFilter ->
  tagFilter <> "" ->
  tag_ids_with_slug_in (split_names tagFilter) d = [] ->
  let out := exec (getPosts r) c d in
  let page := Number.or_default (ParseInt.parseInt (ParseInt.toString (lp_page r)) None) 1 in
  let limit := Number.or_default (ParseInt.parseInt (ParseInt.toString (lp_limit r)) None) 10 in
  (exists pred, filter_pred (FilterTagsIn []) = Some pred /\ forall p, pred p = false)
  /\ Post_matching (FilterTagsIn []) d = Some []
  /\ db_of out = d
  /\ trace_of out = []
  /\ (status (response_of out) = 200%nat
      \/ response_of out = fail_with 500 "Server error while fetching posts")
  /\ (status (response_of out) = 200%nat ->
        (q_filter <$> page_query (response_of out)) = Some (FilterTagsIn [])
        /\ (pg_total <$> page_pagination (response_of out)) = Some (Some 0%nat))
  /\ (lp_page r = None -> lp_limit r = None -> lp_sortBy r = None ->
        status (response_of out) = 200%nat)
  /\ (skip_verdict (Number.mul (Number.pred page) limit) = Rejected ->
        status (response_of out) = 500%nat).
Proof.
  intros Ht Hne Hnone out page limit. subst out. rewrite getPosts_eval, Ht, Hnone.
  assert (Htr : Js.truthy tagFilter = true) by (by destruct tagFilter).
  rewrite Htr.
  assert (Hm : Post_matching (FilterTagsIn []) d = Some []).
  { unfold Post_matching. simpl. f_equal. apply filter_none. intros p. apply no_id_in_nil. }
  cbv zeta. fold page limit. unfold Post_countDocuments. rewrite Hm.
  split; [eexists; split; [reflexivity|]; intros p; apply no_id_in_nil|].
  split; [reflexivity|].
  split; [by destruct (store_answers c _)|].
  split; [by destruct (store_answers c _)|].
  split; [destruct (store_answers c _); [by left | by right]|].
  split; [destruct (store_answers c _); [by intros _ | discriminate]|].
  split.
  - intros Hp Hl Hs. subst page limit. rewrite Hp, Hl, Hs.
    change (Number.or_default (ParseInt.parseInt (ParseInt.toString None) None) 1)
      with (Number.Fin 1).
    change (Number.or_default (ParseInt.parseInt (ParseInt.toString None) None) 10)
      with (Number.Fin 10).
    by rewrite default_listing_answered.
  - intros Hrej. by rewrite (skip_rejected _ _ _ _ c Hrej).
Qed.

Lemma searchPosts_eval (r : SearchParams) (c : Cloud) (d : Db) :
  exec (searchPosts r) c d =
  match sp_q r with
  | None => (fail_with 400 "Search query is required", d, [])
  | Some query =>
      if negb (Js.truthy query) then (fail_with 400 "Search query is required", d, [])
      else
        let pageNum := ParseInt.parseInt (default "1" (sp_page r)) (Some 10) in
        let limitNum := ParseInt.parseInt (default "10" (sp_limit r)) (Some 10) in
        let find :=
          mkQuery (FilterSearch query) None
            (Number.mul (Number.pred pageNum) limitNum) limitNum in
        if store_answers c find
        then (mkResp 200 true None
                (DataPage find
                   (mkPagination pageNum limitNum
                      (Post_countDocuments (FilterSearch query) d)))
                None, d, [])
        else (fail_with 500 "Server error while searching posts", d, [])
  end.
Proof.
  unfold exec, searchPosts, try_catch, Post_find, bind, ask, get_db, ret, throw. simpl.
  destruct (sp_q r) as [q|]; [|reflexivity].
  destruct (Js.truthy q); [|reflexivity]. simpl.
  destruct (store_answers c _); reflexivity.
Qed.


(** *** Patterns without metacharacters are substring tests *)





(** *** Patterns that the store rejects are outside the fragment *)







End Listing.

(** ** Examples on listing, search and creation *)

Lemma all_posts_sample_db : all_posts sample_db = [sample_post].
Proof. unfold all_posts, sample_db. simpl. by rewrite map_to_list_singleton. Qed.


(** In a search a page that does not parse is not defaulted either: it
    stays NaN, the skip is NaN and the request is answered 500. *)
Lemma search_page_is_not_defaulted :
  let out := exec (searchPosts (mkSearchParams (Some "x") (Some "abc") None)) cloud_ok sample_db in
  ParseInt.parseInt "abc" (Some 10) = Number.NaN
  /\ response_of out = fail_with 500 "Server error while searching posts".
Proof. rewrite searchPosts_eval. vm_compute. by split. Qed.

(** The rounding of parseInt: 2^53 + 1 is read as 2^53. *)
Lemma parseInt_rounds_to_double :
  ParseInt.parseInt "9007199254740993" None = Number.Fin 9007199254740992.
Proof. vm_compute. reflexivity. Qed.



(** A query that is not a pattern is answered with the 500 of the catch
    block, whatever the oracle. *)
Lemma search_invalid_pattern_is_server_error (c : Cloud) (d : Db) :
  response_of (exec (searchPosts (search_for "(")) c d)
  = fail_with 500 "Server error while searching posts"
  /\ response_of (exec (searchPosts (search_for "*")) c d)
     = fail_with 500 "Server error while searching posts".
Proof. by rewrite !searchPosts_eval. Qed.


(** C5 at work: an image of 5 MiB and one byte is refused before any
    call to the blob store. *)
Lemma createPost_oversized_example :
  passes_create_validation oversized_create = false
  /\ status (response_of (exec (createPost oversized_create) cloud_ok sample_db)) = 400%nat
  /\ trace_of (exec (createPost oversized_create) cloud_ok sample_db) = []
  /\ db_of (exec (createPost oversized_create) cloud_ok sample_db) = sample_db.
Proof.
  assert (H : passes_create_validation oversized_create = false) by reflexivity.
  split; [exact H|].
  destruct (createPost_validates_uploads_then_persists oversized_create cloud_ok sample_db)
    as (Hinv & _).
  exact (Hinv H).
Defined.

(** C7 as stated fails: with an empty tags parameter no slug matches a
    tag, yet the filter is the empty one and the sample post is listed. *)
Lemma listing_with_empty_tags_lists_everything :
  let out := exec (getPosts (list_tags "")) cloud_ok sample_db in
  lp_tags (list_tags "") = Some ""
  /\ tag_ids_with_slug_in (split_names "") sample_db = []
  /\ status (response_of out) = 200%nat
  /\ (q_filter <$> page_query (response_of out)) = Some FilterAll
  /\ Post_matching FilterAll sample_db = Some [sample_post]
  /\ (pg_total <$> page_pagination (response_of out)) = Some (Some 1%nat).
Proof.
  rewrite getPosts_eval. unfold Post_countDocuments, Post_matching.
  rewrite all_posts_sample_db. vm_compute. by repeat split.
Qed.

(** With unmatched tags and page -5 an error is raised all the same. *)
Lemma listing_by_unmatched_tags_negative_page :
  response_of (exec (getPosts (mkListParams (Some "-5") None None None
                                 (Some "nonexistent-slug"))) cloud_ok sample_db)
  = fail_with 500 "Server error while fetching posts".
Proof. rewrite getPosts_eval. vm_compute. reflexivity. Qed.

(** C7 as amended, at work: a slug that no tag has gives a 200 with
    total 0. *)
Lemma listing_by_unmatched_tags_example :
  lp_tags (list_tags "nonexistent-slug") = Some "nonexistent-slug"
  /\ "nonexistent-slug" <> ""
  /\ tag_ids_with_slug_in (split_names "nonexistent-slug") sample_db = []
  /\ Post_matching (FilterTagsIn []) sample_db = Some []
  /\ status (response_of (exec (getPosts (list_tags "nonexistent-slug")) cloud_ok sample_db))
     = 200%nat
  /\ (pg_total <$> page_pagination
        (response_of (exec (getPosts (list_tags "nonexistent-slug")) cloud_ok sample_db)))
     = Some (Some 0%nat).
Proof.
  assert (H : tag_ids_with_slug_in (split_names "nonexistent-slug") sample_db = [])
    by (vm_compute; reflexivity).
  split; [reflexivity|]. split; [discriminate|]. split; [exact H|].
  pose proof (listing_by_unmatched_tags_is_empty (list_tags "nonexistent-slug") cloud_ok
                sample_db "nonexistent-slug" eq_refl ltac:(discriminate) H) as Hc.
  cbv zeta in Hc. destruct Hc as (_ & Hm & _ & _ & _ & H200 & Hdef & _).
  pose proof (Hdef eq_refl eq_refl eq_refl) as Hs.
  split; [exact Hm|]. split; [exact Hs|]. by destruct (H200 Hs).
Defined.

(** ** Stored titles are trimmed *)

Section Trim.

Lemma trimEnd_idempotent (s : string) : Js.trimEnd (Js.trimEnd s) = Js.trimEnd s.
Proof.
  induction s as [|c s IH]; [reflexivity|]. simpl.
  destruct (Js.trimEnd s) as [|e r] eqn:He.
  - destruct (Js.is_white c) eqn:Hc; [reflexivity|]. simpl. by rewrite Hc.
  - change (Js.trimEnd (String c (String e r))) with
      (match Js.trimEnd (String e r) with
       | EmptyString => if Js.is_white c then EmptyString else String c EmptyString
       | r' => String c r'
       end).
    by rewrite IH.
Qed.

Lemma trimEnd_keeps_head (c : ascii) (r : string) :
  Js.is_white c = false -> exists r', Js.trimEnd (String c r) = String c r'.
Proof.
  intros Hc. simpl. destruct (Js.trimEnd r); [rewrite Hc|]; by eexists.
Qed.

Lemma trimStart_head (s : string) :
  Js.trimStart s = EmptyString
  \/ exists c r, Js.trimStart s = String c r /\ Js.is_white c = false.
Proof.
  induction s as [|c s IH]; [by left|]. simpl.
  destruct (Js.is_white c) eqn:Hc; [exact IH|]. right. by exists c, s.
Qed.

Lemma trim_idempotent (s : string) : Js.trim (Js.trim s) = Js.trim s.
Proof.
  unfold Js.trim. destruct (trimStart_head s) as [-> | (c & r & -> & Hc)]; [reflexivity|].
  destruct (trimEnd_keeps_head c r Hc) as [r' Hr]. rewrite Hr.
  cbn [Js.trimStart]. rewrite Hc, <- Hr. apply trimEnd_idempotent.
Qed.

End Trim.

Global Instance keeps_titles_trimmed_preorder : PreOrder keeps_titles_trimmed.
Proof. split; [intros w H; exact H | intros a b c H1 H2 H; auto]. Qed.

Lemma same_posts_keeps_titles_trimmed w w' : same_posts w w' -> keeps_titles_trimmed w w'.
Proof. unfold same_posts, keeps_titles_trimmed, titles_trimmed. by intros ->. Qed.

Lemma same_db_keeps_titles_trimmed w w' : same_db w w' -> keeps_titles_trimmed w w'.
Proof. intros H. by apply same_posts_keeps_titles_trimmed, same_db_same_posts. Qed.

Lemma Post_create_keeps_titles_trimmed t ds u tags :
  respects keeps_titles_trimmed (Post_create t ds u tags).
Proof.
  intros c [d tr]. unfold Post_create.
  destruct (Post_validate _ _ _); [reflexivity|].
  unfold bind, get_db, put_db, emit, ret; simpl.
  intros Hd i q. simpl. rewrite lookup_insert.
  case_decide; [intros [= <-]; apply trim_idempotent | apply Hd].
Qed.

Lemma Post_findByIdAndUpdate_keeps_titles_trimmed id t ds u tags :
  respects keeps_titles_trimmed (Post_findByIdAndUpdate id t ds u tags).
Proof.
  intros c [d tr]. destruct id as [id|raw]; [|by intros ?].
  unfold Post_findByIdAndUpdate, castObjectId. unfold bind at 1. simpl.
  destruct (Post_validate _ _ _); [reflexivity|].
  unfold bind, get_db; simpl. destruct (db_posts d !! id); [|reflexivity].
  simpl. intros Hd i q. simpl. rewrite lookup_insert.
  case_decide; [intros [= <-]; apply trim_idempotent | apply Hd].
Qed.

Lemma Post_findByIdAndDelete_keeps_titles_trimmed id :
  respects keeps_titles_trimmed (Post_findByIdAndDelete id).
Proof.
  intros c [d tr]. destruct id as [id|raw]; [|by intros ?].
  unfold Post_findByIdAndDelete, castObjectId.
  unfold bind, get_db; simpl. destruct (db_posts d !! id); [|reflexivity].
  simpl. intros Hd i q. simpl. rewrite lookup_delete.
  case_decide; [discriminate | apply Hd].
Qed.

Lemma process_tags_keeps_titles_trimmed tags :
  respects keeps_titles_trimmed (process_tags tags).
Proof.
  eapply respects_weaken; [apply same_posts_keeps_titles_trimmed|].
  apply process_tags_same_posts.
Qed.

Lemma Tag_create_keeps_titles_trimmed name slug :
  respects keeps_titles_trimmed (Tag_create name slug).
Proof.
  eapply respects_weaken; [apply same_posts_keeps_titles_trimmed|].
  apply Tag_create_same_posts.
Qed.

#[global] Hint Resolve same_db_keeps_titles_trimmed Post_create_keeps_titles_trimmed
  Post_findByIdAndUpdate_keeps_titles_trimmed Post_findByIdAndDelete_keeps_titles_trimmed
  process_tags_keeps_titles_trimmed Tag_create_keeps_titles_trimmed : respects.

Lemma route_keeps_titles_trimmed (r : Request) : respects keeps_titles_trimmed (route r).
Proof.
  destruct r; simpl;
    unfold getPosts, createPost, getPost, updatePost, deletePost, searchPosts,
      getTags, createTag;
    respects_auto.
Qed.

(** Serving requests keeps every stored title in trimmed form; the
    empty store has it so. *)
Lemma serve_titles_trimmed (reqs : list (Request * Cloud)) (d : Db) :
  titles_trimmed d -> titles_trimmed (serve reqs d).
Proof.
  revert d. induction reqs as [|[r c] reqs IH]; intros d Hd; simpl; [exact Hd|].
  apply IH. rewrite exec_db_of.
  by apply (route_keeps_titles_trimmed r c (mkWorld d [])).
Qed.

Lemma empty_db_titles_trimmed : titles_trimmed empty_db.
Proof. intros id p H. simpl in H. by rewrite lookup_empty in H. Qed.

(** * Further properties of the handlers *)

(** ** Reads *)

Section Reads.

Lemma getPost_eval (id : ObjectId) (c : Cloud) (d : Db) :
  exec (getPost (ValidId id)) c d =
  match db_posts d !! id with
  | None => (fail_with 404 "Post not found", d, [])
  | Some post => (mkResp 200 true None (DataPost (Some (populated d post))) None, d, [])
  end.
Proof.
  unfold exec, getPost, try_catch, Post_findById, populate, bind, get_db, ret. simpl.
  by destruct (db_posts d !! id).
Qed.

Lemma getTags_eval (c : Cloud) (d : Db) :
  exec getTags c d = (mkResp 200 true None (DataTags (Tag_find_sorted d)) None, d, []).
Proof. reflexivity. Qed.

Lemma getPosts_pure (lp : ListParams) (c : Cloud) (d : Db) :
  db_of (exec (getPosts lp) c d) = d /\ trace_of (exec (getPosts lp) c d) = [].
Proof. rewrite getPosts_eval. cbv zeta. by destruct (store_answers c _). Qed.

Lemma getPost_invalid (raw : string) (c : Cloud) (d : Db) :
  exec (getPost (InvalidId raw)) c d
  = (fail_with 500 "Server error while fetching post", d, []).
Proof. reflexivity. Qed.

Lemma getPost_pure (id : RouteId) (c : Cloud) (d : Db) :
  db_of (exec (getPost id) c d) = d /\ trace_of (exec (getPost id) c d) = [].
Proof.
  destruct id as [id|raw]; [|by rewrite getPost_invalid].
  rewrite getPost_eval. by destruct (db_posts d !! id).
Qed.

Lemma searchPosts_pure (sp : SearchParams) (c : Cloud) (d : Db) :
  db_of (exec (searchPosts sp) c d) = d /\ trace_of (exec (searchPosts sp) c d) = [].
Proof.
  rewrite searchPosts_eval. destruct (sp_q sp) as [q|]; [|by split].
  destruct (negb (Js.truthy q)); [by split|]. cbv zeta.
  by destruct (store_answers c _).
Qed.

(** X1. The four read handlers (listing, single post, search, tag
    list) never write a collection and never call the blob store,
    whatever the request and whatever the state of the blob store. *)
Theorem reads_have_no_effect
    (lp : ListParams) (id : RouteId) (sp : SearchParams) (c : Cloud) (d : Db) :
  (db_of (exec (getPosts lp) c d) = d /\ trace_of (exec (getPosts lp) c d) = [])
  /\ (db_of (exec (getPost id) c d) = d /\ trace_of (exec (getPost id) c d) = [])
  /\ (db_of (exec (searchPosts sp) c d) = d /\ trace_of (exec (searchPosts sp) c d) = [])
  /\ (db_of (exec getTags c d) = d /\ trace_of (exec getTags c d) = []).
Proof.
  split; [apply getPosts_pure|]. split; [apply getPost_pure|].
  split; [apply searchPosts_pure | by rewrite getTags_eval].
Qed.

Lemma populated_tags_found (d : Db) (l : list ObjectId) :
  let found := omap (fun i => List.find (fun t => bool_decide (tag_id t = i)) (db_tags d)) l in
  Forall (fun t => t ∈ db_tags d) found
  /\ sublist (tag_id <$> found) l.
Proof.
  induction l as [|i l [IH1 IH2]]; simpl; [split; constructor|].
  destruct (List.find _ (db_tags d)) as [t|] eqn:Hf; simpl.
  - apply find_some in Hf as [Hin Hid]. apply bool_decide_eq_true in Hid. subst i.
    split; [constructor; [by apply list_elem_of_In | exact IH1] | by constructor].
  - split; [exact IH1 | by constructor].
Qed.

Lemma populated_tags_all (d : Db) (l : list ObjectId) :
  (forall i, i ∈ l -> exists t, t ∈ db_tags d /\ tag_id t = i) ->
  tag_id <$> omap (fun i => List.find (fun t => bool_decide (tag_id t = i)) (db_tags d)) l = l.
Proof.
  induction l as [|i l IH]; intros H; simpl; [reflexivity|].
  destruct (List.find _ (db_tags d)) as [t|] eqn:Hf; simpl.
  - apply find_some in Hf as [_ Hid]. apply bool_decide_eq_true in Hid.
    f_equal; [exact Hid|]. apply IH. intros j Hj. apply H. by right.
  - exfalso. destruct (H i) as (t & Ht & Hid); [by left|].
    apply list_elem_of_In in Ht.
    pose proof (find_none _ _ Hf t Ht) as Hn. simpl in Hn.
    by rewrite bool_decide_eq_true_2 in Hn.
Qed.

(** X2. getPost answers 404 exactly when its route id denotes an
    ObjectId that no post has, and 500 exactly when the id denotes no
    ObjectId.  Otherwise it answers 200 with the stored record together
    with its tag documents: each of them is a stored tag, their
    identifiers are a subsequence of the references of the record (a
    reference to no tag is dropped), and they are all the references, in
    order, when every reference is the identifier of a stored tag. *)
Theorem getPost_returns_populated_post (rid : RouteId) (c : Cloud) (d : Db) :
  let r := response_of (exec (getPost rid) c d) in
  (status r = 404%nat <-> exists id, rid = ValidId id /\ db_posts d !! id = None)
  /\ (status r = 500%nat <-> exists raw, rid = InvalidId raw)
  /\ (forall id post, rid = ValidId id -> db_posts d !! id = Some post ->
        exists tags,
          r = mkResp 200 true None (DataPost (Some (mkPopulated post tags))) None
          /\ Forall (fun t => t ∈ db_tags d) tags
          /\ sublist (tag_id <$> tags) (post_tags post)
          /\ ((forall i, i ∈ post_tags post -> exists t, t ∈ db_tags d /\ tag_id t = i) ->
              tag_id <$> tags = post_tags post)).
Proof.
  intros r. subst r. destruct rid as [id|raw].
  - rewrite getPost_eval.
    destruct (db_posts d !! id) as [post|] eqn:Hl; unfold response_of; simpl.
    + split; [split; [discriminate | by intros (? & [= <-] & ?); congruence]|].
      split; [split; [discriminate | by intros (? & ?)]|].
      intros ? p [= <-]. rewrite Hl. intros [= <-].
      destruct (populated_tags_found d (post_tags post)) as [H1 H2].
      eexists. split; [reflexivity|]. split; [exact H1|]. split; [exact H2|].
      apply populated_tags_all.
    + split; [split; [by exists id | done]|].
      split; [split; [discriminate | by intros (? & ?)]|].
      intros ? p [= <-]. by rewrite Hl.
  - rewrite getPost_invalid. unfold response_of; simpl.
    split; [split; [discriminate | by intros (? & ? & ?)]|].
    split; [split; [by exists raw | done]|]. discriminate.
Qed.

End Reads.

(** ** Tag creation endpoint *)

Section CreateTag.

Lemma find_none_existsb {A} (f : A -> bool) (l : list A) :
  List.find f l = None -> existsb f l = false.
Proof.
  induction l as [|x l IH]; simpl; [reflexivity|].
  destruct (f x); [discriminate | exact IH].
Qed.

Lemma createTag_eval (name : option string) (c : Cloud) (d : Db) :
  exec (createTag name) c d =
  match name with
  | None => (fail_with 400 "Tag name is required", d, [])
  | Some n =>
      if negb (Js.truthy n) then (fail_with 400 "Tag name is required", d, [])
      else
        match tag_of_name d n with
        | Some _ => (fail_with 409 "Tag already exists", d, [])
        | None =>
            if (bool_decide (Tag_validate (Js.trim n) (slugify n) = None)
                && negb (existsb (name_is (Js.trim n)) (db_tags d)))
            then
              let t := mkTag (new_id d) (Js.trim n) (slugify n) in
              (mkResp 201 true None (DataTag t) None,
               mkDb (db_tags d ++ [t]) (db_posts d), [EvTagInsert t])
            else (fail_with 500 "Server error while creating tag", d, [])
        end
  end.
Proof.
  unfold exec, createTag, try_catch, tag_of_name.
  destruct name as [n|]; [|reflexivity].
  destruct (negb (Js.truthy n)); [reflexivity|].
  unfold bind at 1. unfold Tag_findOne, bind at 1, get_db, ret. simpl.
  rewrite toLowerCase_slugify.
  destruct (List.find _ (db_tags d)) eqn:Hf; [reflexivity|].
  unfold bind at 1. unfold Tag_create. rewrite toLowerCase_slugify.
  destruct (Tag_validate _ _) eqn:Hv; [reflexivity|]. simpl.
  unfold bind, get_db, put_db, emit, ret, throw. simpl.
  destruct (existsb (name_is _) _); [reflexivity|].
  by rewrite (find_none_existsb _ _ Hf).
Qed.

(** X3. createTag answers 400 exactly when the name is absent or
    empty; for a non-empty name it answers 409 exactly when a tag with
    the slug of that name is stored.  Every answer other than 201 leaves
    the store as it was and writes nothing; a 201 appends exactly one
    tag, with a fresh identifier, the trimmed name and the slug of the
    name, and leaves the posts alone. *)
Theorem createTag_outcome (name : option string) (c : Cloud) (d : Db) :
  let out := exec (createTag name) c d in
  (status (response_of out) = 400%nat <-> name = None \/ name = Some "")
  /\ (forall n, name = Some n -> n <> "" ->
        (status (response_of out) = 409%nat <-> tag_of_name d n <> None))
  /\ (status (response_of out) <> 201%nat -> db_of out = d /\ trace_of out = [])
  /\ (status (response_of out) = 201%nat ->
        exists n t, name = Some n
          /\ t = mkTag (new_id d) (Js.trim n) (slugify n)
          /\ (tag_id t ∉ (tag_id <$> db_tags d))
          /\ data (response_of out) = DataTag t
          /\ db_of out = mkDb (db_tags d ++ [t]) (db_posts d)
          /\ trace_of out = [EvTagInsert t]).
Proof.
  intros out. subst out. rewrite createTag_eval.
  assert (Hfresh : new_id d ∉ (tag_id <$> db_tags d)).
  { unfold new_id. intros Hin.
    eapply (is_fresh (dom (db_posts d) ∪ list_to_set (tag_id <$> db_tags d) : gset nat)).
    apply elem_of_union. right. by apply elem_of_list_to_set. }
  destruct name as [[|a n]|]; simpl.
  - split; [split; auto|]. split; [intros ? [= <-] H; contradiction|].
    split; [done | discriminate].
  - destruct (tag_of_name d (String a n)) as [t|] eqn:Ht;
      [|destruct (_ && _) eqn:Hok]; unfold response_of, db_of, trace_of; simpl.
    + split; [split; [discriminate | intros [H|H]; discriminate]|].
      split; [intros ? [= <-] _; rewrite Ht; split; [discriminate | reflexivity]|].
      split; [done | discriminate].
    + split; [split; [discriminate | intros [H|H]; discriminate]|].
      split; [intros ? [= <-] _; rewrite Ht; split; [discriminate | contradiction]|].
      split; [contradiction|]. intros _. do 2 eexists.
      split; [reflexivity|]. split; [reflexivity|]. split; [exact Hfresh | done].
    + split; [split; [discriminate | intros [H|H]; discriminate]|].
      split; [intros ? [= <-] _; rewrite Ht; split; [discriminate | contradiction]|].
      split; [done | discriminate].
  - split; [split; auto|]. split; [discriminate|]. split; [done | discriminate].
Qed.

(** X4. After createTag answered 201 for a name, a further createTag
    with any non-empty name of the same slug answers 409 and changes
    nothing, and the tag resolver of createPost and updatePost resolves
    any such name to the tag just created, creating nothing. *)
Theorem createTag_then_same_slug_conflicts
    (n n' : string) (c c' : Cloud) (d : Db) :
  status (response_of (exec (createTag (Some n)) c d)) = 201%nat ->
  slugify n' = slugify n ->
  n' <> "" ->
  let d1 := db_of (exec (createTag (Some n)) c d) in
  status (response_of (exec (createTag (Some n')) c' d1)) = 409%nat
  /\ db_of (exec (createTag (Some n')) c' d1) = d1
  /\ run (resolveTag n') c' d1 = (Ret (new_id d), d1).
Proof.
  intros H201 Hs Hne d1.
  set (t := mkTag (new_id d) (Js.trim n) (slugify n)).
  assert (Hnone : tag_of_name d n = None /\ d1 = mkDb (db_tags d ++ [t]) (db_posts d)).
  { subst d1. rewrite createTag_eval in *.
    destruct (negb (Js.truthy n)); [discriminate|].
    destruct (tag_of_name d n); [discriminate|].
    destruct (_ && _); [by split | discriminate]. }
  destruct Hnone as [Hnone Hd].
  assert (Hfind : tag_of_name d1 n' = Some t).
  { rewrite Hd. unfold tag_of_name in *. simpl. rewrite Hs.
    apply find_snoc_None; [exact Hnone|]. unfold slug_is. simpl.
    by apply bool_decide_eq_true. }
  split; [|split].
  - rewrite createTag_eval. destruct n'; [contradiction|]. simpl. by rewrite Hfind.
  - rewrite createTag_eval. destruct n'; [contradiction|]. simpl. by rewrite Hfind.
  - by rewrite (resolveTag_found n' c' d1 t Hfind).
Qed.

Lemma Tag_validate_cases (name slug : string) :
  Tag_validate name slug = None <->
  name <> "" /\ (String.length name <= 50)%nat /\ slug <> "".
Proof.
  unfold Tag_validate. destruct name as [|a name]; simpl.
  - split; [discriminate | by intros [? _]].
  - destruct (50 <? _) eqn:Hl.
    + apply Z.ltb_lt in Hl. split; [discriminate|]. intros (_ & H & _). simpl in *. lia.
    + apply Z.ltb_ge in Hl. destruct slug; simpl.
      * split; [discriminate | by intros (_ & _ & ?)].
      * split; [intros _; repeat split; try done; simpl in *; lia | done].
Qed.

(** X5. When no stored tag has the slug of a non-empty name, createTag
    answers 500 instead of creating the tag, and leaves the store as it
    was, exactly when the trimmed name is empty, or is longer than 50
    characters, or is already the name of a stored tag (the duplicate is
    only seen by the unique index, not by the 409 check). *)
Theorem createTag_rejected_by_schema (n : string) (c : Cloud) (d : Db) :
  n <> "" ->
  tag_of_name d n = None ->
  let out := exec (createTag (Some n)) c d in
  (status (response_of out) = 500%nat <->
     Js.trim n = "" \/ (50 < String.length (Js.trim n))%nat
     \/ exists t, t ∈ db_tags d /\ tag_name t = Js.trim n)
  /\ (status (response_of out) = 500%nat -> db_of out = d /\ trace_of out = []).
Proof.
  intros Hn Hnone out. subst out. rewrite createTag_eval.
  destruct n as [|a n]; [contradiction|]. simpl. rewrite Hnone.
  assert (Hslug : slugify (String a n) <> "") by discriminate.
  destruct (bool_decide _) eqn:Hv; simpl.
  - apply bool_decide_eq_true, Tag_validate_cases in Hv as (Hv1 & Hv2 & _).
    destruct (existsb _ _) eqn:He; unfold response_of, db_of, trace_of; simpl.
    + split; [|done]. split; [|done]. intros _. right. right.
      apply existsb_exists in He as (t & Ht & Hname).
      exists t. split; [by apply list_elem_of_In|].
      unfold name_is in Hname. by apply bool_decide_eq_true in Hname.
    + split; [|discriminate]. split; [discriminate|].
      intros [H | [H | (t & Ht & Hname)]]; [contradiction | lia |].
      exfalso. apply not_true_iff_false in He. apply He.
      apply existsb_exists. exists t. split; [by apply list_elem_of_In|].
      unfold name_is. by apply bool_decide_eq_true.
  - unfold response_of, db_of, trace_of; simpl. split; [|done]. split; [|done].
    intros _. apply bool_decide_eq_false in Hv.
    destruct (decide (Js.trim (String a n) = "")) as [|H1]; [by left|].
    destruct (decide (String.length (Js.trim (String a n)) <= 50)%nat) as [H2|H2];
      [|right; left; lia].
    exfalso. apply Hv, Tag_validate_cases. by repeat split.
Qed.

End CreateTag.

(** ** Tag list endpoint *)

Section GetTags.

Lemma insert_by_name_perm (t : Tag) (l : list Tag) :
  Permutation (insert_by_name t l) (t :: l).
Proof.
  induction l as [|u l IH]; simpl; [reflexivity|].
  destruct (String.leb _ _); [reflexivity|].
  rewrite IH. apply perm_swap.
Qed.

Lemma insert_by_name_hd (t u : Tag) (l : list Tag) :
  name_le u t -> HdRel name_le u l -> HdRel name_le u (insert_by_name t l).
Proof.
  intros Hut Hl. destruct l as [|v l]; simpl; [by constructor|].
  destruct (String.leb _ _); constructor; [exact Hut|]. by inversion Hl.
Qed.

Lemma insert_by_name_sorted (t : Tag) (l : list Tag) :
  Sorted name_le l -> Sorted name_le (insert_by_name t l).
Proof.
  induction l as [|u l IH]; simpl; intros Hs; [by repeat constructor|].
  destruct (String.leb (tag_name t) (tag_name u)) eqn:Hle.
  - constructor; [exact Hs | by constructor].
  - inversion Hs as [|? ? Hl Hhd]; subst. constructor; [by apply IH|].
    apply insert_by_name_hd; [|exact Hhd]. unfold name_le.
    destruct (String.leb_total (tag_name t) (tag_name u)) as [H|H]; [congruence | exact H].
Qed.

(** X6. getTags always answers 200 with every stored tag exactly once
    (a permutation of the collection, nothing filtered, nothing
    duplicated), in ascending order of name. *)
Theorem getTags_lists_every_tag_by_name (c : Cloud) (d : Db) :
  exists l,
    response_of (exec getTags c d) = mkResp 200 true None (DataTags l) None
    /\ Permutation l (db_tags d)
    /\ Sorted name_le l.
Proof.
  rewrite getTags_eval. eexists. split; [reflexivity|].
  unfold Tag_find_sorted. induction (db_tags d) as [|t l [IHp IHs]]; simpl.
  - split; constructor.
  - split; [by rewrite insert_by_name_perm, IHp | by apply insert_by_name_sorted].
Qed.

End GetTags.

(** ** Tag resolver, a whole pass *)

Section ResolveTags.

Lemma resolveTag_step (name : string) (c : Cloud) (w w1 : World) (i : ObjectId) :
  resolveTag name c w = (Ret i, w1) ->
  exists t, tag_of_name (w_db w1) name = Some t
            /\ tag_id t = i
            /\ (db_tags (w_db w1) = db_tags (w_db w)
                \/ db_tags (w_db w1) = db_tags (w_db w) ++ [t]).
Proof.
  rewrite resolveTag_eval. unfold tag_of_name.
  destruct (List.find _ (db_tags (w_db w))) as [t|] eqn:Hf.
  - intros [= <- <-]. exists t. auto.
  - destruct (Tag_create _ _ c w) as [[t|e] w'] eqn:Hc; [|discriminate].
    intros [= <- <-]. apply Tag_create_eval in Hc as [Hs Hd].
    exists t. rewrite Hd. simpl. split; [|auto].
    apply find_snoc_None; [exact Hf|].
    unfold slug_is. apply bool_decide_eq_true. by rewrite Hs, toLowerCase_slugify.
Qed.

Lemma resolveTags_pass (names : list string) (c : Cloud) (w w' : World) (ids : list ObjectId) :
  resolveTags names c w = (Ret ids, w') ->
  Forall2 (fun n i => exists t, tag_of_name (w_db w') n = Some t /\ tag_id t = i) names ids
  /\ (exists l, db_tags (w_db w') = db_tags (w_db w) ++ l
                /\ (length l <= length names)%nat).
Proof.
  unfold resolveTags. revert w ids. induction names as [|n names IH]; intros w ids; simpl.
  - intros [= <- <-]. split; [constructor|]. exists []. by rewrite app_nil_r.
  - unfold bind at 1. destruct (resolveTag n c w) as [[i|e] w1] eqn:Hn; [|discriminate].
    unfold bind at 1.
    destruct (for_each resolveTag names c w1) as [[ys|e] w2] eqn:Hr; [|discriminate].
    intros [= <- <-]. destruct (IH _ _ Hr) as (IH1 & l2 & Hl2 & Hlen2).
    apply resolveTag_step in Hn as (t & Ht & Hi & Hgrow). split.
    + constructor; [|exact IH1]. exists t. split; [|exact Hi].
      unfold tag_of_name in *. rewrite Hl2. by apply find_app_Some.
    + destruct Hgrow as [Hg | Hg]; rewrite Hl2, Hg.
      * exists l2. split; [reflexivity | lia].
      * exists ([t] ++ l2). split; [by rewrite app_assoc | simpl; lia].
Qed.

(** X7. A pass of the tag resolver that succeeds returns one
    identifier per name, in order; each is the identifier of the first
    stored tag that has the slug of the name, so names of the same slug
    (duplicates, or names that differ only in case or punctuation) get
    the same identifier.  The pass only appends tags, at most one per
    name, and leaves the posts alone. *)
Theorem resolveTags_returns_tag_of_each_slug
    (names : list string) (c : Cloud) (d d1 : Db) (ids : list ObjectId) :
  run (resolveTags names) c d = (Ret ids, d1) ->
  Forall2 (fun n i => exists t, tag_of_name d1 n = Some t /\ tag_id t = i) names ids
  /\ (forall j k nj nk ij ik,
        names !! j = Some nj -> names !! k = Some nk ->
        ids !! j = Some ij -> ids !! k = Some ik ->
        slugify nj = slugify nk -> ij = ik)
  /\ (exists l, db_tags d1 = db_tags d ++ l /\ (length l <= length names)%nat)
  /\ db_posts d1 = db_posts d.
Proof.
  unfold run. destruct (resolveTags names c (mkWorld d [])) as [r w'] eqn:Hr.
  intros [= -> <-].
  pose proof (process_tags_same_posts (Some (TagsArray names)) c (mkWorld d [])) as Hp.
  unfold process_tags in Hp. simpl in Hp. rewrite Hr in Hp.
  destruct (resolveTags_pass _ _ _ _ _ Hr) as [HF Hg].
  split; [exact HF|]. split; [|split; [exact Hg | exact Hp]].
  intros j k nj nk ij ik Hj Hk Hij Hik Hs.
  destruct (Forall2_lookup_lr _ _ _ _ _ _ HF Hj Hij) as (tj & Htj & <-).
  destruct (Forall2_lookup_lr _ _ _ _ _ _ HF Hk Hik) as (tk & Htk & <-).
  unfold tag_of_name in *. rewrite Hs in Htj. congruence.
Qed.

End ResolveTags.

(** ** Post creation, further *)

Section CreatePostMore.

Lemma new_id_fresh_post (d : Db) : db_posts d !! new_id d = None.
Proof.
  apply not_elem_of_dom. unfold new_id. intros Hin.
  eapply (is_fresh (dom (db_posts d) ∪ list_to_set (tag_id <$> db_tags d) : gset nat)).
  apply elem_of_union. by left.
Qed.

(** The possible outcomes of createPost. *)
Lemma createPost_cases (b : PostBody) (c : Cloud) (d : Db) :
  let out := exec (createPost b) c d in
  (passes_create_validation b = false /\ exists msg, out = (fail_with 400 msg, d, []))
  \/ (exists title description f,
        b_title b = Some title /\ b_description b = Some description
        /\ b_image b = Some f /\ passes_create_validation b = true
        /\ ((upload_result c = None /\ out = (server_error UploadFailed, d, [EvUpload f None]))
            \/ exists url l d2,
                 upload_result c = Some url
                 /\ Forall (fun e => is_tag_insert e = true) l
                 /\ db_posts d2 = db_posts d
                 /\ (exists l', db_tags d2 = db_tags d ++ l')
                 /\ ((exists e, out = (server_error e, d2, EvUpload f (Some url) :: l)
                                /\ (Post_validate (Js.trim title) description url = Some e
                                    \/ exists w tr,
                                         process_tags (b_tags b) c (mkWorld d tr)
                                         = (Throw e, w)))
                     \/ (exists ids,
                           run (process_tags (b_tags b)) c d = (Ret ids, d2)
                           /\ Post_validate (Js.trim title) description url = None
                           /\ let p := mkPost (new_id d2) (Js.trim title) description url ids in
                              let d' := mkDb (db_tags d2) (<[new_id d2 := p]> (db_posts d)) in
                              out = (mkResp 201 true (Some "Post created successfully")
                                       (DataPost (Some (populated d' p))) None,
                                     d', EvUpload f (Some url) :: l ++ [EvPostInsert p]))))).
Proof.
  intros out. subst out.
  destruct (passes_create_validation b) eqn:Hv;
    [|left; split; [reflexivity | by apply createPost_invalid]].
  right. destruct (passes_create_validation_true b Hv)
    as (t & ds & f & Ht & Hd & Hf & Htt & Htd & Hm & Hz).
  exists t, ds, f. rewrite (createPost_eval b c d t ds f Ht Hd Hf Htt Htd Hm Hz).
  split; [done|]. split; [done|]. split; [done|]. split; [done|].
  destruct (upload_result c) as [url|]; [right | by left].
  destruct (process_tags_only_tag_inserts (b_tags b) c
              (mkWorld d [EvUpload f (Some url)])) as (l & Hl & Fl).
  pose proof (process_tags_same_posts (b_tags b) c (mkWorld d [EvUpload f (Some url)])) as Hsp.
  pose proof (process_tags_tags_grow (b_tags b) c (mkWorld d [EvUpload f (Some url)])) as Hg.
  unfold same_posts in Hsp. unfold tags_grow in Hg.
  destruct (process_tags (b_tags b) c (mkWorld d [EvUpload f (Some url)]))
    as [[ids|e] [d2 t2]] eqn:Hp; simpl in Hl, Hsp, Hg; subst t2.
  - exists url, l, d2. split; [done|]. split; [done|]. split; [done|]. split; [done|].
    destruct (Post_validate _ _ url) as [e|] eqn:Hpv.
    + left. exists e. split; [reflexivity | by left].
    + right. exists ids. split.
      { rewrite process_tags_names_of in *.
        apply (framed_run _ _ _ _ _ _ (framed_resolveTags _) Hp). }
      split; [reflexivity|]. simpl. by rewrite Hsp.
  - exists url, l, d2. split; [done|]. split; [done|]. split; [done|]. split; [done|].
    left. exists e. split; [reflexivity|]. right. by do 2 eexists.
Qed.

(** X8. createPost never changes or removes a post that is already
    stored.  When it answers 201 the new record is stored under an
    identifier no post had, it holds the trimmed title, the description
    as sent, the URL returned by the upload and one tag reference per
    name sent, and a getPost of its identifier returns that same record;
    with any other answer the post collection is as before. *)
Theorem createPost_adds_exactly_one_post (b : PostBody) (c c' : Cloud) (d : Db) :
  let out := exec (createPost b) c d in
  (forall id p, db_posts d !! id = Some p -> db_posts (db_of out) !! id = Some p)
  /\ (status (response_of out) <> 201%nat -> db_posts (db_of out) = db_posts d)
  /\ (status (response_of out) = 201%nat ->
        exists p title description,
          data (response_of out) = DataPost (Some (populated (db_of out) p))
          /\ db_posts d !! post_id p = None
          /\ db_posts (db_of out) = <[post_id p := p]> (db_posts d)
          /\ b_title b = Some title /\ post_title p = Js.trim title
          /\ b_description b = Some description /\ post_description p = description
          /\ upload_result c = Some (post_imageUrl p)
          /\ length (post_tags p) = length (names_of (b_tags b))
          /\ response_of (exec (getPost (ValidId (post_id p))) c' (db_of out))
             = mkResp 200 true None (DataPost (Some (populated (db_of out) p))) None).
Proof.
  intros out.
  destruct (createPost_cases b c d)
    as [(Hinv & msg & H) | (t & ds & f & Ht & Hd & Hf & _ &
                   [[Hu H] | (url & l & d2 & Hu & Fl & Hsp & Hg &
                              [(e & H & _) | (ids & Hrun & Hv & H)])])];
    fold out in H; rewrite H; unfold response_of, db_of; simpl.
  - by repeat split.
  - by repeat split.
  - rewrite Hsp. by repeat split.
  - assert (Hfresh : db_posts d !! new_id d2 = None)
      by (rewrite <- Hsp; apply new_id_fresh_post).
    split; [|split; [done|]].
    + intros id p Hp. rewrite lookup_insert_ne; [exact Hp|]. intros Heq.
      assert (Hnone : db_posts d !! id = None) by (rewrite <- Heq; exact Hfresh).
      rewrite Hp in Hnone. discriminate.
    + intros _. eexists _, t, ds. simpl.
      split; [reflexivity|]. split; [exact Hfresh|]. split; [reflexivity|].
      split; [done|]. split; [reflexivity|]. split; [done|]. split; [reflexivity|].
      split; [done|]. split.
      * rewrite process_tags_names_of in Hrun. unfold run in Hrun.
        destruct (resolveTags _ c _) as [r w] eqn:Hr. injection Hrun as -> <-.
        eapply for_each_length, Hr.
      * rewrite getPost_eval. simpl. by rewrite lookup_insert_eq.
Qed.

(** X9. A creation request that passes the checks of the handler but
    whose title trims to nothing or exceeds 200 characters, or whose
    description exceeds 5000 characters, is rejected only by the schema:
    when the upload succeeds the image is uploaded first, the request
    then ends in a 500, no post is stored, and the uploaded blob is
    left in the blob store (no destroy call follows). *)
Theorem createPost_schema_rejection_orphans_blob
    (b : PostBody) (c : Cloud) (d : Db) (title description url : string) :
  passes_create_validation b = true ->
  b_title b = Some title ->
  b_description b = Some description ->
  upload_result c = Some url ->
  Js.trim title = "" \/ (200 < String.length (Js.trim title))%nat
  \/ (5000 < String.length description)%nat ->
  let out := exec (createPost b) c d in
  status (response_of out) = 500%nat
  /\ (exists f rest, trace_of out = EvUpload f (Some url) :: rest
                     /\ Forall (fun e => is_tag_insert e = true) rest)
  /\ db_posts (db_of out) = db_posts d.
Proof.
  intros Hv Ht Hd Hu Hbad out.
  assert (Hpv : Post_validate (Js.trim title) description url <> None).
  { intros Hn. unfold Post_validate in Hn.
    destruct (Js.trim title) as [|a s] eqn:Et; [discriminate|]. simpl in Hn.
    destruct (200 <? _) eqn:H200; [discriminate|]. apply Z.ltb_ge in H200.
    destruct description as [|a' s']; [discriminate|]. simpl in Hn.
    destruct (5000 <? _) eqn:H5000; [discriminate|]. apply Z.ltb_ge in H5000.
    destruct Hbad as [H | [H | H]]; [discriminate | simpl in H; lia | simpl in H; lia]. }
  destruct (createPost_cases b c d)
    as [(Hinv & msg & H) | (t & ds & f & Ht' & Hd' & Hf & _ &
                   [[Hu' H] | (url' & l & d2 & Hu' & Fl & Hsp & Hg &
                               [(e & H & _) | (ids & Hrun & Hv' & H)])])];
    fold out in H.
  - congruence.
  - congruence.
  - rewrite H. unfold response_of, trace_of, db_of; simpl.
    assert (url' = url) as -> by congruence.
    split; [reflexivity|]. split; [by exists f, l | exact Hsp].
  - exfalso. apply Hpv. congruence.
Qed.

End CreatePostMore.

(** ** Post update, further *)

Section UpdatePostMore.

Lemma updatePost_invalid (raw : string) (b : PostBody) (c : Cloud) (d : Db) :
  exec (updatePost (InvalidId raw) b) c d = (server_error (CastError "_id"), d, []).
Proof. reflexivity. Qed.

Lemma updatePost_missing (id : ObjectId) (b : PostBody) (c : Cloud) (d : Db) :
  db_posts d !! id = None ->
  exec (updatePost (ValidId id) b) c d = (fail_with 404 "Post not found", d, []).
Proof.
  intros Hl. unfold exec, updatePost, try_catch, Post_findById, bind, get_db, ret.
  simpl. by rewrite Hl.
Qed.

(** The trace of an update of an existing post: the image step, then
    tag insertions, then at most the update of the record. *)
Lemma updatePost_trace_shape (id : ObjectId) (b : PostBody) (c : Cloud) (d : Db) (post : Post) :
  db_posts d !! id = Some post ->
  exists pre l fin,
    trace_of (exec (updatePost (ValidId id) b) c d) = pre ++ l ++ fin
    /\ Forall (fun e => is_tag_insert e = true) l
    /\ (fin = [] \/ exists p, fin = [EvPostUpdate p])
    /\ (pre = [] \/ (exists f, pre = [EvUpload f None])
        \/ exists f url, pre = [EvUpload f (Some url);
                                EvDestroy (fullPublicId (post_imageUrl post)) (destroy_ok c)]).
Proof.
  intros Hl. rewrite (updatePost_eval _ _ _ _ _ Hl).
  assert (Hpre : exists pre,
             w_trace (update_image post (b_image b) c (mkWorld d [])).2 = pre
             /\ (pre = [] \/ (exists f, pre = [EvUpload f None])
                 \/ exists f url, pre = [EvUpload f (Some url);
                                         EvDestroy (fullPublicId (post_imageUrl post))
                                           (destroy_ok c)])).
  { rewrite update_image_eval. destruct (b_image b) as [f|]; [|by eexists; split; [|left]].
    destruct (negb _); [by eexists; split; [|left]|].
    destruct (size f >? max_image_size); [by eexists; split; [|left]|].
    destruct (upload_result c) as [url|]; simpl.
    - destruct (destroy_ok c); eexists; (split; [reflexivity|]); right; right; by do 2 eexists.
    - eexists. split; [reflexivity|]. right. left. by eexists. }
  destruct Hpre as (pre & Hpre & Hshape).
  destruct (update_image post (b_image b) c (mkWorld d [])) as [[[early|url]|e] w1];
    simpl in Hpre; unfold trace_of; simpl.
  - exists pre, [], []. rewrite Hpre, !app_nil_r. by repeat split; auto.
  - destruct (process_tags_only_tag_inserts (b_tags b) c w1) as (l & Hl2 & Fl).
    destruct (process_tags (b_tags b) c w1) as [[ids|e] w2]; simpl in Hl2.
    + destruct (Post_validate _ _ url); simpl; rewrite Hl2, Hpre.
      * exists pre, l, []. rewrite app_nil_r. by repeat split; auto.
      * exists pre, l. eexists. rewrite <- app_assoc.
        split; [reflexivity|]. split; [done|]. split; [right; by eexists | done].
    + simpl. rewrite Hl2, Hpre. exists pre, l, []. rewrite app_nil_r. by repeat split; auto.
  - exists pre, [], []. rewrite Hpre, !app_nil_r. by repeat split; auto.
Qed.

(** X10. updatePost rejects before doing anything: for a route id that
    denotes no ObjectId it answers 500, for one that denotes an ObjectId
    that no post has it answers 404, and for an existing post with a
    replacement file that is not an image or is larger than 5 MiB it
    answers 400; in the three cases nothing is uploaded, deleted or
    written, even when the request also carries new fields and tags. *)
Theorem updatePost_rejects_before_any_effect
    (rid : RouteId) (b : PostBody) (c : Cloud) (d : Db) :
  let out := exec (updatePost rid b) c d in
  (forall raw, rid = InvalidId raw ->
     status (response_of out) = 500%nat /\ db_of out = d /\ trace_of out = [])
  /\ (forall id, rid = ValidId id -> db_posts d !! id = None ->
        status (response_of out) = 404%nat /\ db_of out = d /\ trace_of out = [])
  /\ (forall id f, rid = ValidId id -> is_Some (db_posts d !! id) ->
        b_image b = Some f -> valid_image f = false ->
        status (response_of out) = 400%nat /\ db_of out = d /\ trace_of out = []).
Proof.
  intros out. subst out. split; [|split].
  - intros raw ->. by rewrite updatePost_invalid.
  - intros id -> Hl. by rewrite (updatePost_missing _ _ _ _ Hl).
  - intros id f -> [post Hl] Hb Hv.
    rewrite (updatePost_eval _ _ _ _ _ Hl), update_image_eval, Hb.
    unfold valid_image in Hv. apply andb_false_iff in Hv as [Hm | Hz].
    + by rewrite Hm.
    + destruct (negb _); [done|]. unfold max_image_size.
      apply Z.leb_gt in Hz. destruct (Z.gtb_spec (size f) (5 * 1024 * 1024)); [done | lia].
Qed.

(** X11. updatePost touches one record only, whatever the route id:
    every post other than the one the id denotes is as before, no post
    appears or disappears, and the record addressed keeps its
    identifier. *)
Theorem updatePost_touches_one_post (rid : RouteId) (b : PostBody) (c : Cloud) (d : Db) :
  let out := exec (updatePost rid b) c d in
  (forall id', rid <> ValidId id' -> db_posts (db_of out) !! id' = db_posts d !! id')
  /\ dom (db_posts (db_of out)) = dom (db_posts d)
  /\ (forall id p p', rid = ValidId id ->
         db_posts d !! id = Some p -> db_posts (db_of out) !! id = Some p' ->
         post_id p' = post_id p).
Proof.
  intros out. subst out.
  destruct rid as [id|raw];
    [|rewrite updatePost_invalid; split; [done|]; split; [done | discriminate]].
  destruct (db_posts d !! id) as [post|] eqn:Hl.
  - destruct (updatePost_outcome id b c d post Hl)
      as [[_ Hd] | (url & w1 & ids & w2 & _ & _ & _ & _ & _ & Hd & _)]; rewrite Hd.
    + split; [done|]. split; [done|]. intros ? p p' [= <-]. rewrite Hl.
      by intros [= <-] [= <-].
    + simpl. split; [intros id' Hne; rewrite lookup_insert_ne; [done | congruence]|].
      split; [by apply dom_insert_lookup_L|].
      intros ? p p' [= <-]. rewrite Hl, lookup_insert_eq. by intros [= <-] [= <-].
  - rewrite (updatePost_missing _ _ _ _ Hl). unfold db_of. simpl.
    split; [done|]. split; [done|]. intros ? p p' [= <-]. by rewrite Hl.
Qed.

End UpdatePostMore.

(** ** Post deletion, further *)

(** X12. deletePost leaves the tags and every post other than the one
    its route id denotes as they are.  A deletion answers 200 only for
    an id that denotes an ObjectId, and then the post is gone: getPost
    answers 404 for it and a second deletePost answers 404 without
    calling the blob store. *)
Theorem deletePost_removes_only_that_post (rid : RouteId) (c c' : Cloud) (d : Db) :
  let out := exec (deletePost rid) c d in
  db_tags (db_of out) = db_tags d
  /\ (forall id', rid <> ValidId id' -> db_posts (db_of out) !! id' = db_posts d !! id')
  /\ (status (response_of out) = 200%nat ->
        exists id, rid = ValidId id
        /\ db_posts (db_of out) !! id = None
        /\ status (response_of (exec (getPost rid) c' (db_of out))) = 404%nat
        /\ exec (deletePost rid) c' (db_of out)
           = (fail_with 404 "Post not found", db_of out, [])).
Proof.
  intros out. subst out.
  destruct rid as [id|raw];
    [|rewrite deletePost_invalid; split; [done|]; split; [done | discriminate]].
  rewrite deletePost_eval.
  destruct (db_posts d !! id) as [post|] eqn:Hl; simpl.
  - destruct (destroy_ok c); unfold db_of, response_of; simpl.
    + split; [done|].
      split; [intros id' Hne; rewrite lookup_delete_ne; [done | congruence]|].
      intros _. exists id. split; [done|]. rewrite getPost_eval, deletePost_eval. simpl.
      by rewrite lookup_delete_eq.
    + split; [done|]. split; [done | discriminate].
  - unfold db_of, response_of; simpl. split; [done|]. split; [done | discriminate].
Qed.

(** ** Calls to the blob store *)

Section BlobCalls.

Lemma destroy_not_among_tag_inserts (pid : string) (ok : bool) (l : list Event) :
  Forall (fun e => is_tag_insert e = true) l -> EvDestroy pid ok ∉ l.
Proof. intros Fl Hin. rewrite Forall_forall in Fl. by apply Fl in Hin. Qed.

(** X13. A blob is deleted only by updatePost and deletePost, and the
    blob they delete is the stored image of the post they address:
    every destroy call in the trace of a request carries the public id
    extracted from that image URL.  In particular createPost never
    deletes the blob it uploaded, whatever fails afterwards. *)
Theorem blobs_deleted_only_for_the_post_addressed
    (r : Request) (c : Cloud) (d : Db) (pid : string) (ok : bool) :
  EvDestroy pid ok ∈ trace_of (exec (route r) c d) ->
  exists id post,
    (r = DELETE_post (ValidId id) \/ exists b, r = PUT_post (ValidId id) b)
    /\ db_posts d !! id = Some post
    /\ pid = fullPublicId (post_imageUrl post)
    /\ ok = destroy_ok c.
Proof.
  destruct r as [lp | b | id | id b | id | sp | | name]; simpl.
  - destruct (getPosts_pure lp c d) as [_ ->]. by intros ?%elem_of_nil.
  - destruct (createPost_cases b c d)
      as [(Hinv & msg & H) | (t & ds & f & _ & _ & _ & _ &
                     [[_ H] | (url & l & d2 & _ & Fl & _ & _ &
                               [(e & H & _) | (ids & _ & _ & H)])])];
      simpl in H; rewrite H; unfold trace_of; simpl.
    + by intros ?%elem_of_nil.
    + intros [?|?%elem_of_nil]%elem_of_cons; [discriminate | done].
    + intros [?|Hin]%elem_of_cons; [discriminate|].
      by apply destroy_not_among_tag_inserts in Hin.
    + intros [?|[Hin|Hin]%elem_of_app]%elem_of_cons; [discriminate| |].
      * by apply destroy_not_among_tag_inserts in Hin.
      * apply list_elem_of_singleton in Hin. discriminate.
  - destruct (getPost_pure id c d) as [_ ->]. by intros ?%elem_of_nil.
  - destruct id as [id|raw]; [|by intros ?%elem_of_nil].
    destruct (db_posts d !! id) as [post|] eqn:Hl.
    + destruct (updatePost_trace_shape id b c d post Hl)
        as (pre & l & fin & -> & Fl & Hfin & Hpre).
      intros [Hin|[Hin|Hin]%elem_of_app]%elem_of_app.
      * destruct Hpre as [-> | [[f ->] | (f & url & ->)]].
        -- by apply elem_of_nil in Hin.
        -- apply list_elem_of_singleton in Hin. discriminate.
        -- apply elem_of_cons in Hin as [Hin|Hin]; [discriminate|].
           apply list_elem_of_singleton in Hin. injection Hin as -> ->.
           exists id, post. split; [right; by eexists | done].
      * by apply destroy_not_among_tag_inserts in Hin.
      * destruct Hfin as [-> | [p ->]]; [by apply elem_of_nil in Hin|].
        apply list_elem_of_singleton in Hin. discriminate.
    + rewrite (updatePost_missing _ _ _ _ Hl). by intros ?%elem_of_nil.
  - destruct id as [id|raw]; [|by intros ?%elem_of_nil].
    rewrite deletePost_eval. destruct (db_posts d !! id) as [post|] eqn:Hl;
      [|by intros ?%elem_of_nil].
    simpl. destruct (destroy_ok c) eqn:Hok; unfold trace_of; simpl.
    + intros [Hin|Hin]%elem_of_cons.
      * injection Hin as -> ->. exists id, post. split; [by left | done].
      * apply list_elem_of_singleton in Hin. discriminate.
    + intros Hin%list_elem_of_singleton. injection Hin as -> ->.
      exists id, post. split; [by left | done].
  - destruct (searchPosts_pure sp c d) as [_ ->]. by intros ?%elem_of_nil.
  - by intros ?%elem_of_nil.
  - rewrite createTag_eval. destruct name as [n|]; [|by intros ?%elem_of_nil].
    destruct (negb _); [by intros ?%elem_of_nil|].
    destruct (tag_of_name d n); [by intros ?%elem_of_nil|].
    destruct (_ && _); unfold trace_of; simpl; [|by intros ?%elem_of_nil].
    intros Hin%list_elem_of_singleton. discriminate.
Qed.

End BlobCalls.

(** ** The public id of an image URL *)

Section PublicId.

Lemma split_nonempty (sep : ascii) (s : string) : Js.split sep s <> [].
Proof.
  destruct s as [|c r]; simpl; [discriminate|].
  destruct (Ascii.eqb c sep); [discriminate|]. by destruct (Js.split sep r).
Qed.

Lemma split_app_sep (sep : ascii) (s1 s2 : string) :
  Js.split sep (s1 +:+ String sep s2) = Js.split sep s1 ++ Js.split sep s2.
Proof.
  induction s1 as [|c r IH]; simpl.
  - by rewrite Ascii.eqb_refl.
  - destruct (Ascii.eqb c sep); [by rewrite IH|].
    change (String.append r (String sep s2)) with (r +:+ String sep s2).
    rewrite IH. pose proof (split_nonempty sep r).
    by destruct (Js.split sep r).
Qed.

Lemma split_no_sep (sep : ascii) (s : string) :
  has_no sep s = true -> Js.split sep s = [s].
Proof.
  unfold has_no. induction s as [|c r IH]; simpl; [reflexivity|].
  intros [Hc Hr]%andb_true_iff. apply negb_true_iff in Hc. by rewrite Hc, (IH Hr).
Qed.

Lemma split_pieces_have_no (sep x : ascii) (s : string) :
  x = sep \/ has_no x s = true -> Forall (fun p => has_no x p = true) (Js.split sep s).
Proof.
  unfold has_no. induction s as [|c r IH]; simpl; intros H; [by repeat constructor|].
  destruct (Ascii.eqb c sep) eqn:Hc.
  - constructor; [reflexivity|]. apply IH. destruct H as [H | H]; [by left|].
    right. by apply andb_true_iff in H as [_ H].
  - assert (Hx : negb (Ascii.eqb c x) = true).
    { destruct H as [-> | H]; [by rewrite Hc | by apply andb_true_iff in H as [H _]]. }
    assert (Hr : Forall (fun p => all_chars (fun y => negb (Ascii.eqb y x)) p = true)
                   (Js.split sep r)).
    { apply IH. destruct H as [H | H]; [by left|].
      right. by apply andb_true_iff in H as [_ H]. }
    destruct (Js.split sep r) as [|h t];
      [constructor; [simpl; by rewrite Hx | constructor]|].
    inversion Hr; subst. constructor; [simpl; by rewrite Hx | done].
Qed.

Lemma last_app_nonempty {A} (l l' : list A) (x : A) :
  l' <> [] -> List.last (l ++ l') x = List.last l' x.
Proof.
  intros Hne. induction l as [|a l IH]; [reflexivity|].
  simpl. destruct (l ++ l') eqn:E; [|exact IH].
  apply app_eq_nil in E as [_ ->]. contradiction.
Qed.

Lemma last_in_Forall {A} (P : A -> Prop) (l : list A) (x : A) :
  l <> [] -> Forall P l -> P (List.last l x).
Proof.
  induction l as [|a l IH]; [contradiction|]. intros _ HF. inversion HF; subst.
  destruct l as [|b l]; [done|]. apply IH; [discriminate | done].
Qed.

(** X14. The public id that deleteFromCloud asks Cloudinary to destroy
    is "posts-api/" followed by the last path segment of the image URL
    cut at its first dot: it never contains a further slash or a dot.
    For a URL that ends in [/name.ext] it is [posts-api/name] whatever
    precedes, so the folders of the URL are ignored. *)
Theorem fullPublicId_is_last_segment_before_dot (url base name ext : string) :
  (exists pid, fullPublicId url = "posts-api/" +:+ pid
               /\ has_no "/" pid = true /\ has_no "." pid = true)
  /\ (has_no "/" name = true -> has_no "." name = true -> has_no "/" ext = true ->
      fullPublicId (base +:+ String "/" (name +:+ String "." ext)) = "posts-api/" +:+ name).
Proof.
  split.
  - unfold fullPublicId, last_piece, first_piece. eexists. split; [reflexivity|].
    pose proof (last_in_Forall _ _ EmptyString (split_nonempty "/" url)
                  (split_pieces_have_no "/" "/" url (or_introl eq_refl))) as Hlast.
    simpl in Hlast.
    pose proof (split_pieces_have_no "." "/" _ (or_intror Hlast)) as H1.
    pose proof (split_pieces_have_no "." "." (List.last (Js.split "/" url) EmptyString)
                  (or_introl eq_refl)) as H2.
    destruct (Js.split "." _) as [|h t]; [done|].
    inversion H1; inversion H2; subst. by split.
  - intros Hn1 Hn2 He. unfold fullPublicId, last_piece, first_piece.
    rewrite split_app_sep, (last_app_nonempty _ _ _ (split_nonempty _ _)).
    assert (Hs : has_no "/" (name +:+ String "." ext) = true).
    { clear Hn2. unfold has_no in *. induction name as [|c r IH]; simpl in *; [exact He|].
      apply andb_true_iff in Hn1 as [Hc Hr]. by rewrite Hc, (IH Hr). }
    rewrite (split_no_sep _ _ Hs). simpl.
    by rewrite split_app_sep, (split_no_sep _ _ Hn2).
Qed.

End PublicId.

(** ** Invariants of the store *)

Section Invariants.

Context (I : Db -> Prop).

Global Instance keeps_preorder : PreOrder (keeps I).
Proof. split; [intros w H; exact H | intros a b c H1 H2 H; unfold keeps in *; auto]. Qed.

Lemma same_db_keeps w w' : same_db w w' -> keeps I w w'.
Proof. unfold same_db, keeps. by intros ->. Qed.

Hypothesis Tag_create_keeps : forall name slug, respects (keeps I) (Tag_create name slug).
Hypothesis Post_create_keeps :
  forall t ds u tags, respects (keeps I) (Post_create t ds u tags).
Hypothesis Post_findByIdAndUpdate_keeps :
  forall id t ds u tags, respects (keeps I) (Post_findByIdAndUpdate id t ds u tags).
Hypothesis Post_findByIdAndDelete_keeps :
  forall id, respects (keeps I) (Post_findByIdAndDelete id).

Ltac keeps_auto :=
  repeat first
    [ solve [eauto using same_db_keeps with respects]
    | solve [eapply (respects_weaken same_db); [apply same_db_keeps | eauto with respects]]
    | apply respects_ret; try apply _
    | apply respects_throw; try apply _
    | apply respects_ask; try apply _
    | apply respects_get_db; try apply _
    | apply respects_try_catch; try apply _
    | apply respects_bind; [try apply _ ..|intros ?]
    | apply respects_for_each; [try apply _ ..|intros ?]
    | match goal with
      | |- respects _ (match ?x with _ => _ end) => destruct x
      | |- respects _ (let _ := _ in _) => cbv zeta
      end ].

Lemma process_tags_keeps tags : respects (keeps I) (process_tags tags).
Proof. unfold process_tags, resolveTags, resolveTag. keeps_auto. Qed.

(** An invariant that the four writes of the stores keep is kept by
    every handler. *)
Lemma route_keeps (r : Request) : respects (keeps I) (route r).
Proof.
  pose proof process_tags_keeps.
  destruct r; simpl;
    unfold getPosts, createPost, getPost, updatePost, deletePost, searchPosts,
      getTags, createTag;
    keeps_auto.
Qed.

Lemma serve_keeps (reqs : list (Request * Cloud)) (d : Db) : I d -> I (serve reqs d).
Proof.
  revert d. induction reqs as [|[r c] reqs IH]; intros d Hd; simpl; [exact Hd|].
  apply IH. rewrite exec_db_of. by apply (route_keeps r c (mkWorld d [])).
Qed.

Lemma initDatabase_keeps : respects (keeps I) initDatabase.
Proof. unfold initDatabase, seed_tag. keeps_auto. Qed.

End Invariants.

Section StoreInvariants.

Lemma new_id_fresh_tag (d : Db) : new_id d ∉ (tag_id <$> db_tags d).
Proof.
  unfold new_id. intros Hin.
  eapply (is_fresh (dom (db_posts d) ∪ list_to_set (tag_id <$> db_tags d) : gset nat)).
  apply elem_of_union. right. by apply elem_of_list_to_set.
Qed.

Lemma keeps_of_same_posts (I : Db -> Prop) {A} (m : M A) :
  (forall d d', db_posts d' = db_posts d -> I d -> I d') ->
  respects same_posts m -> respects (keeps I) m.
Proof. intros HI Hm c w Hw. eapply HI; [apply Hm | exact Hw]. Qed.

Lemma keeps_of_same_tags (I : Db -> Prop) {A} (m : M A) :
  (forall d d', db_tags d' = db_tags d -> I d -> I d') ->
  respects same_tags m -> respects (keeps I) m.
Proof. intros HI Hm c w Hw. eapply HI; [apply Hm | exact Hw]. Qed.

(** *** Posts are stored under their own identifier *)

Lemma posts_keyed_route (r : Request) : respects (keeps posts_keyed) (route r).
Proof.
  apply route_keeps.
  - intros name slug. apply keeps_of_same_posts; [|apply Tag_create_same_posts].
    intros d d' H. unfold posts_keyed. by rewrite H.
  - intros t ds u tags c [d tr]. unfold Post_create.
    destruct (Post_validate _ _ _); [done|].
    unfold bind, get_db, put_db, emit, ret; simpl. intros Hk i q. simpl.
    rewrite lookup_insert. case_decide; [by intros [= <-] | apply Hk].
  - intros [id|raw] t ds u tags c [d tr]; [|by intros ?].
    unfold Post_findByIdAndUpdate, castObjectId. unfold bind at 1. simpl.
    destruct (Post_validate _ _ _); [done|].
    unfold bind, get_db; simpl. destruct (db_posts d !! id) as [old|] eqn:Hold; [|done].
    simpl. intros Hk i q. simpl. rewrite lookup_insert.
    case_decide; [intros [= <-]; simpl; subst; by apply Hk | apply Hk].
  - intros [id|raw] c [d tr]; [|by intros ?].
    unfold Post_findByIdAndDelete, castObjectId.
    unfold bind, get_db; simpl. destruct (db_posts d !! id); [|done].
    simpl. intros Hk i q. simpl. rewrite lookup_delete.
    case_decide; [discriminate | apply Hk].
Qed.

(** *** Tags have pairwise distinct identifiers and names *)

Lemma same_tags_keeps_tag_invariant (J : list Tag -> Prop) {A} (m : M A) :
  respects same_tags m -> respects (keeps (fun d => J (db_tags d))) m.
Proof. intros Hm. apply keeps_of_same_tags; [|exact Hm]. by intros d d' ->. Qed.

Lemma tag_ids_distinct_route (r : Request) : respects (keeps tag_ids_distinct) (route r).
Proof.
  apply route_keeps;
    try solve [intros; apply (same_tags_keeps_tag_invariant (fun l => NoDup (tag_id <$> l)));
               eauto with respects].
  intros name slug c [d tr]. unfold Tag_create.
  destruct (Tag_validate _ _); [done|].
  unfold bind, get_db; simpl.
  destruct (existsb _ _); [done|]. destruct (existsb _ _); [done|].
  simpl. unfold keeps, tag_ids_distinct; simpl. intros Hu.
  rewrite fmap_app. apply NoDup_app. split; [exact Hu|]. split; [|apply NoDup_singleton].
  intros x Hx Hx'. apply list_elem_of_singleton in Hx'. subst x.
  by apply new_id_fresh_tag in Hx.
Qed.

Lemma existsb_name_is_false (name : string) (l : list Tag) :
  existsb (name_is name) l = false -> name ∉ (tag_name <$> l).
Proof.
  induction l as [|t l IH]; simpl; intros H; [apply not_elem_of_nil|].
  apply orb_false_iff in H as [Ht Hl]. rewrite not_elem_of_cons. split; [|auto].
  unfold name_is in Ht. apply bool_decide_eq_false in Ht. congruence.
Qed.

Lemma unique_names_route (r : Request) : respects (keeps unique_names) (route r).
Proof.
  apply route_keeps;
    try solve [intros; apply (same_tags_keeps_tag_invariant (fun l => NoDup (tag_name <$> l)));
               eauto with respects].
  intros name slug c [d tr]. unfold Tag_create.
  destruct (Tag_validate _ _); [done|].
  unfold bind, get_db; simpl.
  destruct (existsb (name_is _) _) eqn:Hn; [done|].
  destruct (existsb (slug_is _) _); [done|].
  simpl. unfold keeps, unique_names; simpl. intros Hu.
  rewrite fmap_app. apply NoDup_app. split; [exact Hu|]. split; [|apply NoDup_singleton].
  intros x Hx Hx'. apply list_elem_of_singleton in Hx'. subst x.
  by apply existsb_name_is_false in Hn.
Qed.

(** X15. Identifiers and names stay unique: if every post is stored
    under its own identifier and no two tags share an identifier or a
    name, the same holds after any sequence of requests; it holds of the
    empty store. *)
Theorem serve_keeps_identifiers_and_names_unique (reqs : list (Request * Cloud)) (d : Db) :
  (posts_keyed d -> posts_keyed (serve reqs d))
  /\ (tag_ids_distinct d -> tag_ids_distinct (serve reqs d))
  /\ (unique_names d -> unique_names (serve reqs d))
  /\ (posts_keyed empty_db /\ tag_ids_distinct empty_db /\ unique_names empty_db).
Proof.
  split; [|split; [|split]].
  - revert d. induction reqs as [|[r c] reqs IH]; intros d Hd; simpl; [exact Hd|].
    apply IH. rewrite exec_db_of. by apply (posts_keyed_route r c (mkWorld d [])).
  - revert d. induction reqs as [|[r c] reqs IH]; intros d Hd; simpl; [exact Hd|].
    apply IH. rewrite exec_db_of. by apply (tag_ids_distinct_route r c (mkWorld d [])).
  - revert d. induction reqs as [|[r c] reqs IH]; intros d Hd; simpl; [exact Hd|].
    apply IH. rewrite exec_db_of. by apply (unique_names_route r c (mkWorld d [])).
  - split; [|split; apply NoDup_nil_2]. intros id p H. simpl in H.
    by rewrite lookup_empty in H.
Qed.

End StoreInvariants.

Section SchemaValidity.

Lemma toLowerCase_idempotent (s : string) :
  Js.toLowerCase (Js.toLowerCase s) = Js.toLowerCase s.
Proof.
  unfold Js.toLowerCase. rewrite map_chars_compose. apply map_chars_ext.
  intros c. destruct c as [[] [] [] [] [] [] [] []]; vm_compute; reflexivity.
Qed.

Lemma Post_validate_ok (title description imageUrl : string) (id : ObjectId)
    (tags : list ObjectId) :
  Post_validate (Js.trim title) description imageUrl = None ->
  post_ok (mkPost id (Js.trim title) description imageUrl tags).
Proof.
  unfold Post_validate, post_ok. simpl.
  destruct (Js.trim title) as [|a s] eqn:Et; [discriminate|]. simpl.
  destruct (200 <? _) eqn:H200; [discriminate|]. apply Z.ltb_ge in H200.
  destruct description as [|a' s']; [discriminate|]. simpl.
  destruct (5000 <? _) eqn:H5000; [discriminate|]. apply Z.ltb_ge in H5000.
  destruct imageUrl; [discriminate|]. intros _.
  split; [done|]. split; [simpl in *; lia|]. split; [by rewrite <- Et, trim_idempotent|].
  split; [done|]. split; [simpl in *; lia | done].
Qed.

Lemma schema_valid_route (r : Request) : respects (keeps schema_valid) (route r).
Proof.
  apply route_keeps.
  - intros name slug c [d tr]. unfold Tag_create.
    destruct (Tag_validate _ _) eqn:Hv; [done|].
    unfold bind, get_db; simpl.
    destruct (existsb (name_is _) _); [done|]. destruct (existsb (slug_is _) _); [done|].
    simpl. intros [Ht Hp]. split; [|exact Hp]. simpl.
    intros t [Hin | Hin%list_elem_of_singleton]%elem_of_app; [by apply Ht|]. subst t.
    apply Tag_validate_cases in Hv as (H1 & H2 & H3). unfold tag_ok; simpl.
    split; [done|]. split; [done|]. split; [apply trim_idempotent|].
    split; [done | apply toLowerCase_idempotent].
  - intros t ds u tags c [d tr]. unfold Post_create.
    destruct (Post_validate _ _ _) eqn:Hv; [done|].
    unfold bind, get_db, put_db, emit, ret; simpl. intros [Ht Hp]. split; [exact Ht|].
    simpl. intros i q. rewrite lookup_insert.
    case_decide; [intros [= <-]; by apply Post_validate_ok | apply Hp].
  - intros [id|raw] t ds u tags c [d tr]; [|by intros ?].
    unfold Post_findByIdAndUpdate, castObjectId. unfold bind at 1. simpl.
    destruct (Post_validate _ _ _) eqn:Hv; [done|].
    unfold bind, get_db; simpl. destruct (db_posts d !! id) as [old|]; [|done].
    simpl. intros [Ht Hp]. split; [exact Ht|].
    simpl. intros i q. rewrite lookup_insert.
    case_decide; [intros [= <-]; by apply Post_validate_ok | apply Hp].
  - intros [id|raw] c [d tr]; [|by intros ?].
    unfold Post_findByIdAndDelete, castObjectId.
    unfold bind, get_db; simpl. destruct (db_posts d !! id); [|done].
    simpl. intros [Ht Hp]. split; [exact Ht|].
    simpl. intros i q. rewrite lookup_delete. case_decide; [discriminate | apply Hp].
Qed.

(** X16. Every document written through the handlers satisfies its
    schema: if all stored tags have a non-empty trimmed name of at most
    50 characters and a non-empty lower-case slug, and all stored posts
    a non-empty trimmed title of at most 200 characters, a non-empty
    description of at most 5000 characters and a non-empty image URL,
    then so it is after any sequence of requests. *)
Theorem serve_keeps_schema_valid (reqs : list (Request * Cloud)) (d : Db) :
  schema_valid d -> schema_valid (serve reqs d).
Proof.
  revert d. induction reqs as [|[r c] reqs IH]; intros d Hd; simpl; [exact Hd|].
  apply IH. rewrite exec_db_of. by apply (schema_valid_route r c (mkWorld d [])).
Qed.

End SchemaValidity.

Section References.

Lemma references_extend (d d' : Db) :
  (exists l, db_tags d' = db_tags d ++ l) ->
  references_resolve d ->
  (forall id p, db_posts d' !! id = Some p ->
                db_posts d !! id = Some p
                \/ forall i, i ∈ post_tags p -> exists t, t ∈ db_tags d' /\ tag_id t = i) ->
  references_resolve d'.
Proof.
  intros [l Hl] Hd Hp id p i Hid Hi.
  destruct (Hp id p Hid) as [Hold | Hnew]; [|by apply Hnew].
  destruct (Hd id p i Hold Hi) as (t & Ht & <-).
  exists t. split; [|reflexivity]. rewrite Hl. apply elem_of_app. by left.
Qed.

Lemma resolved_ids_are_stored (names : list string) (c : Cloud) (w w' : World)
    (ids : list ObjectId) :
  resolveTags names c w = (Ret ids, w') ->
  forall i, i ∈ ids -> exists t, t ∈ db_tags (w_db w') /\ tag_id t = i.
Proof.
  intros Hr i Hi. destruct (resolveTags_pass _ _ _ _ _ Hr) as [HF _].
  apply list_elem_of_lookup in Hi as [k Hk].
  destruct (Forall2_lookup_r _ _ _ _ _ HF Hk) as (n & _ & t & Ht & <-).
  exists t. split; [|reflexivity]. unfold tag_of_name in Ht.
  apply find_some in Ht as [Hin _]. by apply list_elem_of_In.
Qed.

Lemma references_route (r : Request) (c : Cloud) (d : Db) :
  references_resolve d -> references_resolve (db_of (exec (route r) c d)).
Proof.
  intros Hd.
  assert (Hgrow : exists l, db_tags (db_of (exec (route r) c d)) = db_tags d ++ l).
  { rewrite exec_db_of. apply (route_tags_grow r c (mkWorld d [])). }
  apply (references_extend d _ Hgrow Hd). clear Hgrow.
  destruct r as [lp | b | id | id b | id | sp | | name]; simpl.
  - destruct (getPosts_pure lp c d) as [-> _]. auto.
  - destruct (createPost_cases b c d)
      as [(Hinv & msg & H) | (t & ds & f & _ & _ & _ & _ &
                     [[_ H] | (url & l & d2 & _ & Fl & Hsp & _ &
                               [(e & H & _) | (ids & Hrun & _ & H)])])];
      simpl in H; rewrite H; unfold db_of; simpl; auto.
    + rewrite Hsp. auto.
    + intros id p. rewrite lookup_insert. case_decide; [|auto].
      intros [= <-]. right. simpl. rewrite process_tags_names_of in Hrun.
      unfold run in Hrun. destruct (resolveTags _ c _) as [r0 w0] eqn:Hr.
      injection Hrun as -> <-. by apply (resolved_ids_are_stored _ _ _ _ _ Hr).
  - destruct (getPost_pure id c d) as [-> _]. auto.
  - destruct id as [id|raw]; [|auto].
    destruct (db_posts d !! id) as [post|] eqn:Hl.
    + destruct (updatePost_outcome id b c d post Hl)
        as [[_ Hp] | (url & [d1 t1] & ids & w2 & _ & Hd1 & Hpt & _ & _ & Hdb & _)].
      * rewrite Hp. auto.
      * rewrite Hdb. simpl in *. subst d1. intros i p.
        rewrite lookup_insert. case_decide; [|auto]. intros [= <-]. right. simpl.
        rewrite process_tags_names_of in Hpt.
        destruct ids as [|i0 ids]; simpl.
        -- intros j Hj. destruct (Hd id post j Hl Hj) as (t & Ht & <-).
           destruct (resolveTags_pass _ _ _ _ _ Hpt) as (_ & l & Htags & _).
           exists t. split; [|reflexivity]. rewrite Htags. simpl.
           apply elem_of_app. by left.
        -- by apply (resolved_ids_are_stored _ _ _ _ _ Hpt).
    + rewrite (updatePost_missing _ _ _ _ Hl). auto.
  - destruct id as [id|raw]; [|auto].
    rewrite deletePost_eval. destruct (db_posts d !! id) as [post|]; [|auto].
    simpl. destruct (destroy_ok c); unfold db_of; simpl; [|auto].
    intros i p. rewrite lookup_delete. case_decide; [discriminate | auto].
  - destruct (searchPosts_pure sp c d) as [-> _]. auto.
  - auto.
  - rewrite createTag_eval. destruct name as [n|]; [|auto].
    destruct (negb _); [auto|]. destruct (tag_of_name d n); [auto|].
    destruct (_ && _); unfold db_of; simpl; auto.
Qed.

(** X17. No dangling tag reference arises: if every tag reference of
    every stored post is the identifier of a stored tag, the same holds
    after any sequence of requests (tags are never removed, and a post
    is only ever given identifiers the resolver just returned); it holds
    of the empty store.  In such a store getPost returns every tag of
    the post. *)
Theorem serve_keeps_references_resolving (reqs : list (Request * Cloud)) (d : Db) :
  (references_resolve d -> references_resolve (serve reqs d))
  /\ references_resolve empty_db
  /\ (references_resolve d ->
      forall c id post, db_posts d !! id = Some post ->
        exists tags,
          data (response_of (exec (getPost (ValidId id)) c d)) = DataPost (Some (mkPopulated post tags))
          /\ tag_id <$> tags = post_tags post).
Proof.
  split; [|split].
  - revert d. induction reqs as [|[r c] reqs IH]; intros d Hd; simpl; [exact Hd|].
    by apply IH, references_route.
  - intros id p i H. simpl in H. by rewrite lookup_empty in H.
  - intros Hd c id post Hl. rewrite getPost_eval, Hl. unfold response_of; simpl.
    eexists. split; [reflexivity|]. apply populated_tags_all.
    intros i Hi. by apply (Hd id post).
Qed.

End References.

(** ** Listing by tags *)

(** X18. A listing request with a non-empty tags parameter that is
    answered 200 was given the filter that selects exactly the posts
    that reference at least one stored tag whose slug is among the slugs
    given (trimmed, and lower-cased as the schema casts them): the slugs
    are alternatives, not a conjunction.  The total reported is the
    number of posts so selected.  With the parameter absent or empty
    every post is selected.  The request is answered 200 whenever page,
    limit and sortBy are absent. *)
Theorem listing_by_tags_selects_posts_with_any_tag (r : ListParams) (c : Cloud) (d : Db) :
  let out := exec (getPosts r) c d in
  (forall tagFilter, lp_tags r = Some tagFilter -> tagFilter <> "" ->
     status (response_of out) = 200%nat ->
     exists f pred,
       (q_filter <$> page_query (response_of out)) = Some f
       /\ filter_pred f = Some pred
       /\ (forall p, pred p = true <->
             exists t, t ∈ db_tags d /\ tag_id t ∈ post_tags p
                       /\ tag_slug t ∈ (Js.toLowerCase <$> split_names tagFilter))
       /\ (pg_total <$> page_pagination (response_of out))
          = Some (Some (length (List.filter pred (all_posts d)))))
  /\ (lp_tags r = None \/ lp_tags r = Some "" ->
      status (response_of out) = 200%nat ->
      (q_filter <$> page_query (response_of out)) = Some FilterAll
      /\ (pg_total <$> page_pagination (response_of out))
         = Some (Some (length (all_posts d))))
  /\ (lp_page r = None -> lp_limit r = None -> lp_sortBy r = None ->
      status (response_of out) = 200%nat).
Proof.
  intros out. subst out. rewrite getPosts_eval. split; [|split].
  - intros tagFilter Ht Hne. rewrite Ht.
    assert (Htr : Js.truthy tagFilter = true) by (by destruct tagFilter).
    rewrite Htr. cbv zeta. destruct (store_answers c _); [intros _ | discriminate].
    unfold response_of, page_query, page_pagination,
      Post_countDocuments, Post_matching; simpl.
    do 2 eexists. split; [reflexivity|]. split; [reflexivity|]. split; [|reflexivity].
    intros p. rewrite existsb_exists. unfold tag_ids_with_slug_in. split.
    + intros (i & Hi & Hin). apply bool_decide_eq_true in Hin.
      apply list_elem_of_fmap in Hin as (t & -> & Hin).
      apply list_elem_of_In, filter_In in Hin as [Hin Hs].
      apply bool_decide_eq_true in Hs.
      exists t. split; [by apply list_elem_of_In|]. split; [by apply list_elem_of_In | done].
    + intros (t & Ht1 & Ht2 & Ht3). exists (tag_id t).
      split; [by apply list_elem_of_In|]. apply bool_decide_eq_true.
      apply list_elem_of_fmap. exists t. split; [reflexivity|].
      apply list_elem_of_In, filter_In. split; [by apply list_elem_of_In|].
      by apply bool_decide_eq_true.
  - intros [-> | ->]; cbv zeta; cbn [Js.truthy];
      (destruct (store_answers c _); [intros _ | discriminate]);
      unfold response_of, page_query, page_pagination,
        Post_countDocuments, Post_matching; simpl;
      (split; [reflexivity|]); do 2 f_equal;
      induction (all_posts d) as [|p l IH]; simpl; congruence.
  - intros Hp Hl Hs. cbv zeta. rewrite Hp, Hl, Hs.
    change (Number.or_default (ParseInt.parseInt (ParseInt.toString None) None) 1)
      with (Number.Fin 1).
    change (Number.or_default (ParseInt.parseInt (ParseInt.toString None) None) 10)
      with (Number.Fin 10).
    rewrite default_listing_answered; [reflexivity|].
    by destruct (lp_tags r) as [t|]; [destruct (Js.truthy t)|].
Qed.

(** ** The seeding script *)

Section InitDatabase.

Lemma seed_tag_step (td : string * string) (c : Cloud) (w w1 : World) (u : unit) :
  seed_tag td c w = (Ret u, w1) ->
  is_Some (List.find (slug_is (Js.toLowerCase td.2)) (db_tags (w_db w1)))
  /\ db_posts (w_db w1) = db_posts (w_db w)
  /\ exists l, db_tags (w_db w1) = db_tags (w_db w) ++ l /\ (length l <= 1)%nat.
Proof.
  unfold seed_tag, Tag_findOne. unfold bind at 1. unfold bind at 1. simpl.
  destruct (List.find _ (db_tags (w_db w))) as [t|] eqn:Hf.
  - intros [= <- <-]. rewrite Hf. split; [by eexists|]. split; [done|].
    exists []. split; [by rewrite app_nil_r | simpl; lia].
  - unfold bind at 1. destruct (Tag_create _ _ c w) as [[t|e] w'] eqn:Hc; [|discriminate].
    intros [= <- <-]. apply Tag_create_eval in Hc as [Hs Hd]. rewrite Hd. simpl.
    split; [|split; [done | exists [t]; split; [done | simpl; lia]]].
    exists t. apply find_snoc_None; [exact Hf|].
    unfold slug_is. by apply bool_decide_eq_true.
Qed.

Lemma seed_tags_pass (l : list (string * string)) (c : Cloud) (w w' : World) us :
  for_each seed_tag l c w = (Ret us, w') ->
  Forall (fun td => is_Some (List.find (slug_is (Js.toLowerCase td.2)) (db_tags (w_db w')))) l
  /\ db_posts (w_db w') = db_posts (w_db w)
  /\ exists l', db_tags (w_db w') = db_tags (w_db w) ++ l' /\ (length l' <= length l)%nat.
Proof.
  revert w us. induction l as [|td l IH]; intros w us; simpl.
  - intros [= <- <-]. split; [constructor|]. split; [done|]. exists []. by rewrite app_nil_r.
  - unfold bind at 1. destruct (seed_tag td c w) as [[u|e] w1] eqn:Hs; [|discriminate].
    unfold bind at 1. destruct (for_each seed_tag l c w1) as [[us1|e] w2] eqn:Hr; [|discriminate].
    intros [= <- <-]. destruct (IH _ _ Hr) as (IHF & IHp & l2 & Hl2 & Hlen2).
    apply seed_tag_step in Hs as ([t Ht] & Hp & l1 & Hl1 & Hlen1).
    split; [|split].
    + constructor; [|exact IHF]. exists t. rewrite Hl2. by apply find_app_Some.
    + congruence.
    + exists (l1 ++ l2). split; [by rewrite Hl2, Hl1, app_assoc|].
      rewrite length_app. lia.
Qed.

Lemma seed_tag_found (td : string * string) (c : Cloud) (w : World) :
  is_Some (List.find (slug_is (Js.toLowerCase td.2)) (db_tags (w_db w))) ->
  seed_tag td c w = (Ret tt, w).
Proof.
  intros [t Ht]. unfold seed_tag, Tag_findOne, bind, get_db, ret. simpl. by rewrite Ht.
Qed.

Lemma seed_tags_again (l : list (string * string)) (c : Cloud) (w : World) :
  Forall (fun td => is_Some (List.find (slug_is (Js.toLowerCase td.2)) (db_tags (w_db w)))) l ->
  exists us, for_each seed_tag l c w = (Ret us, w).
Proof.
  induction l as [|td l IH]; intros HF; simpl; [by eexists|].
  inversion HF as [|? ? Ht HF']; subst. destruct (IH HF') as [us Hus].
  exists (tt :: us). unfold bind at 1. rewrite (seed_tag_found _ _ _ Ht).
  unfold bind at 1. by rewrite Hus.
Qed.

(** X19. The seeding script is idempotent: a run that completes leaves
    a store in which every sample slug is the slug of a stored tag, it
    only appended tags (at most six) and left the posts alone, and a
    further run on that store completes without changing anything. *)
Theorem initDatabase_is_idempotent (c c' : Cloud) (d d1 : Db) :
  run initDatabase c d = (Ret tt, d1) ->
  run initDatabase c' d1 = (Ret tt, d1)
  /\ (forall name slug, (name, slug) ∈ sampleTags ->
        exists t, t ∈ db_tags d1 /\ tag_slug t = slug)
  /\ (exists l, db_tags d1 = db_tags d ++ l /\ (length l <= 6)%nat)
  /\ db_posts d1 = db_posts d.
Proof.
  unfold run, initDatabase. unfold bind at 1.
  destruct (for_each seed_tag sampleTags c (mkWorld d [])) as [[us|e] w'] eqn:Hr;
    [|discriminate].
  intros [= <-]. destruct (seed_tags_pass _ _ _ _ _ Hr) as (HF & Hp & Hg).
  split; [|split; [|split; [exact Hg | exact Hp]]].
  - destruct (seed_tags_again sampleTags c' (mkWorld (w_db w') []) HF) as [us' Hus].
    unfold bind at 1. by rewrite Hus.
  - intros name slug Hin. rewrite Forall_forall in HF.
    destruct (HF _ Hin) as [t Ht]. apply find_some in Ht as [Ht Hs].
    exists t. split; [by apply list_elem_of_In|].
    unfold slug_is in Hs. apply bool_decide_eq_true in Hs. rewrite Hs. simpl.
    unfold sampleTags in Hin.
    repeat (apply elem_of_cons in Hin as [[= -> ->] | Hin]; [reflexivity|]).
    by apply elem_of_nil in Hin.
Qed.

End InitDatabase.

(** ** Requests one after the other *)

Section Composition.

(** X20. Creation and deletion undo each other on the post collection:
    after createPost answered 201, a deletePost of the identifier it
    returned asks the blob store to destroy the public id of the URL
    that the upload returned and, when that succeeds, answers 200 and
    leaves the post collection exactly as it was before the creation
    (the tags that the creation added stay).  When the blob store
    refuses, the answer is 500 and the created post stays. *)
Theorem createPost_then_deletePost_restores_posts (b : PostBody) (c c' : Cloud) (d : Db) :
  let out := exec (createPost b) c d in
  status (response_of out) = 201%nat ->
  exists p url,
    data (response_of out) = DataPost (Some (populated (db_of out) p))
    /\ upload_result c = Some url
    /\ let out' := exec (deletePost (ValidId (post_id p))) c' (db_of out) in
       (destroy_ok c' = true ->
          status (response_of out') = 200%nat
          /\ trace_of out' = [EvDestroy (fullPublicId url) true; EvPostDelete (post_id p)]
          /\ db_posts (db_of out') = db_posts d
          /\ db_tags (db_of out') = db_tags (db_of out))
       /\ (destroy_ok c' = false ->
          status (response_of out') = 500%nat /\ db_of out' = db_of out).
Proof.
  intros out.
  destruct (createPost_cases b c d)
    as [(Hinv & msg & H) | (t & ds & f & Ht & Hd & Hf & _ &
                   [[Hu H] | (url & l & d2 & Hu & Fl & Hsp & Hg &
                              [(e & H & _) | (ids & Hrun & Hv & H)])])];
    fold out in H; rewrite H; unfold response_of, db_of; simpl; try discriminate.
  intros _. eexists _, url. split; [reflexivity|]. split; [exact Hu|].
  rewrite deletePost_eval. simpl. rewrite lookup_insert_eq. simpl.
  assert (Hfresh : db_posts d !! new_id d2 = None)
    by (rewrite <- Hsp; apply new_id_fresh_post).
  split; intros ->; simpl; [|by split].
  split; [reflexivity|]. split; [reflexivity|]. split; [|reflexivity].
  by apply delete_insert_id.
Qed.

Lemma all_posts_length (d : Db) : length (all_posts d) = post_count d.
Proof. unfold all_posts, post_count. by rewrite length_fmap, length_map_to_list. Qed.

Lemma filter_all {A} (l : list A) : List.filter (fun _ => true) l = l.
Proof. induction l as [|x l IH]; simpl; congruence. Qed.

(** Whether a listing without tags is answered does not depend on the
    store; when it is, its total is the number of posts. *)
Lemma unfiltered_total (lp : ListParams) (c : Cloud) (d d' : Db) :
  lp_tags lp = None ->
  status (response_of (exec (getPosts lp) c d)) = 200%nat ->
  (pg_total <$> page_pagination (response_of (exec (getPosts lp) c d')))
  = Some (Some (post_count d')).
Proof.
  intros Hl. rewrite !getPosts_eval, Hl. cbv zeta.
  destruct (store_answers c _); [intros _ | discriminate].
  unfold response_of, page_pagination, Post_countDocuments, Post_matching. simpl.
  by rewrite filter_all, all_posts_length.
Qed.

(** The number of posts after a request. *)
Lemma route_post_count (r : Request) (c : Cloud) (d : Db) :
  let out := exec (route r) c d in
  post_count (db_of out) =
  match r with
  | POST_posts _ =>
      if bool_decide (status (response_of out) = 201%nat)
      then S (post_count d) else post_count d
  | DELETE_post _ =>
      if bool_decide (status (response_of out) = 200%nat)
      then pred (post_count d) else post_count d
  | _ => post_count d
  end
  /\ (forall id, r = DELETE_post id -> status (response_of out) = 200%nat ->
        (0 < post_count d)%nat).
Proof.
  intros out. subst out. unfold post_count.
  destruct r as [lp | b | id | id b | id | sp | | name]; simpl;
    (split; [|try discriminate]).
  - by destruct (getPosts_pure lp c d) as [-> _].
  - destruct (createPost_cases b c d)
      as [(Hinv & msg & H) | (t & ds & f & _ & _ & _ & _ &
                     [[_ H] | (url & l & d2 & _ & Fl & Hsp & _ &
                               [(e & H & _) | (ids & _ & _ & H)])])];
      simpl in H; rewrite H; unfold db_of, response_of; simpl; try done.
    + by rewrite Hsp.
    + apply map_size_insert_None. rewrite <- Hsp. apply new_id_fresh_post.
  - by destruct (getPost_pure id c d) as [-> _].
  - destruct id as [id|raw]; [|done].
    destruct (db_posts d !! id) as [post|] eqn:Hl.
    + destruct (updatePost_outcome id b c d post Hl)
        as [[_ ->] | (url & w1 & ids & w2 & _ & _ & _ & _ & _ & -> & _)]; [done|].
      simpl. by apply map_size_insert_Some.
    + by rewrite (updatePost_missing _ _ _ _ Hl).
  - destruct id as [id|raw]; [|done].
    rewrite deletePost_eval. destruct (db_posts d !! id) as [post|] eqn:Hl; [|done].
    simpl. destruct (destroy_ok c); unfold db_of, response_of; simpl; [|done].
    by apply map_size_delete_Some.
  - intros id' [= <-]. destruct id as [id|raw]; [|discriminate]. rewrite deletePost_eval.
    destruct (db_posts d !! id) as [post|] eqn:Hl; [|discriminate].
    intros _. apply Nat.neq_0_lt_0, (map_size_ne_0_lookup_2 _ id). by rewrite Hl.
  - by destruct (searchPosts_pure sp c d) as [-> _].
  - done.
  - rewrite createTag_eval. destruct name as [n|]; [|done].
    destruct (negb _); [done|]. destruct (tag_of_name d n); [done|].
    by destruct (_ && _).
Qed.

(** X21. The total that a listing without tags parameter reports, when
    the listing is answered 200, is the number of stored posts.  It
    grows by exactly one with a createPost that answers 201, shrinks by
    exactly one with a deletePost that answers 200, and is the same
    after every other request and after every other answer. *)
Theorem unfiltered_total_counts_posts
    (lp : ListParams) (r : Request) (c c' : Cloud) (d : Db) :
  lp_tags lp = None ->
  status (response_of (exec (getPosts lp) c' d)) = 200%nat ->
  let total d := pg_total <$> page_pagination (response_of (exec (getPosts lp) c' d)) in
  let out := exec (route r) c d in
  let n := post_count d in
  total d = Some (Some n)
  /\ total (db_of out) =
     Some (Some match r with
                | POST_posts _ =>
                    if bool_decide (status (response_of out) = 201%nat) then S n else n
                | DELETE_post _ =>
                    if bool_decide (status (response_of out) = 200%nat) then pred n else n
                | _ => n
                end)
  /\ (forall id, r = DELETE_post id -> status (response_of out) = 200%nat -> (0 < n)%nat).
Proof.
  intros Hl Hs total out n. subst total out n. cbv beta.
  destruct (route_post_count r c d) as [Hsize Hpos].
  split; [by apply (unfiltered_total lp c' d)|]. split; [|exact Hpos].
  rewrite (unfiltered_total lp c' d _ Hl Hs). do 2 f_equal. exact Hsize.
Qed.

End Composition.

(** ** Empty tag names *)

Section EmptyTagName.

Lemma find_slug_none (l : list Tag) :
  Forall (fun t => tag_slug t <> "") l -> List.find (slug_is "") l = None.
Proof.
  induction 1 as [|t l Ht _ IH]; simpl; [reflexivity|].
  unfold slug_is at 1. by rewrite bool_decide_eq_false_2.
Qed.

Lemma Tag_create_slug_nonempty (name slug : string) (c : Cloud) (w : World) t w' :
  Tag_create name slug c w = (Ret t, w') -> tag_slug t <> "".
Proof.
  unfold Tag_create. destruct (Tag_validate _ _) eqn:Hv; [discriminate|].
  apply Tag_validate_cases in Hv as (_ & _ & Hs).
  unfold bind, get_db; simpl.
  destruct (existsb _ _); [discriminate|]. destruct (existsb _ _); [discriminate|].
  simpl. by intros [= <- _].
Qed.

Lemma resolveTag_empty_name (c : Cloud) (w : World) :
  Forall (fun t => tag_slug t <> "") (db_tags (w_db w)) ->
  resolveTag "" c w = (Throw (ValidatorError "name" "required"), w).
Proof.
  intros HF. rewrite resolveTag_eval.
  change (slugify "") with "". by rewrite (find_slug_none _ HF).
Qed.

Lemma resolveTag_keeps_slugs_nonempty (name : string) (c : Cloud) (w w1 : World) i :
  resolveTag name c w = (Ret i, w1) ->
  Forall (fun t => tag_slug t <> "") (db_tags (w_db w)) ->
  Forall (fun t => tag_slug t <> "") (db_tags (w_db w1)).
Proof.
  rewrite resolveTag_eval. destruct (List.find _ _); [by intros [= _ <-]|].
  destruct (Tag_create _ _ c w) as [[t|e] w'] eqn:Hc; [|discriminate].
  intros [= _ <-] HF. pose proof (Tag_create_slug_nonempty _ _ _ _ _ _ Hc) as Hs.
  apply Tag_create_eval in Hc as [_ ->]. simpl.
  apply Forall_app. split; [exact HF | by constructor].
Qed.

Lemma resolveTags_empty_name (names : list string) (c : Cloud) (w : World) :
  "" ∈ names ->
  Forall (fun t => tag_slug t <> "") (db_tags (w_db w)) ->
  exists e w', resolveTags names c w = (Throw e, w').
Proof.
  unfold resolveTags. revert w. induction names as [|n names IH]; intros w Hin HF.
  - by apply elem_of_nil in Hin.
  - simpl. unfold bind at 1. destruct (resolveTag n c w) as [[i|e] w1] eqn:Hn;
      [|by do 2 eexists].
    apply elem_of_cons in Hin as [<- | Hin].
    + rewrite (resolveTag_empty_name c w HF) in Hn. discriminate.
    + destruct (IH w1 Hin (resolveTag_keeps_slugs_nonempty _ _ _ _ _ Hn HF))
        as (e & w' & He).
      unfold bind at 1. rewrite He. by do 2 eexists.
Qed.

(** X22. A tag list with an empty name (a trailing or doubled comma in
    the tags string, an empty string in the array) makes the request
    fail: in a store where no tag has the empty slug the resolver throws,
    so createPost does not answer 201 and updatePost does not answer
    200, and the post collection is left as it was.  A creation request
    that passed the checks of the handler and whose upload succeeded
    ends in a 500 with the blob uploaded and not destroyed. *)
Theorem empty_tag_name_fails_the_request
    (b : PostBody) (rid : RouteId) (c : Cloud) (d : Db) :
  "" ∈ names_of (b_tags b) ->
  (forall t, t ∈ db_tags d -> tag_slug t <> "") ->
  let created := exec (createPost b) c d in
  let updated := exec (updatePost rid b) c d in
  (exists e d1, run (process_tags (b_tags b)) c d = (Throw e, d1))
  /\ (status (response_of created) <> 201%nat /\ db_posts (db_of created) = db_posts d)
  /\ (forall url, passes_create_validation b = true -> upload_result c = Some url ->
        status (response_of created) = 500%nat
        /\ exists f rest, trace_of created = EvUpload f (Some url) :: rest
                          /\ Forall (fun e => is_tag_insert e = true) rest)
  /\ (status (response_of updated) <> 200%nat /\ db_posts (db_of updated) = db_posts d).
Proof.
  intros Hin Hslugs created updated.
  assert (HF : forall tr, Forall (fun t => tag_slug t <> "") (db_tags (w_db (mkWorld d tr))))
    by (intros tr; by apply Forall_forall).
  assert (Hthrow : exists e d1, run (process_tags (b_tags b)) c d = (Throw e, d1)).
  { rewrite process_tags_names_of. unfold run.
    destruct (resolveTags_empty_name _ c (mkWorld d []) Hin (HF [])) as (e & w' & ->).
    by do 2 eexists. }
  destruct Hthrow as (e0 & d0 & Hthrow).
  split; [by do 2 eexists|]. split; [|split].
  - destruct (createPost_cases b c d)
      as [(Hinv & msg & H) | (t & ds & f & _ & _ & _ & _ &
                     [[_ H] | (url & l & d2 & _ & Fl & Hsp & _ &
                               [(e & H & _) | (ids & Hrun & _ & H)])])];
      fold created in H; try (rewrite H; unfold response_of, db_of; simpl).
    + by split.
    + by split.
    + by split.
    + congruence.
  - intros url Hv Hu.
    destruct (createPost_cases b c d)
      as [(Hinv & msg & H) | (t & ds & f & _ & _ & _ & _ &
                     [[Hu' H] | (url' & l & d2 & Hu' & Fl & Hsp & _ &
                                 [(e & H & _) | (ids & Hrun & _ & H)])])];
      fold created in H; try congruence.
    rewrite H. unfold response_of, trace_of; simpl.
    assert (url' = url) as -> by congruence.
    split; [reflexivity | by exists f, l].
  - subst updated.
    destruct rid as [id|raw]; [|by rewrite updatePost_invalid].
    destruct (db_posts d !! id) as [post|] eqn:Hl.
    + destruct (updatePost_outcome id b c d post Hl)
        as [H | (url & [d1 t1] & ids & w2 & _ & Hd1 & Hpt & _)]; [exact H|].
      exfalso. simpl in Hd1. subst d1. rewrite process_tags_names_of in *.
      pose proof (framed_run _ _ _ _ _ _ (framed_resolveTags _) Hpt). congruence.
    + rewrite (updatePost_missing _ _ _ _ Hl). by split.
Qed.

End EmptyTagName.

(** * Examples on the further properties *)

(** X2 at work: the sample post comes back with its one tag. *)
Lemma getPost_populated_example :
  db_posts sample_db !! 1%nat = Some sample_post
  /\ exists tags,
       response_of (exec (getPost (ValidId 1%nat)) cloud_ok sample_db)
       = mkResp 200 true None (DataPost (Some (mkPopulated sample_post tags))) None
       /\ tag_id <$> tags = post_tags sample_post.
Proof.
  assert (H : db_posts sample_db !! 1%nat = Some sample_post) by reflexivity.
  split; [exact H|].
  pose proof (getPost_returns_populated_post (ValidId 1%nat) cloud_ok sample_db) as Hp.
  cbv zeta in Hp. destruct Hp as (_ & _ & Hp).
  destruct (Hp 1%nat sample_post eq_refl H) as (tags & Hr & _ & _ & Hall).
  exists tags. split; [exact Hr|]. apply Hall.
  intros i Hi. simpl in Hi. apply list_elem_of_singleton in Hi as ->.
  exists sample_tag. split; [by left | reflexivity].
Defined.

(** X3 at work: "Tech" is created in the sample store. *)
Lemma createTag_outcome_example :
  status (response_of (exec (createTag (Some "Tech")) cloud_ok sample_db)) = 201%nat
  /\ trace_of (exec (createTag (Some "Tech")) cloud_ok sample_db)
     = [EvTagInsert (mkTag (new_id sample_db) "Tech" "tech")].
Proof.
  assert (H : status (response_of (exec (createTag (Some "Tech")) cloud_ok sample_db))
              = 201%nat) by reflexivity.
  split; [exact H|].
  pose proof (createTag_outcome (Some "Tech") cloud_ok sample_db) as Ho.
  cbv zeta in Ho. destruct Ho as (_ & _ & _ & H201).
  destruct (H201 H) as (n & t & Hn & Ht & _ & _ & _ & Htr).
  injection Hn as <-. subst t. exact Htr.
Defined.

(** X4 at work: after "Tech" was created, "TECH" conflicts with it and
    resolves to it. *)
Lemma createTag_same_slug_example :
  let d1 := db_of (exec (createTag (Some "Tech")) cloud_ok sample_db) in
  slugify "TECH" = slugify "Tech"
  /\ status (response_of (exec (createTag (Some "TECH")) cloud_down d1)) = 409%nat
  /\ run (resolveTag "TECH") cloud_down d1 = (Ret (new_id sample_db), d1).
Proof.
  intros d1.
  assert (H : status (response_of (exec (createTag (Some "Tech")) cloud_ok sample_db))
              = 201%nat) by reflexivity.
  assert (Hs : slugify "TECH" = slugify "Tech") by reflexivity.
  assert (Hne : "TECH" <> "") by discriminate.
  split; [exact Hs|].
  pose proof (createTag_then_same_slug_conflicts "Tech" "TECH" cloud_ok cloud_down
                sample_db H Hs Hne) as Hc.
  cbv zeta in Hc. destruct Hc as (H409 & _ & Hres). by split.
Defined.

(** X5 at work: " X" has the slug "-x", which no tag has, and the name
    "X", which the sample tag has. *)
Lemma createTag_duplicate_name_example :
  tag_of_name sample_db " X" = None
  /\ Js.trim " X" = tag_name sample_tag
  /\ status (response_of (exec (createTag (Some " X")) cloud_ok sample_db)) = 500%nat
  /\ db_of (exec (createTag (Some " X")) cloud_ok sample_db) = sample_db.
Proof.
  assert (Hn : tag_of_name sample_db " X" = None) by reflexivity.
  assert (Hne : " X" <> "") by discriminate.
  split; [exact Hn|]. split; [reflexivity|].
  pose proof (createTag_rejected_by_schema " X" cloud_ok sample_db Hne Hn) as H.
  cbv zeta in H. destruct H as [[_ H500] Hsame].
  assert (Hs : status (response_of (exec (createTag (Some " X")) cloud_ok sample_db))
               = 500%nat).
  { apply H500. right. right. exists sample_tag. split; [by left | reflexivity]. }
  split; [exact Hs|]. by destruct (Hsame Hs).
Defined.

(** X7 at work: "News" and "news" get the same identifier. *)
Lemma resolveTags_same_slug_example :
  let d1 := mkDb [mkTag 0%nat "News" "news"; mkTag 1%nat "Art" "art"] ∅ in
  run (resolveTags ["News"; "news"; "Art"]) cloud_ok empty_db = (Ret [0; 0; 1]%nat, d1)
  /\ Forall2 (fun n i => exists t, tag_of_name d1 n = Some t /\ tag_id t = i)
       ["News"; "news"; "Art"] [0; 0; 1]%nat.
Proof.
  intros d1.
  assert (H : run (resolveTags ["News"; "news"; "Art"]) cloud_ok empty_db
              = (Ret [0; 0; 1]%nat, d1)) by reflexivity.
  split; [exact H|].
  by destruct (resolveTags_returns_tag_of_each_slug _ _ _ _ _ H) as [HF _].
Defined.

(** X8 at work: a creation with two tags in the sample store. *)
Lemma createPost_adds_post_example :
  let out := exec (createPost tagged_create) cloud_ok sample_db in
  status (response_of out) = 201%nat
  /\ db_posts (db_of out) !! 1%nat = Some sample_post
  /\ exists p, db_posts (db_of out) = <[post_id p := p]> (db_posts sample_db)
               /\ length (post_tags p) = 2%nat.
Proof.
  intros out.
  assert (H : status (response_of out) = 201%nat) by reflexivity.
  split; [exact H|].
  pose proof (createPost_adds_exactly_one_post tagged_create cloud_ok cloud_ok sample_db)
    as Hc.
  cbv zeta in Hc. destruct Hc as (Hkept & _ & H201).
  split; [by apply Hkept|].
  destruct (H201 H) as (p & t & ds & _ & _ & Hp & _ & _ & _ & _ & _ & Hlen & _).
  exists p. by split.
Defined.

(** X9 at work: a title of two blanks passes the checks of the handler
    and is refused by the schema after the upload. *)
Lemma createPost_blank_title_example :
  passes_create_validation blank_title_create = true
  /\ Js.trim "  " = ""
  /\ status (response_of (exec (createPost blank_title_create) cloud_ok sample_db)) = 500%nat
  /\ db_posts (db_of (exec (createPost blank_title_create) cloud_ok sample_db))
     = db_posts sample_db.
Proof.
  assert (Hv : passes_create_validation blank_title_create = true) by reflexivity.
  assert (Ht : Js.trim "  " = "") by reflexivity.
  split; [exact Hv|]. split; [exact Ht|].
  pose proof (createPost_schema_rejection_orphans_blob blank_title_create cloud_ok
                sample_db "  " "D" new_url Hv eq_refl eq_refl eq_refl (or_introl Ht)) as H.
  cbv zeta in H. destruct H as (Hs & _ & Hp). by split.
Defined.

(** X10 at work: an update of the sample post with an image of 5 MiB and
    one byte. *)
Lemma updatePost_oversized_example :
  let f := mkFile "image/png" (5 * 1024 * 1024 + 1) in
  let out := exec (updatePost (ValidId 1%nat) oversized_create) cloud_ok sample_db in
  valid_image f = false
  /\ status (response_of out) = 400%nat /\ db_of out = sample_db /\ trace_of out = [].
Proof.
  intros f out.
  assert (Hv : valid_image f = false) by reflexivity.
  split; [exact Hv|].
  pose proof (updatePost_rejects_before_any_effect (ValidId 1%nat) oversized_create
                cloud_ok sample_db) as H.
  cbv zeta in H. destruct H as (_ & _ & H).
  apply (H 1%nat f); [reflexivity | by eexists | reflexivity | exact Hv].
Defined.

(** X12 at work: the sample post is deleted and is gone. *)
Lemma deletePost_then_gone_example :
  let out := exec (deletePost (ValidId 1%nat)) cloud_ok sample_db in
  status (response_of out) = 200%nat
  /\ status (response_of (exec (getPost (ValidId 1%nat)) cloud_down (db_of out))) = 404%nat
  /\ exec (deletePost (ValidId 1%nat)) cloud_down (db_of out)
     = (fail_with 404 "Post not found", db_of out, []).
Proof.
  intros out.
  assert (H : status (response_of out) = 200%nat) by reflexivity.
  split; [exact H|].
  pose proof (deletePost_removes_only_that_post (ValidId 1%nat) cloud_ok cloud_down
                sample_db) as Hd.
  cbv zeta in Hd. destruct Hd as (_ & _ & H200).
  by destruct (H200 H) as (id & _ & _ & H404 & Hagain).
Defined.

(** X13 at work: the blob destroyed by the deletion of the sample post
    is the image of the sample post. *)
Lemma blob_deleted_example :
  EvDestroy "posts-api/old" true
    ∈ trace_of (exec (route (DELETE_post (ValidId 1%nat))) cloud_ok sample_db)
  /\ exists id post,
       db_posts sample_db !! id = Some post
       /\ "posts-api/old" = fullPublicId (post_imageUrl post).
Proof.
  assert (H : EvDestroy "posts-api/old" true
                ∈ trace_of (exec (route (DELETE_post (ValidId 1%nat))) cloud_ok sample_db)).
  { assert (Htr : trace_of (exec (route (DELETE_post (ValidId 1%nat))) cloud_ok sample_db)
                  = [EvDestroy "posts-api/old" true; EvPostDelete 1%nat]) by reflexivity.
    rewrite Htr. by left. }
  split; [exact H|].
  destruct (blobs_deleted_only_for_the_post_addressed _ _ _ _ _ H)
    as (id & post & _ & Hl & Hp & _).
  by exists id, post.
Defined.

(** X14 at work: the folders and the extension of a URL are dropped. *)
Lemma fullPublicId_example :
  fullPublicId "https://res.cloudinary.com/demo/image/upload/v1/posts-api/abc123.jpg"
  = "posts-api/abc123".
Proof.
  by apply (proj2 (fullPublicId_is_last_segment_before_dot ""
                     "https://res.cloudinary.com/demo/image/upload/v1/posts-api"
                     "abc123" "jpg")).
Defined.

(** X15 at work: a tag and a post with two tags created in the empty
    store. *)
Lemma serve_uniqueness_example :
  let d := serve [(POST_tags (Some "News"), cloud_ok); (POST_posts tagged_create, cloud_ok)]
             empty_db in
  posts_keyed d /\ tag_ids_distinct d /\ unique_names d.
Proof.
  intros d.
  destruct (serve_keeps_identifiers_and_names_unique
              [(POST_tags (Some "News"), cloud_ok); (POST_posts tagged_create, cloud_ok)]
              empty_db) as (H1 & H2 & H3 & E1 & E2 & E3).
  split; [by apply H1|]. split; [by apply H2 | by apply H3].
Defined.

(** X16 at work: the sample store satisfies the schemas, and still does
    after an update and a refused creation. *)
Lemma serve_schema_valid_example :
  schema_valid sample_db
  /\ schema_valid (serve [(PUT_post (ValidId 1%nat) retitle_with_image, cloud_ok);
                          (POST_posts blank_title_create, cloud_ok)] sample_db).
Proof.
  assert (H : schema_valid sample_db).
  { split.
    - intros t Ht. apply list_elem_of_singleton in Ht as ->.
      unfold tag_ok. simpl. repeat split; first [discriminate | lia].
    - intros id p Hp.
      change (({[1%nat := sample_post]} : gmap nat Post) !! id = Some p) in Hp.
      apply lookup_singleton_Some in Hp as [_ <-].
      unfold post_ok. simpl. repeat split; first [discriminate | lia]. }
  split; [exact H|]. by apply serve_keeps_schema_valid.
Defined.

(** X17 at work: the one reference of the sample store resolves, and
    so do all references after a creation and a deletion. *)
Lemma serve_references_example :
  references_resolve sample_db
  /\ references_resolve (serve [(POST_posts tagged_create, cloud_ok);
                                (DELETE_post (ValidId 1%nat), cloud_ok)] sample_db).
Proof.
  assert (H : references_resolve sample_db).
  { intros id p i Hp Hi.
    change (({[1%nat := sample_post]} : gmap nat Post) !! id = Some p) in Hp.
    apply lookup_singleton_Some in Hp as [_ <-].
    simpl in Hi. apply list_elem_of_singleton in Hi as ->.
    exists sample_tag. split; [by left | reflexivity]. }
  split; [exact H|].
  by apply (proj1 (serve_keeps_references_resolving _ sample_db)).
Defined.

(** X18 at work: the slug "X" is lower-cased and selects the sample
    post through the sample tag. *)
Lemma listing_by_tag_example :
  lp_tags (list_tags "X") = Some "X"
  /\ status (response_of (exec (getPosts (list_tags "X")) cloud_ok sample_db)) = 200%nat
  /\ exists f pred,
       (q_filter <$> page_query
          (response_of (exec (getPosts (list_tags "X")) cloud_ok sample_db))) = Some f
       /\ filter_pred f = Some pred
       /\ pred sample_post = true.
Proof.
  assert (Ht : lp_tags (list_tags "X") = Some "X") by reflexivity.
  assert (Hne : "X" <> "") by discriminate.
  split; [exact Ht|].
  pose proof (listing_by_tags_selects_posts_with_any_tag (list_tags "X") cloud_ok sample_db)
    as H.
  cbv zeta in H. destruct H as (H & _ & Hdef).
  pose proof (Hdef eq_refl eq_refl eq_refl) as Hs.
  split; [exact Hs|].
  destruct (H "X" Ht Hne Hs) as (f & pred & Hf & Hp & Hiff & _).
  exists f, pred. split; [exact Hf|]. split; [exact Hp|].
  apply Hiff. exists sample_tag. split; [by left|]. split; [by left|].
  apply list_elem_of_singleton. reflexivity.
Defined.

(** X19 at work: the script run on the empty store, then run again. *)
Lemma initDatabase_example :
  let d1 := (run initDatabase cloud_down empty_db).2 in
  run initDatabase cloud_down empty_db = (Ret tt, d1)
  /\ run initDatabase cloud_ok d1 = (Ret tt, d1)
  /\ db_posts d1 = ∅.
Proof.
  intros d1.
  assert (H : run initDatabase cloud_down empty_db = (Ret tt, d1)) by reflexivity.
  split; [exact H|].
  destruct (initDatabase_is_idempotent cloud_down cloud_ok empty_db d1 H)
    as (Hagain & _ & _ & Hp).
  by split.
Defined.

(** X20 at work: a post is created in the sample store and deleted. *)
Lemma createPost_then_deletePost_example :
  let out := exec (createPost tagged_create) cloud_ok sample_db in
  status (response_of out) = 201%nat
  /\ exists p,
       data (response_of out) = DataPost (Some (populated (db_of out) p))
       /\ db_posts (db_of (exec (deletePost (ValidId (post_id p))) cloud_ok (db_of out)))
          = db_posts sample_db.
Proof.
  intros out.
  assert (H : status (response_of out) = 201%nat) by reflexivity.
  split; [exact H|].
  pose proof (createPost_then_deletePost_restores_posts tagged_create cloud_ok cloud_ok
                sample_db) as Hc.
  cbv zeta in Hc. destruct (Hc H) as (p & url & Hd & _ & Hok & _).
  exists p. split; [exact Hd|]. by destruct (Hok eq_refl) as (_ & _ & Hp & _).
Defined.

(** X21 at work: one post is listed in the sample store and none after
    its deletion. *)
Lemma unfiltered_total_example :
  let total d :=
    pg_total <$> page_pagination (response_of (exec (getPosts (list_page "1")) cloud_ok d)) in
  lp_tags (list_page "1") = None
  /\ total sample_db = Some (Some 1%nat)
  /\ total (db_of (exec (route (DELETE_post (ValidId 1%nat))) cloud_ok sample_db)) = Some (Some 0%nat).
Proof.
  intros total.
  assert (Hl : lp_tags (list_page "1") = None) by reflexivity.
  split; [exact Hl|].
  assert (Hs : status (response_of (exec (getPosts (list_page "1")) cloud_ok sample_db))
               = 200%nat) by reflexivity.
  pose proof (unfiltered_total_counts_posts (list_page "1") (DELETE_post (ValidId 1%nat)) cloud_ok
                cloud_ok sample_db Hl Hs) as H.
  cbv zeta in H. destruct H as (H1 & H2 & _). split; [exact H1 | exact H2].
Defined.

(** X22 at work: the tags string "a," names "a" and the empty name. *)
Lemma trailing_comma_example :
  names_of (b_tags trailing_comma_create) = ["a"; ""]
  /\ status (response_of (exec (createPost trailing_comma_create) cloud_ok sample_db))
     = 500%nat
  /\ db_posts (db_of (exec (createPost trailing_comma_create) cloud_ok sample_db))
     = db_posts sample_db.
Proof.
  assert (Hn : names_of (b_tags trailing_comma_create) = ["a"; ""]) by reflexivity.
  assert (Hin : "" ∈ names_of (b_tags trailing_comma_create))
    by (rewrite Hn; right; left).
  assert (Hs : forall t, t ∈ db_tags sample_db -> tag_slug t <> "")
    by (intros t Ht; apply list_elem_of_singleton in Ht as ->; discriminate).
  split; [exact Hn|].
  pose proof (empty_tag_name_fails_the_request trailing_comma_create (ValidId 1%nat) cloud_ok
                sample_db Hin Hs) as H.
  cbv zeta in H. destruct H as (_ & [_ Hp] & H500 & _).
  split; [|exact Hp]. by destruct (H500 new_url eq_refl eq_refl).
Defined.
